(** * Fake Ops Center: the synthetic feeds, embedded and verified

    A shallow embedding of [fake_ops_center/core/models.py],
    [fake_ops_center/core/config.py] and [fake_ops_center/core/feeds.py].

    Conventions of the embedding.
    - A [datetime] is the number of microseconds since the epoch ([Z]); a
      [timedelta] is a difference of two of them.
    - A Python [float] is a rational ([Q]).  The code adds and divides floats,
      compares them and clips them.  Where a statement depends on how a
      result is rounded, the operation is the exact one followed by
      [binary64], the rounding to the nearest double: the differences of
      [MetricsBuffer.add] and of [update_metrics].  Elsewhere the rounding is
      not modelled, and no statement depends on the exact value of a float;
      the one comparison that decides a status, that of [can_autoresolve],
      is exact in the model, and what is stated of it, [deadline_reached],
      holds of the comparison in doubles as well.
    - [numpy.random.Generator] is an external library: the feeds are written
      against the interface [Generator], and every theorem holds for every
      implementation of it.
    - [datetime.now(UTC)] reads the wall clock: the machine state counts the
      reads, and the [n]-th read returns [now n], for a clock [now] that is a
      parameter of every operation.
    - [Incident] is a mutable dataclass that the tracker, the list returned
      by [step] and the subscribers all share: incidents live in a heap, and
      the tracker and the emitted lists hold addresses. *)

From Stdlib Require Import ZArith QArith Qround Qabs Qpower Ascii String.
From Stdlib Require Import DecimalString DecimalNat.
From stdpp Require Import base tactics option list strings.

#[local] Open Scope string_scope.
#[local] Open Scope list_scope.
#[local] Open Scope Z_scope.

(** ** models.py *)

Inductive IncidentStatus := NEW | ACKNOWLEDGED | IN_PROGRESS | RESOLVED.

Inductive IncidentSeverity := LOW | MEDIUM | HIGH | CRITICAL.

#[global] Instance IncidentStatus_eq_dec : EqDecision IncidentStatus.
Proof. solve_decision. Defined.

#[global] Instance IncidentSeverity_eq_dec : EqDecision IncidentSeverity.
Proof. solve_decision. Defined.

(** [list(IncidentSeverity)]: the members in definition order. *)
Definition severities : list IncidentSeverity := [LOW; MEDIUM; HIGH; CRITICAL].

Record Incident := mkIncident {
  identifier : string;
  timestamp : Z;
  category : string;
  severity : IncidentSeverity;
  status : IncidentStatus;
  region : string;
  acknowledged : bool;
  description : option string;
  last_update : Z;
  autoresolve_after : option Q;
  location : option (Z * Z)
}.

(** Attribute assignments [self.status = v], [self.acknowledged = v],
    [self.last_update = v]. *)
Definition set_status (v : IncidentStatus) (self : Incident) : Incident :=
  mkIncident (identifier self) (timestamp self) (category self) (severity self)
    v (region self) (acknowledged self) (description self) (last_update self)
    (autoresolve_after self) (location self).

Definition set_acknowledged (v : bool) (self : Incident) : Incident :=
  mkIncident (identifier self) (timestamp self) (category self) (severity self)
    (status self) (region self) v (description self) (last_update self)
    (autoresolve_after self) (location self).

Definition set_last_update (v : Z) (self : Incident) : Incident :=
  mkIncident (identifier self) (timestamp self) (category self) (severity self)
    (status self) (region self) (acknowledged self) (description self) v
    (autoresolve_after self) (location self).

(** [timedelta.total_seconds()] of a difference given in microseconds. *)
Definition total_seconds (delta : Z) : Q := inject_Z delta / inject_Z 1000000.

(** [Incident.advance_status], on the value of the object; [t] is the clock
    reading of its last line. *)
Definition advance_status_at (t : Z) (self : Incident) : Incident :=
  let self :=
    match status self with
    | NEW => set_acknowledged true (set_status ACKNOWLEDGED self)
    | ACKNOWLEDGED => set_status IN_PROGRESS self
    | IN_PROGRESS => set_status RESOLVED self
    | RESOLVED => self
    end in
  set_last_update t self.

(** The comparison [elapsed >= self.autoresolve_after] of
    [Incident.can_autoresolve], for the clock reading [t]. *)
Definition deadline_passed (t : Z) (self : Incident) (d : Q) : bool :=
  Qle_bool d (total_seconds (t - last_update self)).

Record MetricSample := mkMetricSample {
  sample_timestamp : Q;
  cpu_percent : Q;
  memory_percent : Q
}.

(** ** config.py *)

Record FeedConfig := mkFeedConfig {
  metrics_hz : Q;
  logs_per_sec : Q;
  incidents_per_min : Q;
  incident_autoresolve_sec : Z * Z
}.

Record MapConfig := mkMapConfig {
  grid : Z * Z;
  hotspot_prob : Q;
  max_markers : Z
}.

(** [FeedConfig._validate_autoresolve]: [None] is the [ValueError]. *)
Definition _validate_autoresolve (value : Z * Z) : option (Z * Z) :=
  let '(low, high) := value in
  if (low <=? 0) || (high <=? 0) then None
  else if high <=? low then None
  else Some value.

(** [MapConfig._validate_grid]. *)
Definition _validate_grid (value : Z * Z) : option (Z * Z) :=
  let '(width, height) := value in
  if (width <=? 1) || (height <=? 1) then None else Some value.

(** The field constraints [gt=0] together with the validator: the
    configurations pydantic accepts. *)
Definition valid_FeedConfig (c : FeedConfig) : Prop :=
  (0 < metrics_hz c)%Q ∧ (0 < logs_per_sec c)%Q ∧ (0 < incidents_per_min c)%Q ∧
  is_Some (_validate_autoresolve (incident_autoresolve_sec c)).

Definition valid_MapConfig (m : MapConfig) : Prop :=
  is_Some (_validate_grid (grid m)) ∧
  (0 <= hotspot_prob m)%Q ∧ (hotspot_prob m <= 1)%Q ∧ 0 < max_markers m.

(** ** Strings built by feeds.py *)

(** [f"{n:04d}"] for a non-negative [n]: the decimal digits, padded with
    zeros on the left up to four characters. *)
Fixpoint zeros (k : nat) : string :=
  match k with O => "" | S k => String "0" (zeros k) end.

Definition format_04d (n : nat) : string :=
  let digits := NilZero.string_of_uint (Nat.to_uint n) in
  zeros (4 - String.length digits) ++ digits.

(** Reading a string of decimal digits back. *)
Definition parse_nat (s : string) : option nat :=
  Nat.of_uint <$> NilZero.uint_of_string s.

Definition is_lower (c : ascii) : bool :=
  let n := nat_of_ascii c in ((97 <=? n) && (n <=? 122))%nat.

Definition is_upper (c : ascii) : bool :=
  let n := nat_of_ascii c in ((65 <=? n) && (n <=? 90))%nat.

Definition to_upper (c : ascii) : ascii :=
  if is_lower c then ascii_of_nat (nat_of_ascii c - 32) else c.

Definition to_lower (c : ascii) : ascii :=
  if is_upper c then ascii_of_nat (nat_of_ascii c + 32) else c.

(** [str.title()] on ASCII text: a letter that follows a letter is lowered,
    any other letter is raised. *)
Fixpoint title_from (after_letter : bool) (s : string) : string :=
  match s with
  | EmptyString => EmptyString
  | String c rest =>
      if is_lower c || is_upper c
      then String (if after_letter then to_lower c else to_upper c)
             (title_from true rest)
      else String c (title_from false rest)
  end.

Definition title (s : string) : string := title_from false s.

(** ** The random generator

    What feeds.py asks of [numpy.random.Generator].  Every draw takes the
    generator state and returns the value with the next state.  The one law
    is numpy's contract for [integers(low, high)]: the result lies in
    [low, high). *)

Class Generator (G : Type) := {
  default_rng : Z → G;
  rng_normal_pair : Q → Q → G → (Q * Q) * G;
  rng_exponential : Q → G → Q * G;
  rng_poisson : Q → G → nat * G;
  rng_integers : Z → Z → G → Z * G;
  rng_choice : list string → G → string * G;
  rng_uniform : Q → Q → G → Q * G;
  rng_random : G → Q * G;
  rng_integers_range : ∀ low high g,
    low < high → low ≤ (rng_integers low high g).1 < high
}.

(** ** feeds.py: constants and plain data *)

Definition _REGIONS : list string :=
  ["us-east"; "us-west"; "eu-central"; "ap-south"; "sa-east"].

Definition _INCIDENT_TYPES : list string :=
  ["network"; "database"; "compute"; "storage"; "security"].

(** The address of an incident object. *)
Abbreviation loc := nat (only parsing).

Record FeedState (G : Type) := mkFeedState {
  seed : Z;
  rng : G
}.
Arguments mkFeedState {G} _ _.
Arguments seed {G} _.
Arguments rng {G} _.

(** [IncidentTracker]: [active] is a Python [dict], which keeps its keys in
    insertion order; the order decides which incident takes which roll. *)
Record IncidentTracker := mkIncidentTracker {
  active : list (string * loc);
  counter : nat
}.

Record IncidentsFeed := mkIncidentsFeed {
  config : FeedConfig;
  tracker : IncidentTracker;
  _grid_width : Z;
  _grid_height : Z
}.

Record MetricsFeed := mkMetricsFeed {
  _cpu : Q;
  _mem : Q
}.

(** The machine state seen by an [IncidentsFeed]: the incident objects, the
    shared [FeedState], the feed object and the number of clock reads. *)
Record World (G : Type) := mkWorld {
  heap : list Incident;
  state : FeedState G;
  feed : IncidentsFeed;
  reads : nat
}.
Arguments mkWorld {G} _ _ _ _.
Arguments heap {G} _.
Arguments state {G} _.
Arguments feed {G} _.
Arguments reads {G} _.

(** [d[key] = value] on an insertion-ordered dict: an existing key keeps its
    place, a new key goes last. *)
Fixpoint dict_set (key : string) (value : loc) (d : list (string * loc))
  : list (string * loc) :=
  match d with
  | [] => [(key, value)]
  | (k, v) :: rest =>
      if decide (k = key) then (k, value) :: rest
      else (k, v) :: dict_set key value rest
  end.

(** [d.pop(key, None)], the result dropped. *)
Definition dict_pop (key : string) (d : list (string * loc))
  : list (string * loc) :=
  filter (λ e, e.1 ≠ key) d.

(** [seq[i]] with Python's negative indices; [None] is the [IndexError]. *)
Definition py_index {A} (l : list A) (i : Z) : option A :=
  if 0 <=? i then l !! Z.to_nat i
  else if - Z.of_nat (length l) <=? i then l !! Z.to_nat (Z.of_nat (length l) + i)
  else None.

Definition Qltb (x y : Q) : bool := negb (Qle_bool y x).

(** [np.clip(x, lo, hi)]: [minimum(maximum(x, lo), hi)]. *)
Definition clip (x lo hi : Q) : Q :=
  let m := if Qltb x lo then lo else x in
  if Qltb hi m then hi else m.

(** ** feeds.py: [FeedState] and [MetricsFeed] *)

Section Feeds.
Context {G : Type} `{Generator G}.

(** [FeedState(seed=s)], with its [__post_init__]. *)
Definition FeedState_new (s : Z) : FeedState G := mkFeedState s (default_rng s).

(** [FeedState.reset(seed)]; [None] is the call without argument. *)
Definition FeedState_reset (seed' : option Z) (self : FeedState G) : FeedState G :=
  let self :=
    mkFeedState (seed self)
      (default_rng (match seed' with None => seed self | Some s => s end)) in
  match seed' with
  | Some s => mkFeedState s (rng self)
  | None => self
  end.

(** [MetricsFeed.__init__] and the state part of [MetricsFeed.reset]. *)
Definition MetricsFeed_new : MetricsFeed := mkMetricsFeed 55 48.

(** [MetricsFeed.sample]: [ts] is the value of [utc_timestamp()]. *)
Definition sample (ts : Q) (st : FeedState G) (self : MetricsFeed)
  : MetricSample * FeedState G * MetricsFeed :=
  let '(drift, g) := rng_normal_pair 0 2 (rng st) in
  let '(spike, g) := rng_exponential 2 g in
  let '(drift, g) :=
    if Qltb 5 spike
    then let '(extra, g) := rng_normal_pair 10 5 g in
         ((drift.1 + extra.1, drift.2 + extra.2)%Q, g)
    else (drift, g) in
  let cpu := clip (_cpu self + drift.1) 1 98 in
  let mem := clip (_mem self + drift.2) 5 95 in
  (mkMetricSample ts cpu mem, mkFeedState (seed st) g, mkMetricsFeed cpu mem).

(** [n] consecutive calls of [sample], at the timestamps [ts 0], [ts 1], ... *)
Fixpoint samples (ts : nat → Q) (n : nat) (st : FeedState G) (self : MetricsFeed)
  : list MetricSample :=
  match n with
  | O => []
  | S n =>
      let '(smp, st, self) := sample (ts O) st self in
      smp :: samples (λ i, ts (S i)) n st self
  end.

(** ** feeds.py: the monad of [IncidentsFeed]

    A method is a function of the world that returns its result with the
    next world, or [None] when it raises. *)

Definition M (A : Type) : Type := World G → option (A * World G).

Definition ret {A} (a : A) : M A := λ w, Some (a, w).

Definition bind {A B} (m : M A) (k : A → M B) : M B :=
  λ w, match m w with Some (a, w') => k a w' | None => None end.

Definition raise {A} : M A := λ _, None.

Notation "'let*' x ':=' m 'in' k" := (bind m (λ x, k))
  (at level 10, x name, m at level 100, k at level 200).
Notation "'do' m 'in' k" := (bind m (λ _, k))
  (at level 10, m at level 100, k at level 200).

Definition get_feed : M IncidentsFeed := λ w, Some (feed w, w).

Definition set_tracker (t : IncidentTracker) : M unit :=
  λ w, Some (tt, mkWorld (heap w) (state w)
               (mkIncidentsFeed (config (feed w)) t (_grid_width (feed w))
                  (_grid_height (feed w))) (reads w)).

(** A draw from [self.state.rng]. *)
Definition draw {A} (f : G → A * G) : M A :=
  λ w, let '(a, g) := f (rng (state w)) in
       Some (a, mkWorld (heap w) (mkFeedState (seed (state w)) g) (feed w) (reads w)).

(** Reading an incident object, writing it, creating one. *)
Definition load (l : loc) : M Incident :=
  λ w, match heap w !! l with Some inc => Some (inc, w) | None => None end.

Definition store (l : loc) (inc : Incident) : M unit :=
  λ w, Some (tt, mkWorld (<[l := inc]> (heap w)) (state w) (feed w) (reads w)).

Definition alloc (inc : Incident) : M loc :=
  λ w, Some (length (heap w),
             mkWorld (heap w ++ [inc]) (state w) (feed w) (reads w)).

Section Clock.
Variable now : nat → Z.

(** [datetime.now(UTC)]. *)
Definition datetime_now : M Z :=
  λ w, Some (now (reads w), mkWorld (heap w) (state w) (feed w) (S (reads w))).

(** [incident.advance_status()]. *)
Definition advance_status (l : loc) : M unit :=
  let* self := load l in
  let* t := datetime_now in
  store l (advance_status_at t self).

(** [incident.can_autoresolve()]. *)
Definition can_autoresolve (l : loc) : M bool :=
  let* self := load l in
  match autoresolve_after self with
  | None => ret false
  | Some d =>
      let* t := datetime_now in
      ret (deadline_passed t self d)
  end.

(** [IncidentTracker.new_identifier]. *)
Definition new_identifier : M string :=
  let* self := get_feed in
  let n := S (counter (tracker self)) in
  do set_tracker (mkIncidentTracker (active (tracker self)) n) in
  ret (String "A" (format_04d n)).

(** [IncidentTracker.add]. *)
Definition tracker_add (l : loc) : M unit :=
  let* incident := load l in
  let* self := get_feed in
  set_tracker (mkIncidentTracker
                 (dict_set (identifier incident) l (active (tracker self)))
                 (counter (tracker self))).

(** [IncidentTracker.iter_active]. *)
Definition iter_active : M (list loc) :=
  let* self := get_feed in
  ret ((active (tracker self)).*2).

(** The comprehension of [IncidentTracker.purge]: the keys whose incident is
    resolved. *)
Fixpoint resolved_keys (items : list (string * loc)) : M (list string) :=
  match items with
  | [] => ret []
  | (key, l) :: rest =>
      let* inc := load l in
      let* keys := resolved_keys rest in
      ret (if decide (status inc = RESOLVED) then key :: keys else keys)
  end.

(** [IncidentTracker.purge]. *)
Definition purge : M unit :=
  let* self := get_feed in
  let* resolved := resolved_keys (active (tracker self)) in
  let* self := get_feed in
  set_tracker (mkIncidentTracker
                 (foldl (λ d key, dict_pop key d) (active (tracker self)) resolved)
                 (counter (tracker self))).

(** [self.state.rng.integers(low, high)]; numpy raises [ValueError] when
    [low >= high]. *)
Definition integers (low high : Z) : M Z :=
  if low <? high then draw (rng_integers low high) else raise.

(** [self.state.rng.poisson(lam)]; numpy raises [ValueError] when [lam < 0]. *)
Definition poisson (lam : Q) : M nat :=
  if Qltb lam 0 then raise else draw (rng_poisson lam).

(** [IncidentsFeed._make_incident]. *)
Definition _make_incident : M loc :=
  let* identifier := new_identifier in
  let* i := integers 0 (Z.of_nat (length severities)) in
  match py_index severities i with
  | None => raise
  | Some severity =>
      let* category := draw (rng_choice _INCIDENT_TYPES) in
      let* region := draw (rng_choice _REGIONS) in
      let* self := get_feed in
      let* autoresolve := draw (rng_uniform
                            (inject_Z (incident_autoresolve_sec (config self)).1)
                            (inject_Z (incident_autoresolve_sec (config self)).2)) in
      let* x := integers 0 (_grid_width self) in
      let* y := integers 0 (_grid_height self) in
      let* created := datetime_now in
      let* updated := datetime_now in
      let* incident := alloc (mkIncident identifier created category severity NEW
                          region false
                          (Some (title category +:+ " anomaly detected"))
                          updated (Some autoresolve) (Some (x, y))) in
      do tracker_add incident in
      ret incident
  end.

(** The first loop of [step]: [events] calls of [_make_incident]. *)
Fixpoint arrivals (events : nat) : M (list loc) :=
  match events with
  | O => ret []
  | S events =>
      let* incident := _make_incident in
      let* rest := arrivals events in
      ret (incident :: rest)
  end.

(** The body of the second loop of [step] for one incident: the list it
    appends to [emitted]. *)
Definition progress (t : Z) (incident : loc) : M (list loc) :=
  let* inc := load incident in
  if decide (status inc = RESOLVED) then ret []
  else
    let* due := can_autoresolve incident in
    if due then
      let* inc := load incident in
      do store incident (set_last_update t (set_status RESOLVED inc)) in
      ret [incident]
    else
      let* progress_roll := draw rng_random in
      let* inc := load incident in
      if (bool_decide (status inc = NEW) || bool_decide (status inc = ACKNOWLEDGED))
         && Qltb progress_roll (3 # 10)
      then
        do advance_status incident in
        let* inc := load incident in
        do store incident (set_last_update t inc) in
        ret [incident]
      else if bool_decide (status inc = IN_PROGRESS) && Qltb progress_roll (15 # 100)
      then
        do advance_status incident in
        let* inc := load incident in
        do store incident (set_last_update t inc) in
        ret [incident]
      else ret [].

(** The second loop of [step]. *)
Fixpoint sweep (t : Z) (incidents : list loc) : M (list loc) :=
  match incidents with
  | [] => ret []
  | incident :: rest =>
      let* e := progress t incident in
      let* es := sweep t rest in
      ret (e ++ es)
  end.

(** [IncidentsFeed.step]. *)
Definition step : M (list loc) :=
  let* self := get_feed in
  let mean_rate := (incidents_per_min (config self) / 60)%Q in
  let* events := poisson mean_rate in
  let* created := arrivals events in
  let* t := datetime_now in
  let* incidents := iter_active in
  let* progressed := sweep t incidents in
  do purge in
  ret (created ++ progressed).

(** The state part of [IncidentsFeed.reset]: a new, empty tracker. *)
Definition IncidentsFeed_reset : M unit :=
  set_tracker (mkIncidentTracker [] 0).

End Clock.

(** [IncidentsFeed(config, buffers, state, map_config)] over a fresh
    [FeedState(seed=s)], with no incident object yet and no clock read. *)
Definition IncidentsFeed_new (s : Z) (cfg : FeedConfig) (map_config : MapConfig)
  : World G :=
  mkWorld [] (FeedState_new s)
    (mkIncidentsFeed cfg (mkIncidentTracker [] 0)
       (grid map_config).1 (grid map_config).2) 0.

End Feeds.

(** ** Running the feed

    What the caller of [step] sees: the objects of the returned list, read
    when the call returns. *)

Definition snapshot {G} (w : World G) (emitted : list loc) : list Incident :=
  omap (λ l, heap w !! l) emitted.

(** [n] calls of [step] in a row; the result lists what each call returned,
    as the caller sees it on return. *)
Fixpoint run_steps {G} `{Generator G} (now : nat → Z) (n : nat) (w : World G)
  : option (list (list Incident) * World G) :=
  match n with
  | O => Some ([], w)
  | S n =>
      match step now w with
      | None => None
      | Some (emitted, w) =>
          match run_steps now n w with
          | None => None
          | Some (rest, w') => Some (snapshot w emitted :: rest, w')
          end
      end
  end.

(** The ways a feed object is driven: [step()] by the run loop,
    [_make_incident()] by a test, [reset()] by the controller. *)
Inductive Call := CallStep | CallMake | CallReset.

#[global] Instance Call_eq_dec : EqDecision Call.
Proof. solve_decision. Defined.

Definition call {G} `{Generator G} (now : nat → Z) (c : Call) : M (list loc) :=
  match c with
  | CallStep => step now
  | CallMake => bind (_make_incident now) (λ l, ret [l])
  | CallReset => bind IncidentsFeed_reset (λ _, ret [])
  end.

(** The worlds a sequence of calls goes through, the first one included; the
    sequence stops at a call that raises. *)
Fixpoint worlds {G} `{Generator G} (now : nat → Z) (cs : list Call) (w : World G)
  : list (World G) :=
  w :: match cs with
       | [] => []
       | c :: cs =>
           match call now c w with
           | Some (_, w') => worlds now cs w'
           | None => []
           end
       end.

(** The statuses an incident object goes through along a list of worlds, and
    the same with repetitions of a status dropped. *)
Definition history {G} (l : loc) (ws : list (World G)) : list IncidentStatus :=
  omap (λ w, status <$> heap w !! l) ws.

Fixpoint changes (ss : list IncidentStatus) : list IncidentStatus :=
  match ss with
  | [] => []
  | s :: rest =>
      match rest with
      | [] => [s]
      | s' :: _ => if decide (s = s') then changes rest else s :: changes rest
      end
  end.

(** The lifecycle of models.py, in order. *)
Definition lifecycle : list IncidentStatus :=
  [NEW; ACKNOWLEDGED; IN_PROGRESS; RESOLVED].

(** The fields of an emitted incident that the determinism property compares. *)
Definition signature (inc : Incident)
  : string * IncidentSeverity * string * string * option (Z * Z) :=
  (identifier inc, severity inc, category inc, region inc, location inc).

(** ** A concrete generator

    A generator that plays a script: its state is a number read as a
    sequence of two-digit values, the lowest first, and every draw consumes
    one value [r] (two for a pair): [poisson] returns [r], [integers] returns
    [low + r mod (high - low)], [choice] returns the entry [r mod len],
    [random] returns [r / 100], [uniform] returns
    [low + (high - low) * r / 100].  The seed is the script.  It implements
    [Generator], and stands in for numpy's generator wherever the feeds are
    run on concrete inputs. *)

Module Script.

Definition raw (g : Z) : Z := g mod 100.

Definition next (g : Z) : Z := g / 100.

Definition unit_interval (g : Z) : Q := raw g # 100.

Definition integers (low high g : Z) : Z * Z :=
  (if low <? high then low + raw g mod (high - low) else low, next g).

Definition choice (l : list string) (g : Z) : string * Z :=
  (nth (Z.to_nat (raw g mod Z.of_nat (length l))) l "", next g).

Definition normal_pair (mu sigma : Q) (g : Z) : (Q * Q) * Z :=
  let a := ((raw g - 50) # 10) in
  let b := ((raw (next g) - 50) # 10) in
  ((mu + sigma * a, mu + sigma * b)%Q, next (next g)).

Lemma integers_range low high g :
  low < high → low ≤ (integers low high g).1 < high.
Proof.
  intros Hlt. unfold integers. simpl.
  destruct (Z.ltb_spec low high) as [_|]; [|lia].
  pose proof (Z.mod_pos_bound (raw g) (high - low)). lia.
Qed.

#[global] Instance generator : Generator Z := {|
  default_rng s := s;
  rng_normal_pair := normal_pair;
  rng_exponential scale g := ((scale * (raw g # 10))%Q, next g);
  rng_poisson lam g := (Z.to_nat (raw g), next g);
  rng_integers := integers;
  rng_choice := choice;
  rng_uniform low high g := ((low + (high - low) * unit_interval g)%Q, next g);
  rng_random g := (unit_interval g, next g);
  rng_integers_range := integers_range
|}.

(** The seed that makes the generator play the values [rs]. *)
Definition seed_of (rs : list Z) : Z := foldr (λ r g, r + 100 * g) 0 rs.

End Script.

(** ** Double precision

    Where a statement depends on how an operation on floats is rounded, the
    operation is the exact one followed by [binary64], the rounding of IEEE
    754 to the nearest double, ties to the even significand. *)

Definition pow2 (e : Z) : Q := (2 ^ e)%Q.

(** The integer part of the binary logarithm of a positive rational. *)
Definition ilog2 (q : Q) : Z :=
  let k := Z.log2 (Qnum q) - Z.log2 (Z.pos (Qden q)) in
  if Qle_bool (pow2 k) q then k else k - 1.

(** The nearest integer, the even one of two that are equally near. *)
Definition nearest_even (q : Q) : Z :=
  let f := Qfloor q in
  match (q - inject_Z f ?= 1 # 2)%Q with
  | Lt => f
  | Gt => f + 1
  | Eq => if Z.even f then f else f + 1
  end.

(** The exponent of the unit in the last place: a significand of 53 bits,
    and exponents from that of the smallest subnormal number, [-1074]. *)
Definition ulp_exponent (q : Q) : Z := Z.max (ilog2 q - 52) (-1074).

(** The double nearest to a rational that is not negative.  There is no
    largest double here: where Python's result is [inf], this one is a value
    of at least [2 ^ 1024], above every double as [inf] is. *)
Definition round_magnitude (q : Q) : Q :=
  let e := ulp_exponent q in
  (inject_Z (nearest_even (q / pow2 e)) * pow2 e)%Q.

Definition binary64 (q : Q) : Q :=
  if Qle_bool 0 q then round_magnitude q else (- round_magnitude (- q))%Q.

(** The value is a double, and a finite one. *)
Definition is_float (x : Q) : Prop :=
  (binary64 x == x)%Q ∧ (Qabs x < pow2 1024)%Q.

(** [x - y] on floats. *)
Definition float_sub (x y : Q) : Q := binary64 (x - y).

(** ** The vocabulary of the properties *)

(** A sample within the bounds of [MetricsFeed.sample]. *)
Definition in_bounds (s : MetricSample) : Prop :=
  (1 <= cpu_percent s ∧ cpu_percent s <= 98)%Q ∧
  (5 <= memory_percent s ∧ memory_percent s <= 95)%Q.

(** The place of a status in the lifecycle. *)
Definition rank (s : IncidentStatus) : nat :=
  match s with NEW => 0 | ACKNOWLEDGED => 1 | IN_PROGRESS => 2 | RESOLVED => 3 end.

(** What the comparison of [can_autoresolve] tells of the clock reading [t].
    In the code [total_seconds()] is the quotient rounded to a double and the
    delay is a double, so the comparison succeeds where [deadline_passed]
    does, and also where the quotient is below the delay and rounded up to
    it: by no more than [2 ^ -53] of the delay. *)
Definition deadline_reached (t : Z) (self : Incident) (d : Q) : Prop :=
  (d - Qabs d * (1 # 2 ^ 53) <= total_seconds (t - last_update self))%Q.

(** [b] has the fields of [a] that no method of the feed assigns. *)
Definition same_static (a b : Incident) : Prop :=
  identifier b = identifier a ∧ timestamp b = timestamp a ∧
  category b = category a ∧ severity b = severity a ∧ region b = region a ∧
  description b = description a ∧ autoresolve_after b = autoresolve_after a ∧
  location b = location a.

(** The clock does not run backwards. *)
Definition monotone_clock (now : nat → Z) : Prop :=
  ∀ i j, (i ≤ j)%nat → now i ≤ now j.

(** Well-formed worlds: what every world built by the feed's own methods
    satisfies.  The tracker holds each object once, holds live addresses
    only, and every key was issued by [new_identifier]. *)
Record wf {G} (w : World G) : Prop := mk_wf {
  wf_locs : NoDup (active (tracker (feed w))).*2;
  wf_bound : ∀ key l, (key, l) ∈ active (tracker (feed w)) →
               (l < length (heap w))%nat;
  wf_keys : ∀ key l, (key, l) ∈ active (tracker (feed w)) →
              ∃ n, (n ≤ counter (tracker (feed w)))%nat ∧
                   key = String "A" (format_04d n)
}.

(** A well-formed world whose feed carries a configuration that
    [FeedConfig] and [MapConfig] accept. *)
Definition ready {G} (w : World G) : Prop :=
  wf w ∧ valid_FeedConfig (config (feed w)) ∧
  is_Some (_validate_grid (_grid_width (feed w), _grid_height (feed w))).

(** ** Concrete runs

    The configurations and clocks of the examples.  [cfg_default] and
    [map_default] are the defaults of config.py; [cfg_test] and [map_test]
    are the fixtures of tests/test_feeds.py. *)

Definition cfg_default : FeedConfig := mkFeedConfig 10 6 8 (30, 120).
Definition map_default : MapConfig := mkMapConfig (20, 12) (15 # 100) 40.
Definition cfg_test : FeedConfig := mkFeedConfig 5 5 12 (5, 10).
Definition map_test : MapConfig := mkMapConfig (12, 8) (2 # 10) 30.

(** A clock that stands still, a clock that jumps 200 seconds ahead after
    its fourth reading, and a clock that jumps 11 seconds ahead after its
    second reading. *)
Definition clock_still (i : nat) : Z := 0.
Definition clock_pause (i : nat) : Z := if (i <? 4)%nat then 0 else 200000000.
Definition clock_test (i : nat) : Z := if (i <? 2)%nat then 0 else 11000000.

(** Scripts.  [one_arrival] is a call of [step] that creates one incident
    (severity HIGH, category network, region ap-south, delay 75 s, location
    (5, 7)) and whose roll, 0.90, does not advance it; [quiet] is a call with
    no arrival and the roll 0.90; [one_acknowledged] is [one_arrival] with
    the roll 0.10, which advances the new incident. *)
Definition one_arrival : list Z := [1; 2; 0; 3; 50; 5; 7; 90].
Definition quiet : list Z := [0; 90].
Definition one_acknowledged : list Z := [1; 2; 0; 3; 50; 5; 7; 10].

(** The feed of [test_incident_autoresolve] after its [_make_incident()]
    call, on the generator [Script]. *)
Definition world_test : World Z :=
  match call clock_test CallMake (IncidentsFeed_new 999 cfg_test map_test) with
  | Some (_, w) => w
  | None => IncidentsFeed_new 999 cfg_test map_test
  end.

(** ** The properties as the specification words them *)

(** What [n] calls of [step] emit, reduced to the compared fields. *)
Definition trace {G} `{Generator G} (now : nat → Z) (n : nat) (w : World G)
  : option (list (list (string * IncidentSeverity * string * string
                        * option (Z * Z)))) :=
  (λ r, map (map signature) r.1) <$> run_steps now n w.

(** Determinism as worded: the seed and the configuration alone fix the
    trace. *)
Definition seed_fixes_trace {G} `{Generator G} (s : Z) (cfg : FeedConfig)
    (mc : MapConfig) : Prop :=
  ∀ nowA nowB n,
    trace nowA n (IncidentsFeed_new s cfg mc)
    = trace nowB n (IncidentsFeed_new s cfg mc).

(** Snapshots as worded: in the list a call of [step] returns, the entries
    of the incidents created by the call, which come first, have status
    NEW. *)
Definition creation_entries_new {G} `{Generator G} (now : nat → Z) (w : World G)
  : Prop :=
  ∀ emitted w', step now w = Some (emitted, w') →
    ∀ i l inc, (i < length (heap w') - length (heap w))%nat →
      emitted !! i = Some l → heap w' !! l = Some inc → status inc = NEW.

(** Identifiers as worded: along the calls made on a feed since it was
    built, the [N]-th incident created has number [N]. *)
Definition identifiers_count_creations {G} `{Generator G} (now : nat → Z)
    (cs : list Call) (s : Z) (cfg : FeedConfig) (mc : MapConfig) : Prop :=
  ∀ i w N inc,
    worlds now cs (IncidentsFeed_new s cfg mc) !! i = Some w →
    heap w !! N = Some inc →
    identifier inc = String "A" (format_04d (S N)).

(** * More of the program *)

(** ** models.py: [LogRecord] and [MetricsBuffer] *)

Record LogRecord := mkLogRecord {
  log_timestamp : Q;
  level : string;
  message : string;
  incident_id : option string
}.

(** [MetricsBuffer]; [buffered] is its field [samples]. *)
Record MetricsBuffer := mkMetricsBuffer {
  max_age : Q;
  buffered : list MetricSample
}.

(** The numbers of the buffer are floats. *)
Definition float_buffer (self : MetricsBuffer) : Prop :=
  is_float (max_age self) ∧
  Forall (λ s, is_float (sample_timestamp s)) (buffered self).

(** [MetricsBuffer.add]; the cutoff is a difference of floats. *)
Definition MetricsBuffer_add (smp : MetricSample) (self : MetricsBuffer)
  : MetricsBuffer :=
  let appended := buffered self ++ [smp] in
  let cutoff := float_sub (sample_timestamp smp) (max_age self) in
  mkMetricsBuffer (max_age self)
    (filter (λ s, Qle_bool cutoff (sample_timestamp s) = true) appended).

(** [MetricsBuffer.as_series]. *)
Definition as_series (self : MetricsBuffer) : list Q * list Q * list Q :=
  (sample_timestamp <$> buffered self,
   cpu_percent <$> buffered self,
   memory_percent <$> buffered self).

(** ** panel_metrics.py: [MetricsPanel.update_metrics]

    The panel owns a buffer; the result is the buffer after the call and
    what the call hands to the two curves: the shifted times, each a
    difference of floats, with the cpu series and with the memory series, or
    [None] when it returns before drawing. *)

Definition update_metrics (smp : MetricSample) (buffer : MetricsBuffer)
  : MetricsBuffer * option (list Q * list Q * list Q) :=
  let buffer := MetricsBuffer_add smp buffer in
  let '(times, cpu, mem) := as_series buffer in
  match times with
  | [] => (buffer, None)
  | t0 :: _ => (buffer, Some ((λ t, float_sub t t0) <$> times, cpu, mem))
  end.

(** ** feeds.py: [LogsFeed] *)

Definition _LOG_MESSAGES : list string :=
  ["Scaling up worker pool"; "Replica lag detected"; "Background job completed";
   "Checkpoint successful"; "Connection timeout"; "Retrying failed task";
   "Service dependency degraded"; "Configuration reloaded";
   "Leader election triggered"].

(** [rng.choice(a, p=p)], the one draw of feeds.py that [Generator] does not
    list, with numpy's contract: the result is an entry of [a]. *)
Class WeightedChoice (G : Type) := {
  rng_choice_p : list string → list Q → G → string * G;
  rng_choice_p_elem : ∀ l p g, l ≠ [] → (rng_choice_p l p g).1 ∈ l
}.

(** [LogsFeed._levels]. *)
Definition _levels : list Q := [7 # 10; 2 # 10; 1 # 10].

(** [str(n)] for an integer. *)
Definition str_of_Z (n : Z) : string := NilZero.string_of_int (Z.to_int n).

(** [LogsFeed.sample]: [ts] is the value of [utc_timestamp()].  The roll is
    drawn only for a level other than INFO, and the number only after a roll
    below one half. *)
Definition LogsFeed_sample {G} `{Generator G} `{WeightedChoice G}
    (ts : Q) (st : FeedState G) : LogRecord * FeedState G :=
  let '(level, g) := rng_choice_p ["INFO"; "WARN"; "ERROR"] _levels (rng st) in
  let '(message, g) := rng_choice _LOG_MESSAGES g in
  let '(incident_id, g) :=
    if decide (level ≠ "INFO") then
      let '(roll, g) := rng_random g in
      if Qltb roll (1 # 2) then
        let '(n, g) := rng_integers 100 999 g in
        (Some ("I" +:+ str_of_Z n), g)
      else (None, g)
    else (None, g) in
  (mkLogRecord ts level message incident_id, mkFeedState (seed st) g).

(** ** feeds.py: [FeedsController]

    The three feeds share one [FeedState]; it is the [state] of the world of
    the incidents feed.  A [LogsFeed] has no state of its own. *)

Record FeedsController (G : Type) := mkFeedsController {
  metrics : MetricsFeed;
  incidents : World G
}.
Arguments mkFeedsController {G} _ _.
Arguments metrics {G} _.
Arguments incidents {G} _.

(** [FeedsController(config, buffers, map_config, seed)]. *)
Definition FeedsController_new {G} `{Generator G} (cfg : FeedConfig)
    (map_config : MapConfig) (s : Z) : FeedsController G :=
  mkFeedsController MetricsFeed_new (IncidentsFeed_new s cfg map_config).

(** [FeedsController.reset(seed)], its effect on the state of the feeds:
    [state.reset(seed)], then [reset()] of the metrics feed, of the logs feed
    and of the incidents feed. *)
Definition FeedsController_reset {G} `{Generator G} (seed' : option Z)
    (self : FeedsController G) : FeedsController G :=
  let w := incidents self in
  let w := mkWorld (heap w) (FeedState_reset seed' (state w)) (feed w) (reads w) in
  let metrics := MetricsFeed_new in
  match IncidentsFeed_reset w with
  | Some (_, w) => mkFeedsController metrics w
  | None => mkFeedsController metrics w
  end.

(** ** What numpy promises of the other draws

    [choice] returns an entry of the list it is given, and
    [uniform(low, high)] a value between [low] and [high]. *)

Class GeneratorLaws (G : Type) `{Generator G} : Prop := {
  rng_choice_elem : ∀ l g, l ≠ [] → (rng_choice l g).1 ∈ l;
  rng_uniform_range : ∀ low high g,
    (low <= high)%Q →
    (low <= (rng_uniform low high g).1 ∧ (rng_uniform low high g).1 <= high)%Q
}.

(** The scripted generator keeps these promises, and draws a weighted choice
    as it draws a plain one. *)

Lemma Script_choice_elem (l : list string) (g : Z) :
  l ≠ [] → (Script.choice l g).1 ∈ l.
Proof.
  intros Hl. unfold Script.choice. simpl.
  assert (0 < Z.of_nat (length l)) by (destruct l; [done | simpl; lia]).
  pose proof (Z.mod_pos_bound (Script.raw g) (Z.of_nat (length l))).
  destruct (lookup_lt_is_Some_2 l
              (Z.to_nat (Script.raw g mod Z.of_nat (length l)))) as [x Hx]; [lia|].
  rewrite (nth_lookup_Some _ _ _ _ Hx). by eapply list_elem_of_lookup_2.
Qed.

Lemma Script_uniform_range (low high : Q) (g : Z) :
  (low <= high)%Q →
  (low <= (rng_uniform low high g).1 ∧ (rng_uniform low high g).1 <= high)%Q.
Proof.
  intros Hle. simpl. unfold Script.unit_interval.
  pose proof (Z.mod_pos_bound g 100 ltac:(lia)) as Hraw.
  fold (Script.raw g) in Hraw.
  assert (H0 : (0 <= Script.raw g # 100)%Q) by (unfold Qle; simpl; lia).
  assert (H1 : (Script.raw g # 100 <= 1)%Q) by (unfold Qle; simpl; lia).
  assert (Hd : (0 <= high - low)%Q) by (by apply (Qle_minus_iff low high)).
  split.
  - rewrite <- (Qplus_0_r low) at 1. apply Qplus_le_r.
    by apply Qmult_le_0_compat.
  - eapply Qle_trans.
    + apply Qplus_le_r. rewrite Qmult_comm.
      apply Qmult_le_compat_r; [exact H1 | exact Hd].
    + apply Qle_lteq. right. ring.
Qed.

#[global] Instance Script_weighted : WeightedChoice Z := {|
  rng_choice_p l p := Script.choice l;
  rng_choice_p_elem l p := Script_choice_elem l
|}.

#[global] Instance Script_laws : GeneratorLaws Z := {|
  rng_choice_elem := Script_choice_elem;
  rng_uniform_range := Script_uniform_range
|}.

(** Reading a dictionary: [d.get(key)]. *)
Fixpoint dict_get {V} (key : string) (d : list (string * V)) : option V :=
  match d with
  | [] => None
  | (k, v) :: rest => if decide (k = key) then Some v else dict_get key rest
  end.

(** ** More vocabulary *)

(** The tracker is a dictionary: no key twice. *)
Definition tidy {G} (w : World G) : Prop :=
  ready w ∧ NoDup (active (tracker (feed w))).*1.

(** The entry of the tracker is a resolved incident. *)
Definition is_resolved (hp : list Incident) (e : string * loc) : Prop :=
  ∃ inc, hp !! e.2 = Some inc ∧ status inc = RESOLVED.

#[global] Instance is_resolved_dec hp e : Decision (is_resolved hp e).
Proof.
  unfold is_resolved. destruct (hp !! e.2) as [inc|].
  - destruct (decide (status inc = RESOLVED)) as [Hs|Hs].
    + left. by exists inc.
    + right. intros (? & [= <-] & ?). done.
  - right. by intros (? & ? & ?).
Defined.

(** The entries that [k] calls of [_make_incident] add to the tracker of
    [w]. *)
Definition new_entries {G} (w : World G) (k : nat) : list (string * loc) :=
  (λ i, (String "A" (format_04d (counter (tracker (feed w)) + S i)),
         (length (heap w) + i)%nat)) <$> seq 0 k.

(** ** Text, as the panels handle it

    Python's [str] methods on ASCII text. *)

Definition is_digit (c : ascii) : bool :=
  let n := nat_of_ascii c in ((48 <=? n) && (n <=? 57))%nat.

(** [ch.isalnum()]. *)
Definition isalnum (c : ascii) : bool := is_digit c || is_upper c || is_lower c.

(** [ch.isspace()]: tab, line feed, vertical tab, form feed, carriage
    return, the four separators and the space. *)
Definition isspace (c : ascii) : bool :=
  let n := nat_of_ascii c in
  ((9 <=? n) && (n <=? 13) || (28 <=? n) && (n <=? 32))%nat.

Fixpoint lstrip (s : string) : string :=
  match s with
  | EmptyString => EmptyString
  | String c rest => if isspace c then lstrip rest else s
  end.

Fixpoint rstrip (s : string) : string :=
  match s with
  | EmptyString => EmptyString
  | String c rest =>
      match rstrip rest with
      | EmptyString => if isspace c then EmptyString else String c EmptyString
      | kept => String c kept
      end
  end.

(** [s.strip()]. *)
Definition strip (s : string) : string := rstrip (lstrip s).

(** ["".join(ch for ch in s if p(ch))]. *)
Fixpoint join_if (p : ascii → bool) (s : string) : string :=
  match s with
  | EmptyString => EmptyString
  | String c rest => if p c then String c (join_if p rest) else join_if p rest
  end.

(** [s[:n]]. *)
Fixpoint take_chars (n : nat) (s : string) : string :=
  match n, s with
  | S n, String c rest => String c (take_chars n rest)
  | _, _ => EmptyString
  end.

(** [s.lower()]. *)
Fixpoint lower (s : string) : string :=
  match s with
  | EmptyString => EmptyString
  | String c rest => String (to_lower c) (lower rest)
  end.

(** Text made of ASCII characters only. *)
Fixpoint ascii_text (s : string) : Prop :=
  match s with
  | EmptyString => True
  | String c rest => (nat_of_ascii c < 128)%nat ∧ ascii_text rest
  end.

(** [seq[i:]] with Python's negative and out-of-range bounds. *)
Definition slice_from {A} (i : Z) (l : list A) : list A :=
  if 0 <=? i then drop (Z.to_nat i) l
  else drop (Z.to_nat (Z.of_nat (length l) + i)) l.

(** ** panel_risk.py: [sanitize_region_name] *)

Definition region_char (ch : ascii) : bool :=
  isalnum ch || bool_decide (ch = "-"%char) || bool_decide (ch = "_"%char).

Definition sanitize_region_name (raw_region : option string) : string :=
  match raw_region with
  | None | Some EmptyString => "unknown"
  | Some raw_region =>
      let filtered := join_if region_char (strip raw_region) in
      match filtered with
      | EmptyString => "unknown"
      | _ => lower (take_chars 32 filtered)
      end
  end.

(** ** panel_incidents.py: the table and the operator's actions

    The rows of the table are [IncidentRow] objects, each holding an
    incident object.  What [IncidentTableModel.data] returns is a Python
    value of one of several classes. *)

Record IncidentRow := mkIncidentRow { incident : loc }.

Inductive Value :=
  | PyNone
  | PyStr (s : string)
  | PyIncident (object : loc)
  | PyRow (row : IncidentRow).

(** Reading the attribute [incident] of a value: [None] is the
    [AttributeError] of a value that is not an [IncidentRow] ([Incident] is
    a dataclass with slots and has no such field). *)
Definition attr_incident (v : Value) : option loc :=
  match v with
  | PyRow row => Some (incident row)
  | PyNone | PyStr _ | PyIncident _ => None
  end.

Inductive Role := DisplayRole | UserRole | OtherRole.

(** A [QModelIndex]. *)
Record ModelIndex := mkModelIndex {
  isValid : bool;
  index_row : nat;
  index_column : nat
}.

Definition _COLUMNS : list string :=
  ["ID"; "Timestamp"; "Type"; "Severity"; "Status"; "Region"].

(** The values of the two enumerations of models.py. *)
Definition severity_value (s : IncidentSeverity) : string :=
  match s with
  | LOW => "low" | MEDIUM => "med" | HIGH => "high" | CRITICAL => "critical"
  end.

Definition status_value (s : IncidentStatus) : string :=
  match s with
  | NEW => "new" | ACKNOWLEDGED => "acknowledged"
  | IN_PROGRESS => "in_progress" | RESOLVED => "resolved"
  end.

(** [f"{n:02d}"] and [timestamp.strftime("%H:%M:%S")]. *)
Definition format_02d (n : Z) : string :=
  let digits := NilZero.string_of_uint (Nat.to_uint (Z.to_nat n)) in
  zeros (2 - String.length digits) ++ digits.

Definition strftime_HMS (t : Z) : string :=
  let second_of_day := (t / 1000000) mod 86400 in
  format_02d (second_of_day / 3600) +:+ ":" +:+
  format_02d (second_of_day mod 3600 / 60) +:+ ":" +:+
  format_02d (second_of_day mod 60).

(** [QAbstractTableModel.index(row, column)]: a valid index inside the
    table, an invalid one outside. *)
Definition model_index (_rows : list IncidentRow) (row column : nat) : ModelIndex :=
  if ((row <? length _rows) && (column <? length _COLUMNS))%nat
  then mkModelIndex true row column
  else mkModelIndex false 0 0.

(** [IncidentTableModel.data]; the outer [None] is an exception. *)
Definition data (hp : list Incident) (_rows : list IncidentRow)
    (index : ModelIndex) (role : Role) : option Value :=
  if negb (isValid index) then Some PyNone
  else
    match _rows !! index_row index with
    | None => None
    | Some r =>
        let row := incident r in
        match role with
        | DisplayRole =>
            match hp !! row with
            | None => None
            | Some inc =>
                Some (match index_column index with
                      | 0 => PyStr (identifier inc)
                      | 1 => PyStr (strftime_HMS (timestamp inc))
                      | 2 => PyStr (category inc)
                      | 3 => PyStr (severity_value (severity inc))
                      | 4 => PyStr (status_value (status inc))
                      | 5 => PyStr (region inc)
                      | _ => PyNone
                      end)%nat
            end
        | UserRole => Some (PyIncident row)
        | OtherRole => Some PyNone
        end
    end.

(** The search loop of [IncidentTableModel.upsert]: the rows with the first
    row of that identifier replaced, if there is one. *)
Fixpoint replace_row (hp : list Incident) (key : string) (new : IncidentRow)
    (_rows : list IncidentRow) : option (option (list IncidentRow)) :=
  match _rows with
  | [] => Some None
  | row :: rest =>
      match hp !! incident row with
      | None => None
      | Some inc =>
          if decide (identifier inc = key) then Some (Some (new :: rest))
          else
            match replace_row hp key new rest with
            | None => None
            | Some found => Some ((λ rows, row :: rows) <$> found)
            end
      end
  end.

(** [IncidentTableModel.upsert]. *)
Definition upsert (hp : list Incident) (object : loc) (_rows : list IncidentRow)
  : option (list IncidentRow) :=
  match hp !! object with
  | None => None
  | Some inc =>
      match replace_row hp (identifier inc) (mkIncidentRow object) _rows with
      | None => None
      | Some (Some rows) => Some rows
      | Some None => Some (_rows ++ [mkIncidentRow object])
      end
  end.

(** The incidents panel: the rows of its model, the rows its view hides,
    and the data of the two filter boxes ([None] is the entry All). *)
Record IncidentsPanel := mkIncidentsPanel {
  _rows : list IncidentRow;
  hidden : list nat;
  filter_severity : option IncidentSeverity;
  filter_status : option IncidentStatus
}.

(** [QTableView.setRowHidden(row, hide)]. *)
Definition setRowHidden (row : nat) (hide : bool) (hidden : list nat) : list nat :=
  let others := filter (λ r, r ≠ row) hidden in
  if hide then row :: others else others.

(** The loop of [IncidentsPanel._apply_filters] from the row [row] on, over
    [count] rows.  A filter that is set makes the body read
    [incident_row.incident]. *)
Fixpoint filter_rows (hp : list Incident) (self : IncidentsPanel)
    (row count : nat) (hidden : list nat) : option (list nat) :=
  match count with
  | O => Some hidden
  | S count =>
      let index := model_index (_rows self) row 0 in
      match data hp (_rows self) index UserRole with
      | None => None
      | Some incident_row =>
          let check {A} `{EqDecision A} (chosen : option A) (field : Incident → A)
              (visible : bool) : option bool :=
            match chosen with
            | None => Some visible
            | Some wanted =>
                match attr_incident incident_row with
                | None => None
                | Some object =>
                    match hp !! object with
                    | None => None
                    | Some inc =>
                        Some (if decide (field inc ≠ wanted) then false
                              else visible)
                    end
                end
            end in
          match check (filter_severity self) severity true with
          | None => None
          | Some visible =>
              match check (filter_status self) status visible with
              | None => None
              | Some visible =>
                  filter_rows hp self (S row) count
                    (setRowHidden row (negb visible) hidden)
              end
          end
      end
  end.

(** [IncidentsPanel._apply_filters]. *)
Definition _apply_filters (hp : list Incident) (self : IncidentsPanel)
  : option IncidentsPanel :=
  match filter_rows hp self 0 (length (_rows self)) (hidden self) with
  | None => None
  | Some hidden =>
      Some (mkIncidentsPanel (_rows self) hidden (filter_severity self)
              (filter_status self))
  end.

(** [IncidentsPanel.add_incident]. *)
Definition add_incident (hp : list Incident) (object : loc) (self : IncidentsPanel)
  : option IncidentsPanel :=
  match upsert hp object (_rows self) with
  | None => None
  | Some rows =>
      _apply_filters hp
        (mkIncidentsPanel rows (hidden self) (filter_severity self)
           (filter_status self))
  end.

(** [IncidentsPanel._selected_incident]; [selection] lists the rows that
    [selectedRows()] returns. *)
Definition _selected_incident (hp : list Incident) (self : IncidentsPanel)
    (selection : list nat) : option (option loc) :=
  match selection with
  | [] => Some None
  | row :: _ =>
      let index := model_index (_rows self) row 0 in
      match data hp (_rows self) index UserRole with
      | None => None
      | Some row_data =>
          match attr_incident row_data with
          | None => None
          | Some object => Some (Some object)
          end
      end
  end.

Section Operator.
Context {G : Type}.

#[local] Notation "'let*' x ':=' m 'in' k" := (bind (G:=G) m (λ x, k))
  (at level 10, x name, m at level 100, k at level 200).
#[local] Notation "'do' m 'in' k" := (bind (G:=G) m (λ _, k))
  (at level 10, m at level 100, k at level 200).

(** A method of the panel: from the world and the panel to a result, the
    world and the panel, or an exception. *)
Definition lift {A} (f : list Incident → option A) : @M G A :=
  λ w, match f (heap w) with Some a => Some (a, w) | None => None end.

(** [IncidentsPanel.acknowledge_selected]. *)
Definition acknowledge_selected (selection : list nat) (self : IncidentsPanel)
  : @M G IncidentsPanel :=
  let* selected := lift (λ hp, _selected_incident hp self selection) in
  match selected with
  | None => ret self
  | Some object =>
      let* inc := load object in
      do store object (set_acknowledged true inc) in
      let* inc := load object in
      do (if decide (status inc = NEW)
          then store object (set_status ACKNOWLEDGED inc) else ret tt) in
      let* rows := lift (λ hp, upsert hp object (_rows self)) in
      ret (mkIncidentsPanel rows (hidden self) (filter_severity self)
             (filter_status self))
  end.

(** [IncidentsPanel.resolve_selected]. *)
Definition resolve_selected (selection : list nat) (self : IncidentsPanel)
  : @M G IncidentsPanel :=
  let* selected := lift (λ hp, _selected_incident hp self selection) in
  match selected with
  | None => ret self
  | Some object =>
      let* inc := load object in
      do store object (set_status RESOLVED inc) in
      let* rows := lift (λ hp, upsert hp object (_rows self)) in
      ret (mkIncidentsPanel rows (hidden self) (filter_severity self)
             (filter_status self))
  end.

End Operator.

(** Every character of [s] passes [p]. *)
Fixpoint all_chars (p : ascii → bool) (s : string) : bool :=
  match s with
  | EmptyString => true
  | String c rest => p c && all_chars p rest
  end.

(** The characters of a region label: lower-case letters, digits, the
    hyphen and the underscore. *)
Definition label_char (c : ascii) : bool :=
  is_lower c || is_digit c || bool_decide (c = "-"%char)
  || bool_decide (c = "_"%char).

(** ** Dictionaries and counters of the panels *)

(** [d[key] = value] and [d.pop(key, None)] on a dictionary with values of
    any type. *)
Fixpoint dict_setitem {V} (key : string) (value : V) (d : list (string * V))
  : list (string * V) :=
  match d with
  | [] => [(key, value)]
  | (k, v) :: rest =>
      if decide (k = key) then (k, value) :: rest
      else (k, v) :: dict_setitem key value rest
  end.

Definition dict_discard {V} (key : string) (d : list (string * V))
  : list (string * V) :=
  filter (λ e, e.1 ≠ key) d.

(** A [collections.Counter]: a key that was never counted reads as zero.
    [count_add k n c] is [c[k] += n]. *)
Definition count_add {K} `{EqDecision K} (k : K) (n : Z) (c : K → Z) : K → Z :=
  λ k', if decide (k' = k) then c k' + n else c k'.

Definition count_set {K} `{EqDecision K} (k : K) (n : Z) (c : K → Z) : K → Z :=
  λ k', if decide (k' = k) then n else c k'.

(** ** panel_overview.py: [OverviewPanel] *)

Record OverviewPanel := mkOverviewPanel {
  _incidents : list (string * loc);
  _severity_counts : IncidentSeverity → Z;
  _status_counts : IncidentStatus → Z;
  _resolution_times : list Q;
  _start_time : option Z
}.

(** [OverviewPanel.__init__] and [OverviewPanel.clear]. *)
Definition OverviewPanel_new : OverviewPanel :=
  mkOverviewPanel [] (λ _, 0) (λ _, 0) [] None.

(** [OverviewPanel._record_resolution_time]; a [datetime] is never false, so
    [incident.last_update or incident.timestamp] is [last_update]. *)
Definition _record_resolution_time (inc : Incident) (self : OverviewPanel)
  : OverviewPanel :=
  let timestamp := last_update inc in
  let start := match _start_time self with None => timestamp | Some t => t end in
  let delta := total_seconds (timestamp - start) in
  let delta := if Qltb delta 0 then 0%Q else delta in
  mkOverviewPanel (_incidents self) (_severity_counts self) (_status_counts self)
    (_resolution_times self ++ [delta]) (Some start).

(** [OverviewPanel.update_incident]; [previous] is an object of the heap, and
    its fields are read when they are compared. *)
Definition Overview_update_incident (hp : list Incident) (object : loc)
    (self : OverviewPanel) : option OverviewPanel :=
  match hp !! object with
  | None => None
  | Some inc =>
      let previous := dict_get (identifier inc) (_incidents self) in
      match match previous with
            | None => Some None
            | Some p => match hp !! p with
                        | Some prev => Some (Some prev)
                        | None => None
                        end
            end with
      | None => None
      | Some previous =>
          let severity_counts :=
            match previous with
            | None => count_add (severity inc) 1 (_severity_counts self)
            | Some prev =>
                if decide (severity prev ≠ severity inc)
                then count_add (severity inc) 1
                       (count_add (severity prev) (-1) (_severity_counts self))
                else _severity_counts self
            end in
          let self :=
            mkOverviewPanel (_incidents self) severity_counts (_status_counts self)
              (_resolution_times self) (_start_time self) in
          let self :=
            match previous with
            | None =>
                mkOverviewPanel (_incidents self) (_severity_counts self)
                  (count_add (status inc) 1 (_status_counts self))
                  (_resolution_times self) (_start_time self)
            | Some prev =>
                if decide (status prev ≠ status inc) then
                  let counts := count_add (status prev) (-1) (_status_counts self) in
                  let counts :=
                    if counts (status prev) <? 0
                    then count_set (status prev) 0 counts else counts in
                  let counts := count_add (status inc) 1 counts in
                  let self :=
                    mkOverviewPanel (_incidents self) (_severity_counts self)
                      counts (_resolution_times self) (_start_time self) in
                  if decide (status inc = RESOLVED)
                  then _record_resolution_time inc self else self
                else self
            end in
          let self :=
            match previous with
            | None =>
                if decide (status inc = RESOLVED)
                then _record_resolution_time inc self else self
            | Some _ => self
            end in
          Some (mkOverviewPanel
                  (dict_set (identifier inc) object (_incidents self))
                  (_severity_counts self) (_status_counts self)
                  (_resolution_times self) (_start_time self))
      end
  end.

(** ** panel_timeline.py: [TimelinePanel] *)

Record TimelineEvent := mkTimelineEvent {
  event_identifier : string;
  event_timestamp : Z;
  event_severity : IncidentSeverity;
  event_status : IncidentStatus;
  event_description : string
}.

Record TimelinePanel := mkTimelinePanel {
  _events : list TimelineEvent;
  _last_status : list (string * IncidentStatus);
  _max_events : Z
}.

(** [TimelinePanel.__init__] and [TimelinePanel.clear]. *)
Definition TimelinePanel_new : TimelinePanel := mkTimelinePanel [] [] 480.

(** [TimelinePanel.update_incident].  The datetimes of the feed carry a
    time zone, and [ensure_timestamp] returns them as they are. *)
Definition Timeline_update_incident (hp : list Incident) (object : loc)
    (self : TimelinePanel) : option TimelinePanel :=
  match hp !! object with
  | None => None
  | Some inc =>
      let latest_status := status inc in
      let previous_status := dict_get (identifier inc) (_last_status self) in
      if decide (previous_status = Some latest_status) then Some self
      else
        let timestamp := last_update inc in
        let description :=
          match description inc with
          | None | Some EmptyString => EmptyString
          | Some text => strip text
          end in
        let safe_description := take_chars 160 description in
        let event := mkTimelineEvent (identifier inc) timestamp (severity inc)
                       latest_status safe_description in
        let events := _events self ++ [event] in
        let events :=
          if _max_events self <? Z.of_nat (length events)
          then slice_from (- _max_events self) events else events in
        let last_status :=
          dict_setitem (identifier inc) latest_status (_last_status self) in
        let last_status :=
          if decide (latest_status = RESOLVED)
          then dict_discard (identifier inc) last_status else last_status in
        Some (mkTimelinePanel events last_status (_max_events self))
  end.

(** ** panel_logs.py: [LogsPanel]

    [view] lists the records handed to [_append_to_widget] since the widget
    was last cleared: each one is a line of the widget. *)

Record LogsPanel := mkLogsPanel {
  max_logs : Z;
  _records : list LogRecord;
  view : list LogRecord
}.

(** [LogsPanel.append_log]. *)
Definition append_log (record : LogRecord) (self : LogsPanel) : LogsPanel :=
  let records := _records self ++ [record] in
  if max_logs self <? Z.of_nat (length records) then
    let records := slice_from (- max_logs self) records in
    mkLogsPanel (max_logs self) records records
  else
    mkLogsPanel (max_logs self) records (view self ++ [record]).

(** ** bus.py: [EventBus]

    A subscriber is a callable, found in a list by comparison; it is
    named here by a number.  [_subscribers] is a [defaultdict(list)]. *)

Record EventBus := mkEventBus {
  _subscribers : list (string * list nat)
}.

(** [self._subscribers.get(topic, [])]. *)
Definition subscribers (topic : string) (self : EventBus) : list nat :=
  default [] (dict_get topic (_subscribers self)).

(** [EventBus.subscribe]. *)
Definition subscribe (topic : string) (callback : nat) (self : EventBus) : EventBus :=
  mkEventBus
    (dict_setitem topic (subscribers topic self ++ [callback]) (_subscribers self)).

(** [list.remove(x)], which is called on a list that holds [x]: the first
    entry equal to [x] goes. *)
Fixpoint list_remove_first (x : nat) (l : list nat) : list nat :=
  match l with
  | [] => []
  | y :: rest => if decide (y = x) then rest else y :: list_remove_first x rest
  end.

(** [EventBus.unsubscribe]. *)
Definition unsubscribe (topic : string) (callback : nat) (self : EventBus)
  : EventBus :=
  match dict_get topic (_subscribers self) with
  | None | Some [] => self
  | Some callbacks =>
      if decide (callback ∈ callbacks)
      then mkEventBus
             (dict_setitem topic (list_remove_first callback callbacks)
                (_subscribers self))
      else self
  end.

(** [EventBus.publish], with what a callback does given by [call]: it may
    change the bus and whatever else [S] stands for, and it may raise.  A
    result that is a coroutine is scheduled, not run. *)
Fixpoint deliver {S P} (call : nat → P → EventBus * S → option (EventBus * S))
    (callbacks : list nat) (payload : P) (σ : EventBus * S)
  : option (EventBus * S) :=
  match callbacks with
  | [] => Some σ
  | callback :: rest =>
      match call callback payload σ with
      | None => None
      | Some σ => deliver call rest payload σ
      end
  end.

Definition publish {S P} (call : nat → P → EventBus * S → option (EventBus * S))
    (topic : string) (payload : P) (σ : EventBus * S) : option (EventBus * S) :=
  deliver call (subscribers topic σ.1) payload σ.

(** ** panel_map.py: where a marker goes *)

Record _Bounds := mk_Bounds {
  south : Q;
  west : Q;
  north : Q;
  east : Q
}.

Definition _MOSCOW_CENTER : Q * Q := (55751244 # 1000000, 37618423 # 1000000).

Definition _MOSCOW_BOUNDS : _Bounds :=
  mk_Bounds (5555 # 100) (3735 # 100) (5595 # 100) (3785 # 100).

(** [MapPanel._validated_grid_size]; [None] is the [ValueError]. *)
Definition _validated_grid_size (grid_size : Z * Z) : option (Z * Z) :=
  let '(width, height) := grid_size in
  if (width <=? 0) || (height <=? 0) then None else Some (width, height).

(** [MapPanel._location_to_latlon], for a panel with that [grid_size]: the
    latitude and the longitude. *)
Definition _location_to_latlon (grid_size : Z * Z) (location : option (Z * Z))
  : Q * Q :=
  match location with
  | None => _MOSCOW_CENTER
  | Some (x, y) =>
      let '(width, height) := grid_size in
      let x := Z.max 0 (Z.min (width - 1) x) in
      let y := Z.max 0 (Z.min (height - 1) y) in
      let lon_span := (east _MOSCOW_BOUNDS - west _MOSCOW_BOUNDS)%Q in
      let lat_span := (north _MOSCOW_BOUNDS - south _MOSCOW_BOUNDS)%Q in
      let lon := (west _MOSCOW_BOUNDS
                  + (inject_Z x / inject_Z (Z.max 1 (width - 1))) * lon_span)%Q in
      let lat := (north _MOSCOW_BOUNDS
                  - (inject_Z y / inject_Z (Z.max 1 (height - 1))) * lat_span)%Q in
      (lat, lon)
  end.

(** ** Vocabulary of the panels *)

(** The last [n] entries of a list. *)
Definition keep_last {A} (n : nat) (l : list A) : list A := drop (length l - n) l.

(** Numbers that do not decrease along a list. *)
Definition nondecreasing (l : list Q) : Prop :=
  ∀ i j x y, (i ≤ j)%nat → l !! i = Some x → l !! j = Some y → (x <= y)%Q.

(** The event [TimelinePanel.update_incident] records for an incident. *)
Definition timeline_event (inc : Incident) : TimelineEvent :=
  mkTimelineEvent (identifier inc) (last_update inc) (severity inc) (status inc)
    (take_chars 160
       (match description inc with
        | None | Some EmptyString => EmptyString
        | Some text => strip text
        end)).

(** A timeline as [update_incident] leaves it: at most [_max_events] events,
    and no identifier remembered with the status RESOLVED. *)
Definition well_kept (p : TimelinePanel) : Prop :=
  0 < _max_events p ∧ Z.of_nat (length (_events p)) ≤ _max_events p ∧
  ∀ key, dict_get key (_last_status p) ≠ Some RESOLVED.

(** A callback of the bus that notes what it was called with and then
    subscribes or unsubscribes as [reaction] says. *)
Definition noting {P} (reaction : nat → EventBus → EventBus)
    (callback : nat) (payload : P) (σ : EventBus * list (nat * P))
  : option (EventBus * list (nat * P)) :=
  Some (reaction callback σ.1, σ.2 ++ [(callback, payload)]).

(** The identifier a row of the incidents table shows. *)
Definition row_identifier (hp : list Incident) (row : IncidentRow) : option string :=
  identifier <$> hp !! incident row.

(** ** More concrete runs *)

(** The feed of [world_test] as the sweep of [step] leaves it to [purge]: its
    incident, whose delay has passed on [clock_test], is resolved and still
    tracked. *)
Definition world_swept : World Z :=
  match sweep clock_test 11000000 [0%nat] world_test with
  | Some (_, w) => w
  | None => world_test
  end.

(** A bus with the callback 7 registered for the topic incident, then 8,
    then 7 again. *)
Definition bus_test : EventBus :=
  subscribe "incident" 7 (subscribe "incident" 8
    (subscribe "incident" 7 (mkEventBus []))).

(** A controller that has run: its incidents feed has made one call of
    [step], which created A0001, and its metrics feed has drifted. *)
Definition controller_test : FeedsController Z :=
  mkFeedsController (mkMetricsFeed 60 50)
    (match step clock_still
             (IncidentsFeed_new (Script.seed_of one_arrival) cfg_default
                map_default) with
     | Some (_, w) => w
     | None => IncidentsFeed_new (Script.seed_of one_arrival) cfg_default map_default
     end).

(** The doubles of the decimal literals of a run of the metrics panel with
    a window of 0.7 seconds. *)
Definition buffer_test : MetricsBuffer :=
  mkMetricsBuffer (binary64 (7 # 10))
    [mkMetricSample (binary64 (176199999905 # 100)) 55 48;
     mkMetricSample (binary64 (176199999955 # 100)) 61 48].

Definition sample_test : MetricSample :=
  mkMetricSample (binary64 (176200000025 # 100)) 58 49.

(** * Verification *)

(** ** Numbers and clipping *)

Lemma Qltb_false x y : Qltb x y = false → (y <= x)%Q.
Proof.
  unfold Qltb. intros Hb. apply negb_false_iff in Hb. by apply Qle_bool_iff.
Qed.

Lemma Qltb_true x y : Qltb x y = true → (x < y)%Q.
Proof.
  unfold Qltb. intros Hb. apply negb_true_iff in Hb.
  apply Qnot_le_lt. intros Hle. apply Qle_bool_iff in Hle. congruence.
Qed.

Lemma clip_bounds x lo hi : (lo <= hi)%Q → (lo <= clip x lo hi ∧ clip x lo hi <= hi)%Q.
Proof.
  intros Hlh. unfold clip.
  destruct (Qltb x lo) eqn:Hx.
  - destruct (Qltb hi lo) eqn:Hh.
    + apply Qltb_true in Hh. exfalso. by apply (Qlt_not_le _ _ Hh).
    + split; [apply Qle_refl | done].
  - apply Qltb_false in Hx.
    destruct (Qltb hi x) eqn:Hh.
    + split; [done | apply Qle_refl].
    + apply Qltb_false in Hh. done.
Qed.

(** ** Double precision *)

Lemma pow2_pos e : (0 < pow2 e)%Q.
Proof. by apply Qpower_0_lt. Qed.

Lemma pow2_plus a b : (pow2 (a + b) == pow2 a * pow2 b)%Q.
Proof. by apply Qpower_plus. Qed.

Lemma pow2_le a b : a ≤ b → (pow2 a <= pow2 b)%Q.
Proof. intros Hab. by apply Qpower_le_compat_l. Qed.

Lemma pow2_inject e : 0 ≤ e → (pow2 e == inject_Z (2 ^ e))%Q.
Proof. intros He. unfold pow2. by rewrite Zpower_Qpower. Qed.

Lemma Qfloor_spec q :
  (inject_Z (Qfloor q) <= q)%Q ∧ (q < inject_Z (Qfloor q + 1))%Q.
Proof. split; [apply Qfloor_le | apply Qlt_floor]. Qed.

Lemma nearest_even_floor q :
  Qfloor q ≤ nearest_even q ≤ Qfloor q + 1.
Proof.
  unfold nearest_even. cbv zeta.
  destruct (q - inject_Z (Qfloor q) ?= 1 # 2)%Q; [|lia..].
  destruct (Z.even (Qfloor q)); lia.
Qed.

Lemma nearest_even_mono x y : (x <= y)%Q → nearest_even x ≤ nearest_even y.
Proof.
  intros Hxy. pose proof (Qfloor_resp_le _ _ Hxy) as Hfl.
  pose proof (nearest_even_floor x) as Hx. pose proof (nearest_even_floor y) as Hy.
  destruct (decide (Qfloor x = Qfloor y)) as [Heq|Hne]; [|lia].
  unfold nearest_even in *. cbv zeta in *. rewrite <- Heq in *.
  assert (Hfrac : (x - inject_Z (Qfloor x) <= y - inject_Z (Qfloor x))%Q).
  { unfold Qminus. by apply Qplus_le_l. }
  destruct (Qcompare_spec (x - inject_Z (Qfloor x)) (1 # 2)) as [Hcx|Hcx|Hcx];
    destruct (Qcompare_spec (y - inject_Z (Qfloor x)) (1 # 2)) as [Hcy|Hcy|Hcy];
    try (destruct (Z.even (Qfloor x)); lia); try lia; exfalso.
  - rewrite Hcx in Hfrac. by apply (Qlt_not_le _ _ Hcy).
  - rewrite Hcy in Hfrac. by apply (Qlt_not_le _ _ Hcx).
  - apply (Qlt_not_le _ _ Hcx). eapply Qle_trans; [exact Hfrac|].
    by apply Qlt_le_weak.
Qed.

Lemma nearest_even_inject n : nearest_even (inject_Z n) = n.
Proof.
  unfold nearest_even. cbv zeta. rewrite Qfloor_Z.
  assert (Heq : (inject_Z n - inject_Z n == 0)%Q) by ring.
  destruct (Qcompare_spec (inject_Z n - inject_Z n) (1 # 2)) as [Hc|Hc|Hc];
    [|done|]; rewrite Heq in Hc; done.
Qed.

Lemma nearest_even_ge n q : (inject_Z n <= q)%Q → n ≤ nearest_even q.
Proof.
  intros Hle. rewrite <- (nearest_even_inject n). by apply nearest_even_mono.
Qed.

Lemma nearest_even_le n q : (q <= inject_Z n)%Q → nearest_even q ≤ n.
Proof.
  intros Hle. rewrite <- (nearest_even_inject n). by apply nearest_even_mono.
Qed.

Lemma ilog2_spec q :
  (0 < q)%Q → (pow2 (ilog2 q) <= q)%Q ∧ (q < pow2 (ilog2 q + 1))%Q.
Proof.
  intros Hq. destruct q as [n d]. assert (Hn : 0 < n).
  { unfold Qlt in Hq. simpl in Hq. lia. }
  unfold ilog2. cbv zeta. simpl Qnum. simpl Qden.
  set (a := Z.log2 n). set (b := Z.log2 (Z.pos d)).
  assert (Ha : 0 ≤ a) by apply Z.log2_nonneg.
  assert (Hb : 0 ≤ b) by apply Z.log2_nonneg.
  destruct (Z.log2_spec n Hn) as [Hn1 Hn2]. fold a in Hn1, Hn2.
  destruct (Z.log2_spec (Z.pos d) ltac:(lia)) as [Hd1 Hd2]. fold b in Hd1, Hd2.
  assert (Hquot : ∀ x y, 0 ≤ x → 0 ≤ y →
            (pow2 (x - y) == inject_Z (2 ^ x) / inject_Z (2 ^ y))%Q).
  { intros x y Hx Hy. unfold pow2. rewrite Qpower_minus by done.
    by rewrite !Zpower_Qpower. }
  assert (Hpa : 0 < 2 ^ a) by (apply Z.pow_pos_nonneg; lia).
  assert (Hpb : 0 < 2 ^ b) by (apply Z.pow_pos_nonneg; lia).
  assert (Hlow : (pow2 (a - b - 1) <= n # d)%Q).
  { replace (a - b - 1) with (a - (b + 1)) by lia. rewrite Hquot by lia.
    apply Qle_shift_div_r; [rewrite <- (Zlt_Qlt 0); lia|].
    unfold Qle. simpl. nia. }
  assert (Hhigh : (n # d < pow2 (a - b + 1))%Q).
  { replace (a - b + 1) with (a + 1 - b) by lia. rewrite Hquot by lia.
    apply Qlt_shift_div_l; [rewrite <- (Zlt_Qlt 0); lia|].
    unfold Qlt. simpl. nia. }
  destruct (Qle_bool (pow2 (a - b)) (n # d)) eqn:Hcmp.
  - apply Qle_bool_iff in Hcmp. done.
  - split; [done|]. replace (a - b - 1 + 1) with (a - b) by lia.
    apply Qnot_le_lt. intros Hle. apply Qle_bool_iff in Hle. congruence.
Qed.

Lemma pow2_lt_inv a b : (pow2 a < pow2 b)%Q → a < b.
Proof. intros Hlt. by apply (Qpower_lt_compat_l_inv 2). Qed.

Lemma ilog2_mono x y : (0 < x)%Q → (x <= y)%Q → ilog2 x ≤ ilog2 y.
Proof.
  intros Hx Hxy.
  destruct (ilog2_spec x Hx) as [Hx1 _].
  destruct (ilog2_spec y) as [_ Hy2]; [by eapply Qlt_le_trans|].
  assert (Hlt : (pow2 (ilog2 x) < pow2 (ilog2 y + 1))%Q).
  { eapply Qle_lt_trans; [exact Hx1|]. by eapply Qle_lt_trans. }
  apply pow2_lt_inv in Hlt. lia.
Qed.

Lemma Qdiv_le_compat x y p : (0 < p)%Q → (x <= y)%Q → (x / p <= y / p)%Q.
Proof.
  intros Hp Hxy. unfold Qdiv. apply Qmult_le_compat_r; [done|].
  apply Qlt_le_weak. by apply Qinv_lt_0_compat.
Qed.

Lemma round_magnitude_nonneg q : (0 <= q)%Q → (0 <= round_magnitude q)%Q.
Proof.
  intros Hq. unfold round_magnitude. cbv zeta.
  apply Qmult_le_0_compat; [|apply Qlt_le_weak, pow2_pos].
  rewrite <- (Zle_Qle 0). apply nearest_even_ge.
  apply Qle_shift_div_l; [apply pow2_pos|]. by rewrite Qmult_0_l.
Qed.

Lemma round_magnitude_zero q : (q == 0)%Q → (round_magnitude q == 0)%Q.
Proof.
  intros Hq. unfold round_magnitude. cbv zeta.
  assert (Hz : nearest_even (q / pow2 (ulp_exponent q)) = 0).
  { apply Z.le_antisymm.
    - apply nearest_even_le. apply Qle_shift_div_r; [apply pow2_pos|].
      rewrite Qmult_0_l. by apply Qle_lteq; right.
    - apply nearest_even_ge. apply Qle_shift_div_l; [apply pow2_pos|].
      rewrite Qmult_0_l. by apply Qle_lteq; right. }
  rewrite Hz. apply Qmult_0_l.
Qed.

(** A positive rational is rounded to a value between the powers of two
    around it. *)
Lemma round_magnitude_upper q :
  (0 < q)%Q → (round_magnitude q <= pow2 (ulp_exponent q + 53))%Q.
Proof.
  intros Hq. unfold round_magnitude. cbv zeta. set (e := ulp_exponent q).
  rewrite Z.add_comm, pow2_plus. apply Qmult_le_compat_r;
    [|apply Qlt_le_weak, pow2_pos].
  rewrite (pow2_inject 53) by lia. rewrite <- Zle_Qle. apply nearest_even_le.
  rewrite <- (pow2_inject 53) by lia.
  apply Qle_shift_div_r; [apply pow2_pos|]. rewrite <- pow2_plus.
  destruct (ilog2_spec q Hq) as [_ Hhigh]. apply Qlt_le_weak.
  eapply Qlt_le_trans; [exact Hhigh|]. apply pow2_le. unfold e, ulp_exponent. lia.
Qed.

Lemma round_magnitude_lower q :
  (0 < q)%Q → -1074 < ulp_exponent q →
  (pow2 (ulp_exponent q + 52) <= round_magnitude q)%Q.
Proof.
  intros Hq Hnormal. unfold round_magnitude. cbv zeta. set (e := ulp_exponent q).
  rewrite Z.add_comm, pow2_plus. apply Qmult_le_compat_r;
    [|apply Qlt_le_weak, pow2_pos].
  rewrite (pow2_inject 52) by lia. rewrite <- Zle_Qle. apply nearest_even_ge.
  rewrite <- (pow2_inject 52) by lia.
  apply Qle_shift_div_l; [apply pow2_pos|]. rewrite <- pow2_plus.
  destruct (ilog2_spec q Hq) as [Hlow _].
  eapply Qle_trans; [|exact Hlow]. apply pow2_le.
  unfold e, ulp_exponent in *. lia.
Qed.

Lemma round_magnitude_mono x y :
  (0 <= x)%Q → (x <= y)%Q → (round_magnitude x <= round_magnitude y)%Q.
Proof.
  intros Hx Hxy.
  destruct (Qle_lt_or_eq _ _ Hx) as [Hpos|Hzero].
  - assert (Hy : (0 < y)%Q) by by eapply Qlt_le_trans.
    pose proof (ilog2_mono x y Hpos Hxy) as Hlog.
    destruct (decide (ulp_exponent x = ulp_exponent y)) as [Heq|Hne].
    + unfold round_magnitude. cbv zeta. rewrite Heq.
      apply Qmult_le_compat_r; [|apply Qlt_le_weak, pow2_pos].
      rewrite <- Zle_Qle. apply nearest_even_mono.
      by apply Qdiv_le_compat; [apply pow2_pos|].
    + assert (Hlt : ulp_exponent x < ulp_exponent y)
        by (unfold ulp_exponent in *; lia).
      eapply Qle_trans; [by apply round_magnitude_upper|].
      eapply Qle_trans; [|apply round_magnitude_lower; [done|]].
      * apply pow2_le. lia.
      * unfold ulp_exponent in *. lia.
  - rewrite round_magnitude_zero by by symmetry.
    apply round_magnitude_nonneg. by eapply Qle_trans.
Qed.

(** Rounding keeps the order. *)
Lemma binary64_mono x y : (x <= y)%Q → (binary64 x <= binary64 y)%Q.
Proof.
  intros Hxy. unfold binary64.
  destruct (Qle_bool 0 x) eqn:Hx; destruct (Qle_bool 0 y) eqn:Hy.
  - apply Qle_bool_iff in Hx. by apply round_magnitude_mono.
  - apply Qle_bool_iff in Hx. exfalso.
    assert (Qle_bool 0 y = true); [|congruence].
    apply Qle_bool_iff. by eapply Qle_trans.
  - apply Qle_bool_iff in Hy.
    assert (Hnx : (0 <= - x)%Q).
    { apply Qlt_le_weak, Qnot_le_lt. intros Hle.
      assert (Qle_bool 0 x = true); [|congruence].
      apply Qle_bool_iff. apply Qopp_le_compat in Hle.
      by rewrite Qopp_involutive in Hle. }
    eapply Qle_trans; [|by apply round_magnitude_nonneg].
    pose proof (round_magnitude_nonneg (- x) Hnx) as Hr.
    apply Qopp_le_compat in Hr. exact Hr.
  - apply Qopp_le_compat. apply round_magnitude_mono.
    + apply Qlt_le_weak, Qnot_le_lt. intros Hle.
      assert (Qle_bool 0 y = true); [|congruence].
      apply Qle_bool_iff. apply Qopp_le_compat in Hle.
      by rewrite Qopp_involutive in Hle.
    + by apply Qopp_le_compat.
Qed.

Lemma binary64_proper x y : (x == y)%Q → (binary64 x == binary64 y)%Q.
Proof.
  intros Hxy. apply Qle_antisym; apply binary64_mono; rewrite Hxy; apply Qle_refl.
Qed.

Lemma binary64_zero : (binary64 0 == 0)%Q.
Proof. vm_compute. reflexivity. Qed.

(** The doubles CPython has for the literals 0.1, 0.7 and -1761999999.55
    ([float.as_integer_ratio]); two ties, which go to the even significand;
    and the subnormal numbers next to zero. *)
Lemma binary64_examples :
  (binary64 (1 # 10) == 3602879701896397 # 36028797018963968)%Q ∧
  (binary64 (7 # 10) == 3152519739159347 # 4503599627370496)%Q ∧
  (binary64 (-176199999955 # 100) == -7390363646112563 # 4194304)%Q ∧
  (binary64 (inject_Z (2 ^ 53 + 1)) == inject_Z (2 ^ 53))%Q ∧
  (binary64 (inject_Z (2 ^ 53 + 3)) == inject_Z (2 ^ 53 + 4))%Q ∧
  (binary64 (1 # 2 ^ 1074) == 1 # 2 ^ 1074)%Q ∧
  (binary64 (1 # 2 ^ 1075) == 0)%Q ∧
  (binary64 (3 # 2 ^ 1075) == 1 # 2 ^ 1073)%Q.
Proof. repeat split; by vm_compute. Qed.

Lemma nearest_even_error q : (inject_Z (nearest_even q) - q <= 1 # 2)%Q.
Proof.
  unfold nearest_even. cbv zeta.
  pose proof (Qfloor_le q) as Hfl.
  assert (Hup : ∀ f, (1 # 2 <= q - inject_Z f)%Q →
            (inject_Z (f + 1) - q <= 1 # 2)%Q).
  { intros f Hf. rewrite inject_Z_plus. apply Qle_minus_iff.
    apply Qle_minus_iff in Hf.
    assert (Heq : ((1 # 2) + - (inject_Z f + inject_Z 1 - q)
                   == q - inject_Z f + - (1 # 2))%Q) by ring.
    by rewrite Heq. }
  assert (Hdown : (inject_Z (Qfloor q) - q <= 1 # 2)%Q).
  { apply Qle_trans with 0%Q; [|done]. apply Qle_minus_iff.
    apply Qle_minus_iff in Hfl.
    assert (Heq : (0 + - (inject_Z (Qfloor q) - q)
                   == q + - inject_Z (Qfloor q))%Q) by ring.
    by rewrite Heq. }
  destruct (Qcompare_spec (q - inject_Z (Qfloor q)) (1 # 2)) as [Hc|Hc|Hc].
  - destruct (Z.even (Qfloor q)); [done|]. apply Hup. by apply Qle_lteq; right.
  - done.
  - apply Hup. by apply Qlt_le_weak.
Qed.

Lemma round_magnitude_error q :
  (round_magnitude q - q <= pow2 (ulp_exponent q) * (1 # 2))%Q.
Proof.
  unfold round_magnitude. cbv zeta. set (p := pow2 (ulp_exponent q)).
  assert (Hp : (0 < p)%Q) by apply pow2_pos.
  assert (Heq : (inject_Z (nearest_even (q / p)) * p - q
                 == (inject_Z (nearest_even (q / p)) - q / p) * p)%Q).
  { field. intros Hz. rewrite Hz in Hp. by apply Qlt_irrefl in Hp. }
  rewrite Heq, (Qmult_comm p). apply Qmult_le_compat_r; [|by apply Qlt_le_weak].
  apply nearest_even_error.
Qed.

(** The comparison of a double [d] with a rounded quotient holds only where
    the quotient is not below [d] by more than [2 ^ -53] of it. *)
Lemma binary64_reaches d x :
  is_float d → (pow2 (-1022) <= d)%Q → (d <= binary64 x)%Q →
  (d - Qabs d * (1 # 2 ^ 53) <= x)%Q.
Proof.
  intros Hfloat Hnormal Hcmp.
  assert (Hd : (0 < d)%Q) by (eapply Qlt_le_trans; [apply pow2_pos | exact Hnormal]).
  rewrite Qabs_pos by by apply Qlt_le_weak.
  destruct (Qlt_le_dec x d) as [Hlt|Hge].
  2:{ eapply Qle_trans; [|exact Hge]. apply Qle_minus_iff.
      assert (Heq : (d + - (d - d * (1 # 2 ^ 53)) == d * (1 # 2 ^ 53))%Q) by ring.
      rewrite Heq. apply Qmult_le_0_compat; [by apply Qlt_le_weak | done]. }
  assert (Hround : (binary64 x == d)%Q).
  { apply Qle_antisym; [|done]. destruct Hfloat as [Hfloat _].
    eapply Qle_trans; [|apply Qle_lteq; right; exact Hfloat].
    apply binary64_mono. by apply Qlt_le_weak. }
  assert (Hx : (0 < x)%Q).
  { apply Qnot_le_lt. intros Hneg. apply binary64_mono in Hneg.
    rewrite binary64_zero, Hround in Hneg. by apply (Qlt_not_le _ _ Hd). }
  unfold binary64 in Hround.
  assert (Hpos : Qle_bool 0 x = true) by by apply Qle_bool_iff, Qlt_le_weak.
  rewrite Hpos in Hround.
  pose proof (round_magnitude_error x) as Herr. rewrite Hround in Herr.
  assert (Hulp : (pow2 (ulp_exponent x + 52) <= d)%Q).
  { destruct (decide (-1074 < ulp_exponent x)) as [Hn|Hs].
    - rewrite <- Hround. by apply round_magnitude_lower.
    - eapply Qle_trans; [|exact Hnormal]. apply pow2_le.
      unfold ulp_exponent in *. lia. }
  rewrite pow2_plus in Hulp.
  assert (Hhalf : (pow2 (ulp_exponent x) * (1 # 2) <= d * (1 # 2 ^ 53))%Q).
  { assert (Heq : (pow2 (ulp_exponent x) * (1 # 2)
                   == pow2 (ulp_exponent x) * pow2 52 * (1 # 2 ^ 53))%Q).
    { assert (Hc : (inject_Z (2 ^ 52) * (1 # 2 ^ 53) == 1 # 2)%Q) by by vm_compute.
      by rewrite (pow2_inject 52), <- Qmult_assoc, Hc by lia. }
    rewrite Heq. by apply Qmult_le_compat_r. }
  apply Qle_minus_iff. apply Qle_minus_iff in Herr, Hhalf.
  assert (Heq : (x + - (d - d * (1 # 2 ^ 53))
                 == (pow2 (ulp_exponent x) * (1 # 2) + - (d - x))
                    + (d * (1 # 2 ^ 53) + - (pow2 (ulp_exponent x) * (1 # 2))))%Q)
    by ring.
  rewrite Heq. rewrite <- (Qplus_0_r 0). by apply Qplus_le_compat.
Qed.

(** The comparison of [can_autoresolve] in exact arithmetic, and the one the
    code makes in doubles for a delay that is a normal double: where either
    holds, the deadline is reached. *)
Lemma deadline_passed_reached t a d :
  deadline_passed t a d = true → deadline_reached t a d.
Proof.
  unfold deadline_passed, deadline_reached. intros Hpass.
  apply Qle_bool_iff in Hpass. eapply Qle_trans; [|exact Hpass].
  apply Qle_minus_iff.
  assert (Heq : (d + - (d - Qabs d * (1 # 2 ^ 53)) == Qabs d * (1 # 2 ^ 53))%Q)
    by ring.
  rewrite Heq. apply Qmult_le_0_compat; [apply Qabs_nonneg | done].
Qed.

Lemma double_comparison_reached t a d :
  is_float d → (pow2 (-1022) <= d)%Q →
  (d <= binary64 (total_seconds (t - last_update a)))%Q →
  deadline_reached t a d.
Proof. apply binary64_reaches. Qed.

(** At the rounding boundary the two comparisons differ.  The delay is the
    double of the literal 60.00001, which is above it, and the last update
    was 60000010 microseconds before the reading: the quotient is below the
    delay and is rounded up to it. *)
Lemma comparison_at_the_boundary :
  let d := binary64 (6000001 # 100000) in
  let a := mkIncident "A0001" 0 "network" HIGH NEW "ap-south" false None 0
             (Some d) None in
  is_float d ∧ deadline_passed 60000010 a d = false ∧
  (d <= binary64 (total_seconds (60000010 - last_update a)))%Q ∧
  deadline_reached 60000010 a d.
Proof.
  intros d a.
  assert (Hfloat : is_float d) by (split; by vm_compute).
  assert (Hcmp : (d <= binary64 (total_seconds (60000010 - last_update a)))%Q)
    by by vm_compute.
  split; [exact Hfloat|]. split; [by vm_compute|]. split; [exact Hcmp|].
  apply double_comparison_reached; [exact Hfloat | by vm_compute | exact Hcmp].
Qed.

(** ** Identifiers *)

Lemma uint_of_string_zeros k s d :
  NilEmpty.uint_of_string s = Some d →
  NilEmpty.uint_of_string (zeros k +:+ s) = Some (Nat.iter k Decimal.D0 d).
Proof.
  intros Hs. induction k as [|k IH]; simpl; [done|]. by rewrite IH.
Qed.

Lemma of_uint_zeros k d : Nat.of_uint (Nat.iter k Decimal.D0 d) = Nat.of_uint d.
Proof. induction k as [|k IH]; simpl; [done|]. by rewrite <- IH. Qed.

Lemma uint_of_digits n :
  ∃ d, NilEmpty.uint_of_string (NilZero.string_of_uint (Nat.to_uint n)) = Some d ∧
       Nat.of_uint d = n ∧
       NilZero.string_of_uint (Nat.to_uint n) ≠ "".
Proof.
  pose proof (DecimalNat.Unsigned.of_to n) as Hn.
  destruct (Nat.to_uint n) as [|d|d|d|d|d|d|d|d|d|d] eqn:Hd;
    [exists Decimal.zero; by split; [|split; [rewrite <- Hn|]] | ..];
    (eexists; split; [apply NilEmpty.usu | split; [done|]]); simpl; done.
Qed.

(** The digits of [format_04d n] read back as [n]: the format is injective. *)
Lemma parse_format_04d n : parse_nat (format_04d n) = Some n.
Proof.
  unfold parse_nat, format_04d.
  destruct (uint_of_digits n) as (d & Hd & Hn & Hne).
  set (digits := NilZero.string_of_uint (Nat.to_uint n)) in *.
  set (k := (4 - String.length digits)%nat).
  assert (Hparse : NilZero.uint_of_string (zeros k +:+ digits)
                   = Some (Nat.iter k Decimal.D0 d)).
  { rewrite <- (uint_of_string_zeros k digits d Hd).
    destruct k; simpl; [|done]. by destruct digits. }
  change (zeros k ++ digits)%string with (zeros k +:+ digits).
  rewrite Hparse. simpl. by rewrite of_uint_zeros, Hn.
Qed.

Lemma format_04d_inj n m : format_04d n = format_04d m → n = m.
Proof.
  intros Heq. pose proof (parse_format_04d n) as Hn.
  rewrite Heq, parse_format_04d in Hn. by injection Hn.
Qed.

Lemma length_string_app (s1 s2 : string) :
  String.length (s1 +:+ s2) = (String.length s1 + String.length s2)%nat.
Proof. induction s1 as [|c s1 IH]; simpl; [done | by rewrite IH]. Qed.

Lemma length_zeros k : String.length (zeros k) = k.
Proof. induction k as [|k IH]; simpl; [done | by rewrite IH]. Qed.

(** [format_04d] yields at least four characters. *)
Lemma format_04d_length n : (4 ≤ String.length (format_04d n))%nat.
Proof.
  unfold format_04d.
  change (zeros ?k ++ ?d)%string with (zeros k +:+ d).
  rewrite length_string_app, length_zeros. lia.
Qed.

(** Up to 9999 it yields exactly four. *)
Lemma format_04d_four n :
  Z.of_nat n ≤ 9999 → String.length (format_04d n) = 4%nat.
Proof.
  intros Hn.
  assert (Hall : forallb (λ n, String.length (format_04d n) =? 4)%nat
                   (seq 0 (Z.to_nat 10000)) = true) by (vm_compute; reflexivity).
  rewrite forallb_forall in Hall.
  apply Nat.eqb_eq, Hall, in_seq. lia.
Qed.

Example identifier_4 : String "A" (format_04d 4) = "A0004".
Proof. reflexivity. Qed.

Example identifier_12345 : String "A" (format_04d (Z.to_nat 12345)) = "A12345".
Proof. reflexivity. Qed.

Section Proofs.
Context {G : Type} `{Generator G}.

Lemma sample_in_bounds ts (st : FeedState G) self :
  in_bounds (sample ts st self).1.1 ∧
  _cpu (sample ts st self).2 = cpu_percent (sample ts st self).1.1 ∧
  _mem (sample ts st self).2 = memory_percent (sample ts st self).1.1.
Proof.
  unfold sample.
  destruct (rng_normal_pair 0 2 (rng st)) as [drift g].
  destruct (rng_exponential 2 g) as [spike g1].
  destruct (Qltb 5 spike).
  - destruct (rng_normal_pair 10 5 g1) as [extra g2]. simpl.
    repeat split; by apply clip_bounds.
  - simpl. repeat split; by apply clip_bounds.
Qed.

(** ** Monadic reasoning *)

Lemma bind_Some {A B} (m : @M G A) (k : A → @M G B) w b w'' :
  bind m k w = Some (b, w'') ↔ ∃ a w', m w = Some (a, w') ∧ k a w' = Some (b, w'').
Proof.
  unfold bind. split.
  - destruct (m w) as [[a w']|]; [eauto | done].
  - intros (a & w' & -> & Hk). done.
Qed.

(** [wp m w Q]: from [w] the method [m] returns, with a result and a world
    that satisfy [Q]. *)
Definition wp {A} (m : @M G A) (w : World G) (Q : A → World G → Prop) : Prop :=
  ∃ a w', m w = Some (a, w') ∧ Q a w'.

Lemma wp_ret {A} (a : A) w (Q : A → World G → Prop) : Q a w → wp (ret a) w Q.
Proof. intros HQ. by exists a, w. Qed.

Lemma wp_bind {A B} (m : @M G A) (k : A → @M G B) w (Q : B → World G → Prop) :
  wp m w (λ a w', wp (k a) w' Q) → wp (bind m k) w Q.
Proof.
  intros (a & w' & Hm & b & w'' & Hk & HQ).
  exists b, w''. split; [|done]. apply bind_Some. eauto.
Qed.

Lemma wp_mono {A} (m : @M G A) w (Q Q' : A → World G → Prop) :
  wp m w Q → (∀ a w', Q a w' → Q' a w') → wp m w Q'.
Proof. intros (a & w' & Hm & HQ) HQQ. exists a, w'. eauto. Qed.

(** ** The tracker as a dictionary *)

Lemma elem_of_dict_pop key (d : list (string * loc)) e :
  e ∈ dict_pop key d ↔ e ∈ d ∧ e.1 ≠ key.
Proof. unfold dict_pop. rewrite list_elem_of_filter. tauto. Qed.

Lemma elem_of_foldl_dict_pop keys (d : list (string * loc)) e :
  e ∈ foldl (λ d key, dict_pop key d) d keys ↔ e ∈ d ∧ e.1 ∉ keys.
Proof.
  revert d. induction keys as [|key keys IH]; intros d; simpl.
  - split; [intros He; split; [done | apply not_elem_of_nil] | tauto].
  - rewrite IH, elem_of_dict_pop, not_elem_of_cons. tauto.
Qed.

Lemma sublist_foldl_dict_pop keys (d : list (string * loc)) :
  foldl (λ d key, dict_pop key d) d keys `sublist_of` d.
Proof.
  revert d. induction keys as [|key keys IH]; intros d; simpl; [done|].
  etrans; [apply IH | apply sublist_filter].
Qed.

Lemma dict_set_fresh key value (d : list (string * loc)) :
  key ∉ d.*1 → dict_set key value d = d ++ [(key, value)].
Proof.
  induction d as [|[k v] d IH]; simpl; [done|].
  intros Hnotin. apply not_elem_of_cons in Hnotin as [Hne Hnotin].
  destruct (decide (k = key)); [congruence|]. by rewrite IH.
Qed.

Section WithClock.
Variable now : nat → Z.

Lemma resolved_keys_spec items (w : World G) keys w' :
  resolved_keys items w = Some (keys, w') →
  w' = w ∧
  ∀ key l inc, (key, l) ∈ items → heap w !! l = Some inc →
    status inc = RESOLVED → key ∈ keys.
Proof.
  revert keys w'. induction items as [|[k0 l0] items IH]; intros keys w'; simpl.
  - intros [= <- <-]. split; [done|]. intros ??? Hin. by apply elem_of_nil in Hin.
  - intros Hrun. apply bind_Some in Hrun as (inc0 & w1 & Hload & Hrun).
    unfold load in Hload. destruct (heap w !! l0) as [i0|] eqn:Hl0; [|done].
    injection Hload as <- <-.
    apply bind_Some in Hrun as (ks & w2 & Hrec & Hret).
    apply IH in Hrec as [-> Hrec]. injection Hret as <- <-.
    split; [done|]. intros key l inc Hin Hl Hres.
    apply elem_of_cons in Hin as [[= -> ->]|Hin].
    + rewrite Hl0 in Hl. injection Hl as ->.
      destruct (decide (status inc = RESOLVED)); [apply list_elem_of_here | done].
    + destruct (decide (status i0 = RESOLVED));
        [apply list_elem_of_further|]; eauto.
Qed.

Lemma purge_spec (w : World G) u w' :
  purge w = Some (u, w') →
  heap w' = heap w ∧ state w' = state w ∧ reads w' = reads w ∧
  config (feed w') = config (feed w) ∧
  _grid_width (feed w') = _grid_width (feed w) ∧
  _grid_height (feed w') = _grid_height (feed w) ∧
  counter (tracker (feed w')) = counter (tracker (feed w)) ∧
  active (tracker (feed w')) `sublist_of` active (tracker (feed w)) ∧
  (∀ key l inc, (key, l) ∈ active (tracker (feed w')) →
     heap w' !! l = Some inc → status inc ≠ RESOLVED).
Proof.
  unfold purge. intros Hrun.
  apply bind_Some in Hrun as (self & w1 & [= <- <-] & Hrun).
  apply bind_Some in Hrun as (keys & w2 & Hkeys & Hrun).
  apply resolved_keys_spec in Hkeys as [-> Hkeys].
  apply bind_Some in Hrun as (self & w3 & [= <- <-] & Hrun).
  injection Hrun as <- <-. simpl. repeat split; try done.
  - apply sublist_foldl_dict_pop.
  - intros key l inc Hin Hl Hres.
    apply elem_of_foldl_dict_pop in Hin as [Hin Hnot]. eauto.
Qed.

(** *** The primitives *)

Lemma wp_get_feed (w : World G) Q : Q (feed w) w → wp get_feed w Q.
Proof. intros HQ. by exists (feed w), w. Qed.

Lemma wp_set_tracker t (w : World G) Q :
  Q tt (mkWorld (heap w) (state w)
          (mkIncidentsFeed (config (feed w)) t (_grid_width (feed w))
             (_grid_height (feed w))) (reads w)) →
  wp (set_tracker t) w Q.
Proof. intros HQ. eexists _, _. split; [reflexivity | exact HQ]. Qed.

Lemma wp_draw {A} (f : G → A * G) (w : World G) Q :
  Q (f (rng (state w))).1
    (mkWorld (heap w) (mkFeedState (seed (state w)) (f (rng (state w))).2)
       (feed w) (reads w)) →
  wp (draw f) w Q.
Proof.
  intros HQ. unfold wp, draw. destruct (f (rng (state w))) as [a g]. eauto.
Qed.

Lemma wp_load l (w : World G) a Q : heap w !! l = Some a → Q a w → wp (load l) w Q.
Proof. intros Hl HQ. exists a, w. unfold load. by rewrite Hl. Qed.

Lemma wp_store l inc (w : World G) Q :
  Q tt (mkWorld (<[l := inc]> (heap w)) (state w) (feed w) (reads w)) →
  wp (store l inc) w Q.
Proof. intros HQ. eexists _, _. split; [reflexivity | exact HQ]. Qed.

Lemma wp_alloc inc (w : World G) Q :
  Q (length (heap w)) (mkWorld (heap w ++ [inc]) (state w) (feed w) (reads w)) →
  wp (alloc inc) w Q.
Proof. intros HQ. eexists _, _. split; [reflexivity | exact HQ]. Qed.

Lemma wp_datetime_now (w : World G) Q :
  Q (now (reads w)) (mkWorld (heap w) (state w) (feed w) (S (reads w))) →
  wp (datetime_now now) w Q.
Proof. intros HQ. eexists _, _. split; [reflexivity | exact HQ]. Qed.

Lemma wp_integers low high (w : World G) Q :
  low < high →
  (∀ v, low ≤ v < high →
     Q v (mkWorld (heap w)
            (mkFeedState (seed (state w)) (rng_integers low high (rng (state w))).2)
            (feed w) (reads w))) →
  wp (integers low high) w Q.
Proof.
  intros Hlt HQ. unfold integers.
  destruct (Z.ltb_spec low high) as [_|]; [|lia].
  apply wp_draw, HQ. by apply rng_integers_range.
Qed.

Lemma wp_poisson lam (w : World G) Q :
  (0 <= lam)%Q →
  Q (rng_poisson lam (rng (state w))).1
    (mkWorld (heap w)
       (mkFeedState (seed (state w)) (rng_poisson lam (rng (state w))).2)
       (feed w) (reads w)) →
  wp (poisson lam) w Q.
Proof.
  intros Hlam HQ. unfold poisson. destruct (Qltb lam 0) eqn:Hneg.
  - apply Qltb_true in Hneg. exfalso. by apply (Qlt_not_le _ _ Hneg).
  - by apply wp_draw.
Qed.

(** *** One incident of the progression sweep *)

(** Between the clock reads [r] and [r'] the deadline of [a], if it has one,
    was found not to have passed. *)
Definition not_due (r r' : nat) (a : Incident) : Prop :=
  ∀ d, autoresolve_after a = Some d →
    ∃ i, (r ≤ i < r')%nat ∧ deadline_passed (now i) a d = false.

(** [outcome t r r' a b e]: what one pass of the loop body of [step] makes of
    an incident [a] between the clock reads [r] and [r']: the incident [b],
    appended to [emitted] when [e] holds. *)
Inductive outcome (t : Z) (r r' : nat) (a : Incident) : Incident → bool → Prop :=
  | outcome_auto d i :
      status a ≠ RESOLVED →
      autoresolve_after a = Some d →
      (r ≤ i < r')%nat →
      deadline_passed (now i) a d = true →
      outcome t r r' a (set_last_update t (set_status RESOLVED a)) true
  | outcome_advance i :
      status a ≠ RESOLVED →
      not_due r r' a →
      (r ≤ i < r')%nat →
      outcome t r r' a (set_last_update t (advance_status_at (now i) a)) true
  | outcome_stay :
      status a = RESOLVED ∨ not_due r r' a →
      outcome t r r' a a false.

Lemma not_due_widen r1 r1' r2 r2' a :
  (r2 ≤ r1)%nat → (r1' ≤ r2')%nat → not_due r1 r1' a → not_due r2 r2' a.
Proof.
  intros Hr Hr' Hnd d Hd. destruct (Hnd d Hd) as (i & Hi & Hpass).
  exists i. split; [lia | done].
Qed.

Lemma outcome_widen t r1 r1' r2 r2' a b e :
  (r2 ≤ r1)%nat → (r1' ≤ r2')%nat → outcome t r1 r1' a b e → outcome t r2 r2' a b e.
Proof.
  intros Hr Hr' Hout. destruct Hout as [d i ? ? ? ?|i ? Hnd ?|Hstay].
  - apply (outcome_auto _ _ _ _ d i); [done | done | lia | done].
  - apply (outcome_advance _ _ _ _ i); [done | by eapply not_due_widen | lia].
  - apply outcome_stay. destruct Hstay; [by left | right; by eapply not_due_widen].
Qed.

Lemma can_autoresolve_spec l (w : World G) a Q :
  heap w !! l = Some a →
  (∀ due r',
     (reads w ≤ r')%nat →
     (due = true → ∃ d, autoresolve_after a = Some d ∧ r' = S (reads w) ∧
                        deadline_passed (now (reads w)) a d = true) →
     (due = false → not_due (reads w) r' a) →
     Q due (mkWorld (heap w) (state w) (feed w) r')) →
  wp (can_autoresolve now l) w Q.
Proof.
  intros Hl HQ. unfold can_autoresolve.
  apply wp_bind, (wp_load _ _ a); [done|].
  destruct (autoresolve_after a) as [d|] eqn:Hd.
  - apply wp_bind, wp_datetime_now, wp_ret.
    apply HQ; simpl; [lia | intros Hdue; eauto |].
    intros Hdue d' Hd'. rewrite Hd in Hd'. injection Hd' as <-.
    exists (reads w). split; [lia | done].
  - apply wp_ret. destruct w as [hp st fd r]. simpl in *.
    apply HQ; [lia | done | intros _ d' Hd'; congruence].
Qed.

Ltac split_frame :=
  split; [reflexivity|]; split; [reflexivity|]; split; [simpl; lia|].

Definition progress_post (t : Z) (l : loc) (w : World G) (a : Incident)
    (e : list loc) (w' : World G) : Prop :=
  feed w' = feed w ∧ seed (state w') = seed (state w) ∧ (reads w ≤ reads w')%nat ∧
  ∃ b em, outcome t (reads w) (reads w') a b em ∧
          heap w' = <[l := b]> (heap w) ∧
          e = if em then [l] else [].

Lemma progress_spec t l (w : World G) a :
  heap w !! l = Some a →
  wp (progress now t l) w (progress_post t l w a).
Proof.
  intros Hl. pose proof (lookup_lt_Some _ _ _ Hl) as Hlt.
  unfold progress. apply wp_bind, (wp_load _ _ a); [done|].
  destruct (decide (status a = RESOLVED)) as [Hres|Hres].
  { apply wp_ret. split_frame. exists a, false.
    split; [apply outcome_stay; by left|]. by rewrite list_insert_id. }
  apply wp_bind, (can_autoresolve_spec _ _ a); [done|].
  intros due r' Hr' Hdue Hnot. destruct due.
  - destruct Hdue as (d & Hd & -> & Hpass); [done|].
    apply wp_bind, (wp_load _ _ a); [done|].
    apply wp_bind, wp_store, wp_ret. simpl.
    split_frame. eexists _, true. split; [|done].
    apply (outcome_auto _ _ _ _ d (reads w)); [done | done | simpl; lia | done].
  - specialize (Hnot eq_refl).
    apply wp_bind, wp_draw. simpl.
    apply wp_bind, (wp_load _ _ a); [done|]. simpl.
    set (roll := (rng_random (rng (state w))).1).
    assert (Hadv : ∀ g,
      wp (bind (advance_status now l)
            (λ _, bind (load l)
               (λ inc, bind (store l (set_last_update t inc)) (λ _, ret [l]))))
         (mkWorld (heap w) (mkFeedState (seed (state w)) g) (feed w) r')
         (progress_post t l w a)).
    { intros g. unfold advance_status.
      apply wp_bind, wp_bind, (wp_load _ _ a); [done|].
      apply wp_bind, wp_datetime_now, wp_store. simpl.
      apply wp_bind, (wp_load _ _ (advance_status_at (now r') a));
        [by apply list_lookup_insert_eq|].
      apply wp_bind, wp_store, wp_ret. simpl.
      split_frame. eexists _, true.
      split; [|by rewrite list_insert_insert_eq].
      apply (outcome_advance _ _ _ _ r');
        [done | by eapply not_due_widen; [| |exact Hnot]; simpl; lia | simpl; lia]. }
    assert (Hstay : progress_post t l w a []
      (mkWorld (heap w)
         (mkFeedState (seed (state w)) (rng_random (rng (state w))).2) (feed w) r')).
    { split_frame. exists a, false.
      split; [|by rewrite list_insert_id].
      apply outcome_stay. right. simpl. eapply not_due_widen; [| |exact Hnot]; simpl; lia. }
    destruct ((bool_decide (status a = NEW) || bool_decide (status a = ACKNOWLEDGED))
              && Qltb roll (3 # 10)); [apply Hadv|].
    destruct (bool_decide (status a = IN_PROGRESS) && Qltb roll (15 # 100));
      [apply Hadv | by apply wp_ret].
Qed.

(** *** The progression sweep *)

Definition sweep_post (t : Z) (ls : list loc) (w : World G)
    (em : list loc) (w' : World G) : Prop :=
  feed w' = feed w ∧ seed (state w') = seed (state w) ∧ (reads w ≤ reads w')%nat ∧
  length (heap w') = length (heap w) ∧
  NoDup em ∧ (∀ l, l ∈ em → l ∈ ls) ∧
  ∀ l a, heap w !! l = Some a →
    (l ∉ ls → heap w' !! l = Some a) ∧
    (l ∈ ls → ∃ b e, heap w' !! l = Some b ∧
                     outcome t (reads w) (reads w') a b e ∧
                     (e = true ↔ l ∈ em)).

Lemma sweep_spec t ls (w : World G) :
  NoDup ls → (∀ l, l ∈ ls → (l < length (heap w))%nat) →
  wp (sweep now t ls) w (sweep_post t ls w).
Proof.
  revert w. induction ls as [|l0 ls IH]; intros w Hnd Hbound; simpl.
  - apply wp_ret. split_frame. split; [done|]. split; [constructor|].
    split; [done|]. intros l a Hl. split; [done|].
    intros Hin. by apply elem_of_nil in Hin.
  - apply NoDup_cons in Hnd as [Hl0 Hnd].
    destruct (lookup_lt_is_Some_2 (heap w) l0) as [a0 Ha0];
      [apply Hbound, list_elem_of_here|].
    apply wp_bind. eapply wp_mono; [by apply progress_spec|].
    intros e w1 (Hfeed1 & Hseed1 & Hreads1 & b0 & em0 & Hout0 & Hheap1 & He).
    assert (Hlen1 : length (heap w1) = length (heap w))
      by (rewrite Hheap1; apply length_insert).
    apply wp_bind. eapply wp_mono.
    { apply IH; [done|]. intros l Hin. rewrite Hlen1.
      by apply Hbound, list_elem_of_further. }
    intros es w2 (Hfeed2 & Hseed2 & Hreads2 & Hlen2 & Hnd2 & Hsub2 & Hobj2).
    apply wp_ret.
    assert (Hl0es : l0 ∉ es) by (intros Hin; by apply Hl0, Hsub2).
    split; [congruence|]. split; [congruence|]. split; [lia|].
    split; [congruence|]. split.
    { subst e. destruct em0; simpl; [apply NoDup_cons|]; done. }
    split.
    { intros l Hin. subst e. destruct em0; simpl in Hin.
      - apply elem_of_cons in Hin as [->|Hin];
          [apply list_elem_of_here | by apply list_elem_of_further, Hsub2].
      - by apply list_elem_of_further, Hsub2. }
    intros l a Hl. destruct (decide (l = l0)) as [->|Hne].
    + assert (a = a0) as -> by congruence.
      assert (Hb0 : heap w1 !! l0 = Some b0).
      { rewrite Hheap1. by apply list_lookup_insert_eq, lookup_lt_Some with a0. }
      destruct (Hobj2 l0 b0 Hb0) as [Hkeep _]. split.
      { intros Hnot. exfalso. apply Hnot, list_elem_of_here. }
      intros _. exists b0, em0. split; [by apply Hkeep|]. split.
      { eapply outcome_widen; [| |exact Hout0]; lia. }
      subst e. destruct em0; simpl.
      * split; [intros _; apply list_elem_of_here | done].
      * split; [done | intros Hin; by destruct Hl0es].
    + assert (Hl1 : heap w1 !! l = Some a).
      { rewrite Hheap1. by rewrite list_lookup_insert_ne. }
      destruct (Hobj2 l a Hl1) as [Hkeep Hmove]. split.
      { intros Hnot. apply Hkeep. intros Hin. by apply Hnot, list_elem_of_further. }
      intros Hin. apply elem_of_cons in Hin as [->|Hin]; [done|].
      destruct (Hmove Hin) as (b & e' & Hb & Hout & Hiff).
      exists b, e'. split; [done|]. split.
      { eapply outcome_widen; [| |exact Hout]; lia. }
      rewrite Hiff. subst e. destruct em0; simpl; [|done].
      rewrite elem_of_cons. split; [by right | by intros [->|?]].
Qed.

(** *** Well-formed worlds *)

Lemma validate_grid_Some width height :
  is_Some (_validate_grid (width, height)) → 1 < width ∧ 1 < height.
Proof.
  unfold _validate_grid.
  destruct (Z.leb_spec width 1), (Z.leb_spec height 1); simpl;
    intros [v Hv]; try done.
Qed.

Lemma valid_rate c : valid_FeedConfig c → (0 <= incidents_per_min c / 60)%Q.
Proof.
  intros (_ & _ & Hpos & _). apply Qlt_le_weak in Hpos.
  apply Qle_shift_div_l; [done|]. by rewrite Qmult_0_l.
Qed.

Lemma wf_frame (w w' : World G) :
  heap w' = heap w → feed w' = feed w → wf w → wf w'.
Proof.
  intros Hheap Hfeed [Hlocs Hbound Hkeys].
  constructor; rewrite ?Hheap, Hfeed; done.
Qed.

Lemma wf_tracked_bound (w : World G) l :
  wf w → l ∈ (active (tracker (feed w))).*2 → (l < length (heap w))%nat.
Proof.
  intros Hwf Hin. apply list_elem_of_fmap in Hin as ([key l'] & -> & Hin).
  by eapply wf_bound.
Qed.

(** *** [_make_incident] and the arrivals *)

(** [created w i inc]: [inc] is as [_make_incident] builds it on its
    [i+1]-th call from the world [w]. *)
Definition created (w : World G) (i : nat) (inc : Incident) : Prop :=
  identifier inc = String "A" (format_04d (counter (tracker (feed w)) + S i)) ∧
  status inc = NEW ∧ acknowledged inc = false ∧
  (∃ d, autoresolve_after inc = Some d) ∧
  ∃ x y, location inc = Some (x, y) ∧
         0 ≤ x < _grid_width (feed w) ∧ 0 ≤ y < _grid_height (feed w).

Definition arrivals_post (w : World G) (n : nat) (ls : list loc) (w' : World G)
  : Prop :=
  ls = seq (length (heap w)) n ∧ wf w' ∧
  config (feed w') = config (feed w) ∧
  _grid_width (feed w') = _grid_width (feed w) ∧
  _grid_height (feed w') = _grid_height (feed w) ∧
  seed (state w') = seed (state w) ∧ (reads w ≤ reads w')%nat ∧
  counter (tracker (feed w')) = (counter (tracker (feed w)) + n)%nat ∧
  (active (tracker (feed w'))).*2 = (active (tracker (feed w))).*2 ++ ls ∧
  ∃ news, length news = n ∧ heap w' = heap w ++ news ∧
          ∀ i inc, news !! i = Some inc → created w i inc.

Lemma make_incident_spec (w : World G) :
  wf w → 0 < _grid_width (feed w) → 0 < _grid_height (feed w) →
  wp (_make_incident now) w (λ l w', arrivals_post w 1 [l] w').
Proof.
  intros Hwf Hgw Hgh. unfold _make_incident, new_identifier.
  apply wp_bind, wp_bind, wp_get_feed, wp_bind, wp_set_tracker, wp_ret.
  apply wp_bind, wp_integers; [done|]. intros i Hi. simpl in Hi.
  unfold py_index. destruct (Z.leb_spec 0 i) as [_|]; [|lia].
  destruct (lookup_lt_is_Some_2 severities (Z.to_nat i)) as [sev ->];
    [simpl; lia|].
  apply wp_bind, wp_draw, wp_bind, wp_draw, wp_bind, wp_get_feed. simpl.
  apply wp_bind, wp_draw. simpl.
  apply wp_bind, wp_integers; [done|]. intros x Hx. simpl.
  apply wp_bind, wp_integers; [done|]. intros y Hy. simpl.
  apply wp_bind, wp_datetime_now, wp_bind, wp_datetime_now. simpl.
  apply wp_bind, wp_alloc. simpl. unfold tracker_add.
  match goal with |- context [?h ++ [?i]] => set (inc := i) end.
  apply wp_bind, wp_bind, (wp_load _ _ inc); [by apply list_lookup_middle|].
  apply wp_bind, wp_get_feed, wp_set_tracker, wp_ret. simpl.
  set (key := String "A" (format_04d (S (counter (tracker (feed w)))))).
  assert (Hfresh : key ∉ (active (tracker (feed w))).*1).
  { intros Hin. apply list_elem_of_fmap in Hin as ([k l] & Hk & Hin).
    simpl in Hk. subst k.
    destruct (wf_keys w Hwf _ _ Hin) as (n & Hn & Heq).
    injection Heq as Heq. apply format_04d_inj in Heq. lia. }
  rewrite (dict_set_fresh _ _ _ Hfresh).
  split; [done|]. split.
  { constructor; simpl.
    - rewrite fmap_app. apply NoDup_app. split; [by apply wf_locs|].
      split; [|apply NoDup_singleton]. intros l Hl Hin.
      apply list_elem_of_singleton in Hin. subst l.
      pose proof (wf_tracked_bound w _ Hwf Hl) as Hb. simpl in Hb. lia.
    - intros k l Hin. rewrite length_app. simpl.
      apply elem_of_app in Hin as [Hin|Hin].
      + pose proof (wf_bound w Hwf _ _ Hin). lia.
      + apply list_elem_of_singleton in Hin. injection Hin as -> ->. lia.
    - intros k l Hin. apply elem_of_app in Hin as [Hin|Hin].
      + destruct (wf_keys w Hwf _ _ Hin) as (n & Hn & Heq). exists n.
        split; [lia | done].
      + apply list_elem_of_singleton in Hin. injection Hin as -> ->.
        exists (S (counter (tracker (feed w)))). done. }
  do 6 (split; [first [done | simpl; lia]|]).
  split; [simpl; by rewrite fmap_app|].
  exists [inc]. split; [done|]. split; [done|].
  intros j inc' Hj. apply list_lookup_singleton_Some in Hj as [-> <-].
  split; [simpl; f_equal; f_equal; lia|].
  repeat (split; [done|]). split; [by eexists|]. by exists x, y.
Qed.

Lemma created_shift (w w1 : World G) i inc :
  counter (tracker (feed w1)) = (counter (tracker (feed w)) + 1)%nat →
  _grid_width (feed w1) = _grid_width (feed w) →
  _grid_height (feed w1) = _grid_height (feed w) →
  created w1 i inc → created w (S i) inc.
Proof.
  intros Hc Hgw Hgh (Hid & Hrest). unfold created.
  rewrite <- Hgw, <- Hgh. split; [|done].
  rewrite Hid. do 2 f_equal. lia.
Qed.

Lemma arrivals_spec n (w : World G) :
  wf w → 0 < _grid_width (feed w) → 0 < _grid_height (feed w) →
  wp (arrivals now n) w (arrivals_post w n).
Proof.
  revert w. induction n as [|n IH]; intros w Hwf Hgw Hgh; simpl.
  - apply wp_ret. split; [done|]. split; [done|].
    do 6 (split; [first [done | lia]|]).
    split; [by rewrite app_nil_r|]. exists []. split; [done|].
    split; [by rewrite app_nil_r | done].
  - apply wp_bind. eapply wp_mono; [by apply make_incident_spec|].
    intros l w1 (Hl & Hwf1 & Hcfg1 & Hgw1 & Hgh1 & Hseed1 & Hr1 & Hc1 & Hact1
                 & news1 & Hlen1 & Hheap1 & Hnew1).
    injection Hl as ->.
    apply wp_bind. eapply wp_mono; [apply IH; [done|lia..]|].
    intros ls w2 (Hls & Hwf2 & Hcfg2 & Hgw2 & Hgh2 & Hseed2 & Hr2 & Hc2 & Hact2
                  & news2 & Hlen2 & Hheap2 & Hnew2).
    apply wp_ret.
    assert (Hlenh : length (heap w1) = S (length (heap w)))
      by (rewrite Hheap1, length_app, Hlen1; lia).
    split; [by rewrite Hls, Hlenh|]. split; [done|].
    do 6 (split; [first [congruence | lia]|]).
    split. { rewrite Hact2, Hact1, Hls, Hlenh, <- app_assoc. done. }
    exists (news1 ++ news2). split; [rewrite length_app; lia|].
    split; [by rewrite Hheap2, Hheap1, app_assoc|].
    intros i inc Hi. destruct news1 as [|inc1 [|]]; try done.
    destruct i as [|i]; simpl in Hi.
    + injection Hi as <-. by apply (Hnew1 0%nat).
    + apply created_shift with w1; [lia | done | done | by apply Hnew2].
Qed.

(** *** [purge] returns on a well-formed world *)

Lemma resolved_keys_returns items (w : World G) :
  (∀ key l, (key, l) ∈ items → (l < length (heap w))%nat) →
  ∃ keys, resolved_keys items w = Some (keys, w).
Proof.
  induction items as [|[k0 l0] items IH]; intros Hbound; simpl.
  - by eexists.
  - destruct (lookup_lt_is_Some_2 (heap w) l0) as [a0 Ha0];
      [by eapply Hbound, list_elem_of_here|].
    destruct IH as [keys Hkeys];
      [intros key l Hin; by eapply Hbound, list_elem_of_further|].
    eexists. apply bind_Some. exists a0, w.
    split; [unfold load; by rewrite Ha0|].
    apply bind_Some. exists keys, w. split; [done | reflexivity].
Qed.

Lemma purge_returns (w : World G) :
  (∀ key l, (key, l) ∈ active (tracker (feed w)) → (l < length (heap w))%nat) →
  ∃ w', purge w = Some (tt, w').
Proof.
  intros Hbound. destruct (resolved_keys_returns _ w Hbound) as [keys Hkeys].
  eexists. unfold purge. apply bind_Some. exists (feed w), w. split; [done|].
  apply bind_Some. exists keys, w. split; [done|].
  apply bind_Some. exists (feed w), w. split; [done | reflexivity].
Qed.

(** *** One call of [step] *)

Definition step_post (w : World G) (em : list loc) (w' : World G) : Prop :=
  ready w' ∧
  config (feed w') = config (feed w) ∧
  _grid_width (feed w') = _grid_width (feed w) ∧
  _grid_height (feed w') = _grid_height (feed w) ∧
  seed (state w') = seed (state w) ∧ (reads w < reads w')%nat ∧
  ∃ news progressed t,
    let tracked :=
      (active (tracker (feed w))).*2 ++ seq (length (heap w)) (length news) in
    em = seq (length (heap w)) (length news) ++ progressed ∧
    NoDup progressed ∧ (∀ l, l ∈ progressed → l ∈ tracked) ∧
    counter (tracker (feed w')) = (counter (tracker (feed w)) + length news)%nat ∧
    length (heap w') = (length (heap w) + length news)%nat ∧
    (∀ i inc, news !! i = Some inc → created w i inc) ∧
    (∀ l, l ∈ (active (tracker (feed w'))).*2 → l ∈ tracked) ∧
    (∀ key l inc, (key, l) ∈ active (tracker (feed w')) →
       heap w' !! l = Some inc → status inc ≠ RESOLVED) ∧
    ∀ l a, (heap w ++ news) !! l = Some a →
      (l ∉ tracked → heap w' !! l = Some a) ∧
      (l ∈ tracked → ∃ b e, heap w' !! l = Some b ∧
                            outcome t (reads w) (reads w') a b e ∧
                            (e = true ↔ l ∈ progressed)).

Lemma step_spec (w : World G) : ready w → wp (step now) w (step_post w).
Proof.
  intros (Hwf & Hcfg & Hgrid). apply validate_grid_Some in Hgrid as Hdims.
  unfold step. apply wp_bind, wp_get_feed.
  apply wp_bind, wp_poisson; [by apply valid_rate|].
  set (w1 := mkWorld _ _ _ _).
  apply wp_bind. eapply wp_mono.
  { apply (arrivals_spec _ w1); [by apply (wf_frame w) | simpl; lia | simpl; lia]. }
  intros created w2 (Hcr & Hwf2 & Hcfg2 & Hgw2 & Hgh2 & Hseed2 & Hr2 & Hc2 & Hact2
                     & news & Hlen & Hheap2 & Hnew).
  simpl in Hcfg2, Hgw2, Hgh2, Hseed2, Hr2, Hc2, Hact2, Hheap2, Hcr.
  apply wp_bind, wp_datetime_now.
  set (w3 := mkWorld _ _ _ _).
  unfold iter_active. apply wp_bind, wp_bind, wp_get_feed, wp_ret.
  apply wp_bind. eapply wp_mono.
  { apply (sweep_spec _ _ w3); [exact (wf_locs w2 Hwf2)|].
    intros l Hl. by apply (wf_tracked_bound w2). }
  intros progressed w4 (Hfeed4 & Hseed4 & Hr4 & Hlen4 & Hnd4 & Hsub4 & Hobj4).
  simpl in Hfeed4, Hseed4, Hr4, Hlen4, Hsub4, Hobj4.
  destruct (purge_returns w4) as [w5 Hpurge].
  { intros key l Hin. rewrite Hfeed4 in Hin. rewrite Hlen4.
    by apply (wf_bound w2 Hwf2 key). }
  pose proof (purge_spec _ _ _ Hpurge)
    as (Hheap5 & Hstate5 & Hr5 & Hcfg5 & Hgw5 & Hgh5 & Hc5 & Hsub5 & Hres5).
  apply wp_bind. exists tt, w5. split; [done|]. apply wp_ret.
  rewrite Hfeed4 in Hcfg5, Hgw5, Hgh5, Hc5, Hsub5.
  assert (Hwf5 : wf w5).
  { constructor.
    - eapply sublist_NoDup; [apply (wf_locs w2 Hwf2)|]. by apply fmap_sublist.
    - intros key l Hin. rewrite Hheap5, Hlen4.
      apply (wf_bound w2 Hwf2 key). by eapply elem_of_sublist.
    - intros key l Hin. rewrite Hc5.
      apply (wf_keys w2 Hwf2 key l). by eapply elem_of_sublist. }
  split. { split; [done|]. rewrite Hcfg5, Hcfg2, Hgw5, Hgw2, Hgh5, Hgh2. done. }
  do 4 (split; [congruence|]). split; [subst w3; simpl in Hr4; lia|].
  exists news, progressed, (now (reads w2)). simpl.
  rewrite Hlen. split; [by rewrite Hcr|]. split; [done|].
  split. { intros l Hl. rewrite <- Hcr, <- Hact2. by apply Hsub4. }
  split; [lia|]. split; [rewrite Hheap5, Hlen4, Hheap2, length_app; lia|].
  split; [exact Hnew|]. split.
  { intros l Hl. rewrite <- Hcr, <- Hact2.
    eapply elem_of_sublist; [exact Hl | by apply fmap_sublist]. }
  split; [exact Hres5|].
  intros l a Hl. rewrite <- Hheap2 in Hl. rewrite <- Hcr, <- Hact2, Hheap5, Hr5.
  destruct (Hobj4 l a Hl) as [Hkeep Hmove]. split; [done|].
  intros Hin. destruct (Hmove Hin) as (b & e & Hb & Hout & Hiff).
  exists b, e. split; [done|]. split; [|done].
  eapply outcome_widen; [| |exact Hout]; subst w3; simpl; lia.
Qed.

(** *** What a pass of the loop body does to an incident *)

Lemma same_static_refl a : same_static a a.
Proof. by repeat split. Qed.

Lemma same_static_trans a b c : same_static a b → same_static b c → same_static a c.
Proof.
  intros (?&?&?&?&?&?&?&?) (?&?&?&?&?&?&?&?). repeat split; congruence.
Qed.

Lemma advance_status_rank t a :
  rank (status (advance_status_at t a)) = Nat.min 3 (S (rank (status a))).
Proof.
  unfold advance_status_at. destruct (status a) eqn:Hs; simpl; by rewrite ?Hs.
Qed.

Lemma advance_status_resolved t t' a :
  status a = IN_PROGRESS →
  set_last_update t (advance_status_at t' a)
  = set_last_update t (set_status RESOLVED a).
Proof. intros Hs. unfold advance_status_at. by rewrite Hs. Qed.

Lemma outcome_static t r r' a b e : outcome t r r' a b e → same_static a b.
Proof.
  intros [d i _ _ _ _|i _ _ _|_]; [by repeat split| |apply same_static_refl].
  unfold advance_status_at. destruct (status a); by repeat split.
Qed.

Lemma outcome_stay_eq t r r' a b : outcome t r r' a b false → b = a.
Proof. by inversion 1. Qed.

Lemma outcome_rank t r r' a b e :
  outcome t r r' a b e →
  (rank (status a) ≤ rank (status b))%nat ∧
  (e = true → (rank (status a) < rank (status b))%nat) ∧
  ((rank (status b) ≤ S (rank (status a)))%nat ∨
   (status b = RESOLVED ∧
    ∃ d i, autoresolve_after a = Some d ∧ deadline_passed (now i) a d = true)).
Proof.
  intros [d i Hres Hd _ Hpass|i Hres _ _|_].
  - simpl. destruct (status a); try done; simpl;
      (split; [lia|]); (split; [lia|]); right; eauto.
  - change (status (set_last_update t (advance_status_at (now i) a)))
      with (status (advance_status_at (now i) a)).
    rewrite advance_status_rank. destruct (status a); try done; simpl;
      (split; [lia|]); (split; [lia|]); left; lia.
  - split; [lia|]. split; [done | left; lia].
Qed.

Lemma outcome_skip t r r' a b e :
  outcome t r r' a b e →
  (rank (status b) ≤ S (rank (status a)))%nat ∨
  (status b = RESOLVED ∧
   ∃ d i, autoresolve_after a = Some d ∧ (r ≤ i < r')%nat ∧
          deadline_reached (now i) a d).
Proof.
  intros [d i Hres Hd Hi Hpass|i Hres _ _|_].
  - right. split; [done|]. exists d, i.
    split; [done|]. split; [done|]. by apply deadline_passed_reached.
  - left. change (status (set_last_update t (advance_status_at (now i) a)))
      with (status (advance_status_at (now i) a)).
    rewrite advance_status_rank. lia.
  - left. lia.
Qed.

Lemma outcome_acknowledged t r r' a b e :
  outcome t r r' a b e →
  acknowledged b = acknowledged a ∨
  (status a = NEW ∧ status b = ACKNOWLEDGED ∧ acknowledged b = true).
Proof.
  intros [d i _ _ _ _|i _ _ _|_]; [by left| |by left].
  unfold advance_status_at. destruct (status a) eqn:Hs; simpl; auto.
Qed.

Lemma outcome_resolved t r r' a b e :
  outcome t r r' a b e → status a ≠ RESOLVED → status b = RESOLVED →
  e = true ∧ b = set_last_update t (set_status RESOLVED a).
Proof.
  intros [d i _ _ _ _|i Hres _ _|_] Hnot Hb; [done| |done].
  split; [done|]. destruct (status a) eqn:Hs; try done.
  - unfold advance_status_at in Hb. rewrite Hs in Hb. done.
  - unfold advance_status_at in Hb. rewrite Hs in Hb. done.
  - by apply advance_status_resolved.
Qed.

Lemma deadline_passed_mono t t' a d :
  t ≤ t' → deadline_passed t a d = true → deadline_passed t' a d = true.
Proof.
  unfold deadline_passed, total_seconds. intros Ht Hpass.
  apply Qle_bool_iff in Hpass. apply Qle_bool_iff.
  eapply Qle_trans; [exact Hpass|].
  apply Qmult_le_compat_r; [|done]. rewrite <- Zle_Qle. lia.
Qed.

Lemma outcome_due t r r' a b e d :
  monotone_clock now → outcome t r r' a b e →
  status a ≠ RESOLVED → autoresolve_after a = Some d →
  deadline_passed (now r) a d = true →
  e = true ∧ b = set_last_update t (set_status RESOLVED a).
Proof.
  intros Hclock Hout Hres Hd Hpass.
  assert (Hnot : ¬ not_due r r' a).
  { intros Hnd. destruct (Hnd d Hd) as (i & Hi & Hfalse).
    rewrite (deadline_passed_mono (now r) (now i) a d) in Hfalse;
      [done | apply Hclock; lia | done]. }
  destruct Hout as [d' i _ _ _ _|i _ Hnd _|[Hr|Hnd]]; done.
Qed.

(** *** One call of any kind *)

Definition in_grid (w : World G) (inc : Incident) : Prop :=
  ∃ x y, location inc = Some (x, y) ∧
         0 ≤ x < _grid_width (feed w) ∧ 0 ≤ y < _grid_height (feed w).

(** [b] is [a] after at most one pass of the loop body of [step]. *)
Definition touched (w w' : World G) (a b : Incident) : Prop :=
  b = a ∨ ∃ t e, outcome t (reads w) (reads w') a b e.

Definition call_post (c : Call) (w : World G) (w' : World G) : Prop :=
  ready w' ∧
  config (feed w') = config (feed w) ∧
  _grid_width (feed w') = _grid_width (feed w) ∧
  _grid_height (feed w') = _grid_height (feed w) ∧
  seed (state w') = seed (state w) ∧ (reads w ≤ reads w')%nat ∧
  (length (heap w) ≤ length (heap w'))%nat ∧
  (∀ l a, heap w !! l = Some a → ∃ b, heap w' !! l = Some b ∧ touched w w' a b) ∧
  (∀ l b, (length (heap w) ≤ l)%nat → heap w' !! l = Some b → in_grid w b) ∧
  (c ≠ CallReset →
     (counter (tracker (feed w')) + length (heap w)
      = counter (tracker (feed w)) + length (heap w'))%nat ∧
     ∀ i b, heap w' !! (length (heap w) + i)%nat = Some b →
       identifier b = String "A" (format_04d (counter (tracker (feed w)) + S i))).

Lemma step_objects (w w' : World G) em :
  step_post w em w' →
  ∃ news, length (heap w') = length (heap w ++ news) ∧
    (∀ i inc, news !! i = Some inc → created w i inc) ∧
    counter (tracker (feed w')) = (counter (tracker (feed w)) + length news)%nat ∧
    ∀ l a, (heap w ++ news) !! l = Some a →
      ∃ b, heap w' !! l = Some b ∧ touched w w' a b.
Proof.
  intros (_ & _ & _ & _ & _ & _ & news & progressed & t & _ & _ & _ & Hc & Hlen
          & Hnew & _ & _ & Hobj).
  exists news. split; [rewrite length_app; lia|]. split; [done|]. split; [done|].
  intros l a Hl. destruct (Hobj l a Hl) as [Hkeep Hmove].
  set (tracked := (active (tracker (feed w))).*2
                  ++ seq (length (heap w)) (length news)) in *.
  destruct (decide (l ∈ tracked)) as [Hin|Hnotin].
  - destruct (Hmove Hin) as (b & e & Hb & Hout & _). exists b.
    split; [done|]. right. eauto.
  - exists a. split; [by apply Hkeep | by left].
Qed.

Lemma call_spec c (w : World G) :
  ready w → wp (call now c) w (λ _ w', call_post c w w').
Proof.
  intros Hready. pose proof Hready as (Hwf & Hcfg & Hgrid).
  apply validate_grid_Some in Hgrid as Hdims. destruct c; simpl.
  - eapply wp_mono; [by apply step_spec|]. intros em w' Hpost.
    pose proof (step_objects _ _ _ Hpost)
      as (news & Hlen & Hnew & Hc & Hobj).
    destruct Hpost as (Hready' & Hcfg' & Hgw' & Hgh' & Hseed' & Hr' & _).
    rewrite length_app in Hlen.
    do 5 (split; [done|]). split; [lia|]. split; [lia|]. split.
    { intros l a Hl. apply Hobj. by apply lookup_app_l_Some. }
    assert (Hfresh : ∀ i b, heap w' !! (length (heap w) + i)%nat = Some b →
               ∃ a, news !! i = Some a ∧ same_static a b).
    { intros i b Hb. pose proof (lookup_lt_Some _ _ _ Hb) as Hlt.
      destruct (lookup_lt_is_Some_2 news i) as [a Ha]; [lia|].
      exists a. split; [done|].
      destruct (Hobj (length (heap w) + i)%nat a) as (b' & Hb' & Htouch).
      { rewrite lookup_app_r; [|lia]. by replace (_ + i - _)%nat with i by lia. }
      assert (b' = b) as -> by congruence.
      destruct Htouch as [->|(t & e & Hout)];
        [apply same_static_refl | by eapply outcome_static]. }
    split.
    { intros l b Hl Hb. replace l with (length (heap w) + (l - length (heap w)))%nat
        in Hb by lia.
      destruct (Hfresh _ _ Hb) as (a & Ha & Hst).
      destruct (Hnew _ _ Ha) as (_ & _ & _ & _ & x & y & Hloc & Hx & Hy).
      exists x, y. destruct Hst as (_&_&_&_&_&_&_&Hl'). by rewrite Hl'. }
    intros _. split; [lia|]. intros i b Hb.
    destruct (Hfresh _ _ Hb) as (a & Ha & Hst).
    destruct (Hnew _ _ Ha) as (Hid & _). destruct Hst as (Hid' & _). congruence.
  - apply wp_bind. eapply wp_mono; [apply make_incident_spec; [done|lia..]|].
    intros l w' (_ & Hwf' & Hcfg' & Hgw' & Hgh' & Hseed' & Hr' & Hc' & _
                 & news & Hlen & Hheap' & Hnew).
    apply wp_ret. split. { split; [done|]. by rewrite Hcfg', Hgw', Hgh'. }
    do 5 (split; [done|]). rewrite Hheap', length_app.
    split; [lia|]. split.
    { intros l0 a Hl0. exists a. split; [by apply lookup_app_l_Some | by left]. }
    assert (Hfresh : ∀ i b, (heap w ++ news) !! (length (heap w) + i)%nat = Some b →
               news !! i = Some b).
    { intros i b Hb. rewrite lookup_app_r in Hb; [|lia].
      by replace (_ + i - _)%nat with i in Hb by lia. }
    split.
    { intros l0 b Hl0 Hb.
      replace l0 with (length (heap w) + (l0 - length (heap w)))%nat in Hb by lia.
      apply Hfresh, Hnew in Hb. apply Hb. }
    intros _. split; [lia|]. intros i b Hb. apply Hfresh, Hnew in Hb. apply Hb.
  - unfold IncidentsFeed_reset. apply wp_bind, wp_set_tracker, wp_ret. simpl.
    split.
    { split; [|done]. constructor; simpl; [constructor | |];
        intros key l Hin; by apply elem_of_nil in Hin. }
    do 4 (split; [done|]). split; [simpl; lia|]. split; [simpl; lia|]. split.
    { intros l a Hl. exists a. split; [done | by left]. }
    split; [|done]. intros l b Hl Hb. apply lookup_lt_Some in Hb. simpl in *. lia.
Qed.

(** *** Sequences of calls *)

(** [w'] comes after [w]: same configuration, and every object of [w] is
    still there with its fixed fields and a status at least as advanced. *)
Definition evolves (w w' : World G) : Prop :=
  config (feed w') = config (feed w) ∧
  _grid_width (feed w') = _grid_width (feed w) ∧
  _grid_height (feed w') = _grid_height (feed w) ∧
  seed (state w') = seed (state w) ∧
  (reads w ≤ reads w')%nat ∧ (length (heap w) ≤ length (heap w'))%nat ∧
  ∀ l a, heap w !! l = Some a →
    ∃ b, heap w' !! l = Some b ∧ same_static a b ∧
         (rank (status a) ≤ rank (status b))%nat.

Lemma evolves_refl w : evolves w w.
Proof.
  do 6 (split; [done|]). intros l a Hl. exists a.
  split; [done|]. split; [apply same_static_refl | done].
Qed.

Lemma evolves_trans w1 w2 w3 : evolves w1 w2 → evolves w2 w3 → evolves w1 w3.
Proof.
  intros (?&?&?&?&?&?&Hobj1) (?&?&?&?&?&?&Hobj2).
  do 4 (split; [congruence|]). split; [lia|]. split; [lia|].
  intros l a Hl. destruct (Hobj1 l a Hl) as (b & Hb & Hst1 & Hrk1).
  destruct (Hobj2 l b Hb) as (c & Hc & Hst2 & Hrk2).
  exists c. split; [done|]. split; [by eapply same_static_trans | lia].
Qed.

Lemma touched_static w w' a b :
  touched w w' a b → same_static a b ∧ (rank (status a) ≤ rank (status b))%nat.
Proof.
  intros [->|(t & e & Hout)]; [split; [apply same_static_refl | done]|].
  split; [by eapply outcome_static | by eapply outcome_rank].
Qed.

Lemma call_evolves c w w' : call_post c w w' → evolves w w'.
Proof.
  intros (_ & ? & ? & ? & ? & ? & ? & Hobj & _).
  do 6 (split; [done|]). intros l a Hl.
  destruct (Hobj l a Hl) as (b & Hb & Htouch). exists b.
  split; [done|]. by eapply touched_static.
Qed.

Lemma worlds_length cs (w : World G) :
  ready w → length (worlds now cs w) = S (length cs).
Proof.
  revert w. induction cs as [|c cs IH]; intros w Hready; simpl; [done|].
  destruct (call_spec c w Hready) as (em & w' & -> & Hpost).
  f_equal. apply IH, Hpost.
Qed.

Lemma worlds_adjacent cs (w : World G) i w1 w2 :
  ready w →
  worlds now cs w !! i = Some w1 → worlds now cs w !! S i = Some w2 →
  ready w1 ∧ ∃ c, cs !! i = Some c ∧ call_post c w1 w2.
Proof.
  revert w i. induction cs as [|c cs IH]; intros w i Hready H1 H2; simpl in *.
  - by destruct i.
  - destruct (call_spec c w Hready) as (em & w' & Hcall & Hpost).
    rewrite Hcall in H1, H2. destruct i as [|i]; simpl in *.
    + injection H1 as <-. split; [done|]. exists c. split; [done|].
      destruct cs; simpl in H2; by injection H2 as <-.
    + apply (IH w' i); [apply Hpost | done | done].
Qed.

Lemma worlds_ready cs (w : World G) i w1 :
  ready w → worlds now cs w !! i = Some w1 → ready w1.
Proof.
  revert w i. induction cs as [|c cs IH]; intros w i Hready H1; simpl in *.
  - destruct i; [by injection H1 as <- | done].
  - destruct i as [|i]; simpl in *; [by injection H1 as <-|].
    destruct (call_spec c w Hready) as (em & w' & Hcall & Hpost).
    rewrite Hcall in H1. apply (IH w' i); [apply Hpost | done].
Qed.

Lemma worlds_evolves cs (w : World G) i j w1 w2 :
  ready w → (i ≤ j)%nat →
  worlds now cs w !! i = Some w1 → worlds now cs w !! j = Some w2 →
  ready w1 ∧ ready w2 ∧ evolves w1 w2.
Proof.
  intros Hready Hij H1. revert w2.
  pose proof (worlds_ready cs w i w1 Hready H1) as Hr1.
  induction Hij as [|j Hij IH]; intros w2 H2.
  - assert (w2 = w1) as -> by congruence.
    split; [done|]. split; [done | apply evolves_refl].
  - destruct (lookup_lt_is_Some_2 (worlds now cs w) j) as [wj Hj].
    { apply lookup_lt_Some in H2. lia. }
    destruct (IH wj Hj) as (_ & Hrj & Hev).
    destruct (worlds_adjacent cs w j wj w2 Hready Hj H2) as (_ & c & _ & Hpost).
    split; [done|]. split; [apply Hpost|].
    eapply evolves_trans; [exact Hev | by eapply call_evolves].
Qed.

(** *** An incident whose deadline has passed *)

Lemma progress_due t l (w : World G) a d :
  heap w !! l = Some a → status a ≠ RESOLVED → autoresolve_after a = Some d →
  deadline_passed (now (reads w)) a d = true →
  progress now t l w
  = Some ([l], mkWorld (<[l := set_last_update t (set_status RESOLVED a)]> (heap w))
                 (state w) (feed w) (S (reads w))).
Proof.
  intros Hl Hres Hd Hpass. unfold progress.
  apply bind_Some. exists a, w. split; [unfold load; by rewrite Hl|].
  destruct (decide (status a = RESOLVED)); [done|].
  apply bind_Some.
  exists true, (mkWorld (heap w) (state w) (feed w) (S (reads w))). split.
  { unfold can_autoresolve. apply bind_Some. exists a, w.
    split; [unfold load; by rewrite Hl|]. rewrite Hd.
    apply bind_Some. eexists _, _. split; [reflexivity|]. simpl.
    unfold ret. by rewrite Hpass. }
  apply bind_Some. eexists a, _. split; [unfold load; simpl; by rewrite Hl|].
  apply bind_Some. eexists tt, _. split; reflexivity.
Qed.

Lemma step_due (w : World G) key l a d :
  ready w → monotone_clock now →
  (key, l) ∈ active (tracker (feed w)) → heap w !! l = Some a →
  status a ≠ RESOLVED → autoresolve_after a = Some d →
  deadline_passed (now (reads w)) a d = true →
  ∃ em w' t, step now w = Some (em, w') ∧ l ∈ em ∧
    heap w' !! l = Some (set_last_update t (set_status RESOLVED a)).
Proof.
  intros Hready Hclock Hin Hl Hres Hd Hpass.
  destruct (step_spec w Hready) as (em & w' & Hstep & Hpost).
  destruct Hpost as (_ & _ & _ & _ & _ & _ & news & progressed & t & Hem & _ & _
                     & _ & _ & _ & _ & _ & Hobj).
  exists em, w', t. split; [done|].
  destruct (Hobj l a) as [_ Hmove]; [by apply lookup_app_l_Some|].
  destruct Hmove as (b & e & Hb & Hout & Hiff).
  { apply elem_of_app. left. apply list_elem_of_fmap. by exists (key, l). }
  destruct (outcome_due _ _ _ _ _ _ _ Hclock Hout Hres Hd Hpass) as [-> ->].
  split; [|done]. rewrite Hem. apply elem_of_app. right. by apply Hiff.
Qed.

(** *** Histories *)

Lemma lifecycle_drop_rank s :
  drop (rank s) lifecycle = s :: drop (S (rank s)) lifecycle.
Proof. by destruct s. Qed.

Lemma sublist_drop_le {A} (l : list A) k k' :
  (k ≤ k')%nat → drop k' l `sublist_of` drop k l.
Proof.
  intros Hk. replace k' with (k + (k' - k))%nat by lia.
  rewrite <- drop_drop. apply sublist_drop.
Qed.

Definition floor (l : loc) (w : World G) : nat :=
  match heap w !! l with Some a => rank (status a) | None => 0%nat end.

Lemma history_cons_Some l (w : World G) a ws :
  heap w !! l = Some a → history l (w :: ws) = status a :: history l ws.
Proof. intros Hl. unfold history. simpl. by rewrite Hl. Qed.

Lemma history_cons_None l (w : World G) ws :
  heap w !! l = None → history l (w :: ws) = history l ws.
Proof. intros Hl. unfold history. simpl. by rewrite Hl. Qed.

Lemma worlds_cons cs (w : World G) : ∃ ws, worlds now cs w = w :: ws.
Proof. destruct cs; simpl; eauto. Qed.

Lemma changes_cons_cons s s' ss :
  changes (s :: s' :: ss)
  = if decide (s = s') then changes (s' :: ss) else s :: changes (s' :: ss).
Proof. done. Qed.

Lemma history_sublist l cs (w : World G) :
  ready w →
  changes (history l (worlds now cs w)) `sublist_of` drop (floor l w) lifecycle.
Proof.
  revert w. induction cs as [|c cs IH]; intros w Hready.
  - unfold history, floor. simpl. destruct (heap w !! l) as [a|]; simpl.
    + rewrite lifecycle_drop_rank. apply sublist_skip, sublist_nil_l.
    + apply sublist_nil_l.
  - simpl worlds.
    destruct (call_spec c w Hready) as (em & w' & -> & Hpost).
    pose proof (call_evolves _ _ _ Hpost) as (_&_&_&_&_&_&Hobj).
    assert (Hready' : ready w') by apply Hpost.
    specialize (IH w' Hready').
    unfold floor at 1. destruct (heap w !! l) as [a|] eqn:Hl.
    + destruct (Hobj l a Hl) as (b & Hb & _ & Hrank).
      destruct (worlds_cons cs w') as [ws Hws]. rewrite Hws in *.
      rewrite (history_cons_Some l w a _ Hl).
      rewrite (history_cons_Some l w' b _ Hb) in *.
      unfold floor in IH. rewrite Hb in IH. rewrite changes_cons_cons.
      destruct (decide (status a = status b)) as [Heq|Hne]; [by rewrite Heq|].
      rewrite lifecycle_drop_rank. apply sublist_skip.
      etrans; [exact IH|]. apply sublist_drop_le.
      assert (rank (status a) ≠ rank (status b))
        by (destruct (status a), (status b); done).
      lia.
    + rewrite (history_cons_None l w _ Hl).
      etrans; [exact IH | apply sublist_drop].
Qed.

(** *** Locations and identifiers along a sequence of calls *)

Definition located (w : World G) : Prop :=
  ∀ l inc, heap w !! l = Some inc → in_grid w inc.

Lemma call_located c (w w' : World G) : located w → call_post c w w' → located w'.
Proof.
  intros Hloc (_ & _ & Hgw & Hgh & _ & _ & _ & Hobj & Hnew & _) l b Hb.
  destruct (decide (l < length (heap w))%nat) as [Hlt|Hge].
  - destruct (lookup_lt_is_Some_2 _ _ Hlt) as [a Ha].
    destruct (Hobj l a Ha) as (b' & Hb' & Htouch).
    assert (b' = b) as -> by congruence.
    apply touched_static in Htouch as [(_&_&_&_&_&_&_&Hsame) _].
    destruct (Hloc l a Ha) as (x & y & Hxy & Hx & Hy).
    exists x, y. rewrite Hsame, Hgw, Hgh. done.
  - destruct (Hnew l b) as (x & y & Hxy & Hx & Hy); [lia | done|].
    exists x, y. rewrite Hgw, Hgh. done.
Qed.

Lemma worlds_located cs (w : World G) i w1 :
  ready w → located w → worlds now cs w !! i = Some w1 → located w1.
Proof.
  revert w i. induction cs as [|c cs IH]; intros w i Hready Hloc H1; simpl in *.
  - destruct i; [by injection H1 as <- | done].
  - destruct i as [|i]; simpl in *; [by injection H1 as <-|].
    destruct (call_spec c w Hready) as (em & w' & Hcall & Hpost).
    rewrite Hcall in H1.
    apply (IH w' i); [apply Hpost | by eapply call_located | done].
Qed.

(** The objects created since the heap had [base] objects are numbered from
    one, and the counter counts them. *)
Definition numbered (base : nat) (w : World G) : Prop :=
  (counter (tracker (feed w)) + base)%nat = length (heap w) ∧
  ∀ i b, heap w !! (base + i)%nat = Some b →
    identifier b = String "A" (format_04d (S i)).

Lemma call_numbered base c (w w' : World G) :
  c ≠ CallReset → numbered base w → call_post c w w' → numbered base w'.
Proof.
  intros Hc [Hcount Hids] (_ & _ & _ & _ & _ & _ & _ & Hobj & _ & Hnew).
  destruct (Hnew Hc) as [Hcount' Hids']. split; [lia|].
  intros i b Hb. destruct (decide (base + i < length (heap w))%nat) as [Hlt|Hge].
  - destruct (lookup_lt_is_Some_2 _ _ Hlt) as [a Ha].
    destruct (Hobj _ a Ha) as (b' & Hb' & Htouch).
    assert (b' = b) as -> by congruence.
    apply touched_static in Htouch as [(Hsame&_) _].
    rewrite Hsame. by eapply Hids.
  - replace (base + i)%nat
      with (length (heap w) + (i - counter (tracker (feed w))))%nat in Hb by lia.
    rewrite (Hids' _ _ Hb). do 2 f_equal. lia.
Qed.

Lemma worlds_numbered base cs (w : World G) i w1 :
  ready w → numbered base w → CallReset ∉ cs →
  worlds now cs w !! i = Some w1 → numbered base w1.
Proof.
  revert w i. induction cs as [|c cs IH]; intros w i Hready Hnum Hcs H1;
    simpl in *.
  - destruct i; [by injection H1 as <- | done].
  - destruct i as [|i]; simpl in *; [by injection H1 as <-|].
    apply not_elem_of_cons in Hcs as [Hc Hcs].
    destruct (call_spec c w Hready) as (em & w' & Hcall & Hpost).
    rewrite Hcall in H1.
    apply (IH w' i); [apply Hpost | by eapply call_numbered | done | done].
Qed.

End WithClock.

(** *** Two runs on clocks that differ by a constant

    When the clock of a second run is the clock of the first plus [delta],
    the second run does what the first does, with every date moved by
    [delta]. *)

Section Shift.
Variables (nowA nowB : nat → Z) (delta : Z).
Hypothesis Hshift : ∀ i, nowB i = nowA i + delta.

Definition shift_incident (a : Incident) : Incident :=
  mkIncident (identifier a) (timestamp a + delta) (category a) (severity a)
    (status a) (region a) (acknowledged a) (description a)
    (last_update a + delta) (autoresolve_after a) (location a).

Definition shift_world (w : World G) : World G :=
  mkWorld (shift_incident <$> heap w) (state w) (feed w) (reads w).

(** [sim R mA mB]: run from a world and from its shifted copy, [mA] and [mB]
    both raise, or return results related by [R] and worlds that are again
    a world and its shifted copy. *)
Definition sim {A} (R : A → A → Prop) (mA mB : @M G A) : Prop :=
  ∀ w, match mA w, mB (shift_world w) with
       | Some (a, wa), Some (b, wb) => R a b ∧ wb = shift_world wa
       | None, None => True
       | _, _ => False
       end.

Definition shifted (a b : Incident) : Prop := b = shift_incident a.
Definition later (t t' : Z) : Prop := t' = t + delta.

Lemma sim_ret {A} (R : A → A → Prop) a b : R a b → sim R (ret a) (ret b).
Proof. intros HR w. done. Qed.

Lemma sim_raise {A} (R : A → A → Prop) : sim R raise raise.
Proof. intros w. done. Qed.

Lemma sim_bind {A B} (R : A → A → Prop) (R' : B → B → Prop) mA mB kA kB :
  sim R mA mB → (∀ a b, R a b → sim R' (kA a) (kB b)) →
  sim R' (bind mA kA) (bind mB kB).
Proof.
  intros Hm Hk w. specialize (Hm w). unfold bind.
  destruct (mA w) as [[a wa]|], (mB (shift_world w)) as [[b wb]|]; try done.
  destruct Hm as [HR ->]. apply (Hk a b HR wa).
Qed.

Lemma sim_get_feed : sim eq get_feed get_feed.
Proof. intros w. done. Qed.

Lemma sim_set_tracker t : sim eq (set_tracker t) (set_tracker t).
Proof. intros w. done. Qed.

Lemma sim_draw {A} (f : G → A * G) : sim eq (draw f) (draw f).
Proof. intros w. unfold draw. simpl. by destruct (f (rng (state w))). Qed.

Lemma sim_load l : sim shifted (load l) (load l).
Proof.
  intros w. unfold load. simpl. rewrite list_lookup_fmap.
  by destruct (heap w !! l).
Qed.

Lemma sim_store l a b : shifted a b → sim eq (store l a) (store l b).
Proof.
  intros -> w. unfold store, shift_world. simpl. by rewrite list_fmap_insert.
Qed.

Lemma sim_alloc a b : shifted a b → sim eq (alloc a) (alloc b).
Proof.
  intros -> w. unfold alloc, shift_world. simpl.
  by rewrite length_fmap, fmap_app.
Qed.

Lemma sim_datetime_now : sim later (datetime_now nowA) (datetime_now nowB).
Proof. intros w. unfold datetime_now. simpl. split; [apply Hshift | done]. Qed.

Lemma deadline_passed_shift t a d :
  deadline_passed (t + delta) (shift_incident a) d = deadline_passed t a d.
Proof.
  unfold deadline_passed. simpl. by replace (t + delta - (last_update a + delta))
    with (t - last_update a) by lia.
Qed.

Lemma shift_advance_status t a :
  shift_incident (advance_status_at t a)
  = advance_status_at (t + delta) (shift_incident a).
Proof. unfold advance_status_at. simpl. by destruct (status a). Qed.

Ltac sim_bind R :=
  apply (sim_bind R); [|intros ? ? ?].

Lemma sim_advance_status l :
  sim eq (advance_status nowA l) (advance_status nowB l).
Proof.
  unfold advance_status.
  sim_bind shifted; [apply sim_load|].
  sim_bind later; [apply sim_datetime_now|].
  apply sim_store. unfold shifted, later in *. subst.
  symmetry. apply shift_advance_status.
Qed.

Lemma sim_can_autoresolve l :
  sim eq (can_autoresolve nowA l) (can_autoresolve nowB l).
Proof.
  unfold can_autoresolve.
  sim_bind shifted; [apply sim_load|]. unfold shifted in *. subst. simpl.
  destruct (autoresolve_after a) as [d|]; [|by apply sim_ret].
  sim_bind later; [apply sim_datetime_now|]. unfold later in *. subst.
  apply sim_ret. symmetry. apply deadline_passed_shift.
Qed.

Lemma sim_new_identifier : sim eq new_identifier new_identifier.
Proof.
  unfold new_identifier. sim_bind (@eq IncidentsFeed); [apply sim_get_feed|]. subst.
  sim_bind (@eq unit); [apply sim_set_tracker|]. by apply sim_ret.
Qed.

Lemma sim_tracker_add l : sim eq (tracker_add l) (tracker_add l).
Proof.
  unfold tracker_add. sim_bind shifted; [apply sim_load|].
  unfold shifted in *. subst. simpl.
  sim_bind (@eq IncidentsFeed); [apply sim_get_feed|]. subst.
  apply sim_set_tracker.
Qed.

Lemma sim_resolved_keys items : sim eq (resolved_keys items) (resolved_keys items).
Proof.
  induction items as [|[key l] items IH]; simpl; [by apply sim_ret|].
  sim_bind shifted; [apply sim_load|]. unfold shifted in *. subst.
  sim_bind (@eq (list string)); [apply IH|]. subst. by apply sim_ret.
Qed.

Lemma sim_purge : sim eq purge purge.
Proof.
  unfold purge. sim_bind (@eq IncidentsFeed); [apply sim_get_feed|]. subst.
  sim_bind (@eq (list string)); [apply sim_resolved_keys|]. subst.
  sim_bind (@eq IncidentsFeed); [apply sim_get_feed|]. subst.
  apply sim_set_tracker.
Qed.

Lemma sim_integers low high : sim eq (integers low high) (integers low high).
Proof.
  unfold integers. destruct (low <? high); [apply sim_draw | apply sim_raise].
Qed.

Lemma sim_poisson lam : sim eq (poisson lam) (poisson lam).
Proof.
  unfold poisson. destruct (Qltb lam 0); [apply sim_raise | apply sim_draw].
Qed.

Lemma sim_make_incident : sim eq (_make_incident nowA) (_make_incident nowB).
Proof.
  unfold _make_incident.
  sim_bind (@eq string); [apply sim_new_identifier|]. subst.
  sim_bind (@eq Z); [apply sim_integers|]. subst.
  destruct (py_index severities b0); [|apply sim_raise].
  sim_bind (@eq string); [apply sim_draw|]. subst.
  sim_bind (@eq string); [apply sim_draw|]. subst.
  sim_bind (@eq IncidentsFeed); [apply sim_get_feed|]. subst.
  sim_bind (@eq Q); [apply sim_draw|]. subst.
  sim_bind (@eq Z); [apply sim_integers|]. subst.
  sim_bind (@eq Z); [apply sim_integers|]. subst.
  sim_bind later; [apply sim_datetime_now|].
  sim_bind later; [apply sim_datetime_now|]. unfold later in *. subst.
  sim_bind (@eq loc); [by apply sim_alloc|]. subst.
  sim_bind (@eq unit); [apply sim_tracker_add|]. by apply sim_ret.
Qed.

Lemma sim_arrivals n : sim eq (arrivals nowA n) (arrivals nowB n).
Proof.
  induction n as [|n IH]; simpl; [by apply sim_ret|].
  sim_bind (@eq loc); [apply sim_make_incident|]. subst.
  sim_bind (@eq (list loc)); [apply IH|]. subst. by apply sim_ret.
Qed.

Lemma sim_progress t l :
  sim eq (progress nowA t l) (progress nowB (t + delta) l).
Proof.
  assert (Hadv :
    sim eq
      (bind (advance_status nowA l)
         (λ _, bind (load l)
            (λ inc, bind (store l (set_last_update t inc)) (λ _, ret [l]))))
      (bind (advance_status nowB l)
         (λ _, bind (load l)
            (λ inc, bind (store l (set_last_update (t + delta) inc))
               (λ _, ret [l]))))).
  { sim_bind (@eq unit); [apply sim_advance_status|].
    sim_bind shifted; [apply sim_load|]. unfold shifted in *. subst.
    sim_bind (@eq unit); [by apply sim_store|]. by apply sim_ret. }
  unfold progress.
  sim_bind shifted; [apply sim_load|]. unfold shifted in *. subst. simpl.
  destruct (decide (status a = RESOLVED)); [by apply sim_ret|].
  sim_bind (@eq bool); [apply sim_can_autoresolve|]. subst.
  destruct b.
  - sim_bind shifted; [apply sim_load|]. unfold shifted in *. subst.
    sim_bind (@eq unit); [by apply sim_store|]. by apply sim_ret.
  - sim_bind (@eq Q); [apply sim_draw|]. subst.
    sim_bind shifted; [apply sim_load|]. unfold shifted in *. subst. simpl.
    destruct ((bool_decide (status a0 = NEW)
               || bool_decide (status a0 = ACKNOWLEDGED)) && Qltb b (3 # 10));
      [apply Hadv|].
    destruct (bool_decide (status a0 = IN_PROGRESS) && Qltb b (15 # 100));
      [apply Hadv | by apply sim_ret].
Qed.

Lemma sim_sweep t ls : sim eq (sweep nowA t ls) (sweep nowB (t + delta) ls).
Proof.
  induction ls as [|l ls IH]; simpl; [by apply sim_ret|].
  sim_bind (@eq (list loc)); [apply sim_progress|]. subst.
  sim_bind (@eq (list loc)); [apply IH|]. subst. by apply sim_ret.
Qed.

Lemma sim_step : sim eq (step nowA) (step nowB).
Proof.
  unfold step. sim_bind (@eq IncidentsFeed); [apply sim_get_feed|]. subst.
  sim_bind (@eq nat); [apply sim_poisson|]. subst.
  sim_bind (@eq (list loc)); [apply sim_arrivals|]. subst.
  sim_bind later; [apply sim_datetime_now|]. unfold later in *. subst.
  sim_bind (@eq (list loc));
    [unfold iter_active; sim_bind (@eq IncidentsFeed);
       [apply sim_get_feed | subst; by apply sim_ret]|]. subst.
  sim_bind (@eq (list loc)); [apply sim_sweep|]. subst.
  sim_bind (@eq unit); [apply sim_purge|]. by apply sim_ret.
Qed.

Lemma snapshot_shift (w : World G) em :
  snapshot (shift_world w) em = shift_incident <$> snapshot w em.
Proof.
  unfold snapshot, shift_world, omap. simpl.
  induction em as [|l em IH]; simpl; [done|].
  rewrite IH, list_lookup_fmap. by destruct (heap w !! l).
Qed.

Lemma signature_shift a : signature (shift_incident a) = signature a.
Proof. done. Qed.

Lemma run_steps_shift n (w : World G) :
  match run_steps nowA n w, run_steps nowB n (shift_world w) with
  | Some (ra, wa), Some (rb, wb) =>
      map (map signature) ra = map (map signature) rb ∧ wb = shift_world wa
  | None, None => True
  | _, _ => False
  end.
Proof.
  revert w. induction n as [|n IH]; intros w; simpl; [done|].
  pose proof (sim_step w) as Hstep.
  destruct (step nowA w) as [[ea wa]|], (step nowB (shift_world w)) as [[eb wb]|];
    try done.
  destruct Hstep as [<- ->]. specialize (IH wa).
  destruct (run_steps nowA n wa) as [[ra wa']|],
    (run_steps nowB n (shift_world wa)) as [[rb wb']|]; try done.
  destruct IH as [Hsig ->]. split; [|done].
  rewrite snapshot_shift, !map_cons. f_equal; [|done].
  change (map signature) with (fmap (M:=list) signature).
  rewrite <- list_fmap_compose.
  apply list_fmap_ext. intros i a _. apply signature_shift.
Qed.

End Shift.

Lemma run_steps_returns now n (w : World G) :
  ready w → is_Some (run_steps now n w).
Proof.
  revert w. induction n as [|n IH]; intros w Hready; simpl; [by eexists|].
  destruct (step_spec now w Hready) as (em & w' & -> & Hpost).
  destruct (IH w') as [[r w''] ->]; [apply Hpost | by eexists].
Qed.

Lemma IncidentsFeed_new_ready s cfg mc :
  valid_FeedConfig cfg → valid_MapConfig mc →
  ready (IncidentsFeed_new (G:=G) s cfg mc).
Proof.
  intros Hcfg (Hgrid & _). split; [|split; [done|]].
  - constructor; simpl; [constructor | |];
      intros key l Hin; by apply elem_of_nil in Hin.
  - simpl. by destruct (grid mc).
Qed.

End Proofs.

(** ** Claims *)

(** C7. Whatever the levels and the generator state a [MetricsFeed] starts
    from (the baselines 55.0 and 48.0 included), every sample of a run of
    consecutive [sample] calls has [cpu_percent] in [1, 98] and
    [memory_percent] in [5, 95]. *)
Theorem C7_samples_bounded {G} `{Generator G} (ts : nat → Q) (n : nat)
    (st : FeedState G) (self : MetricsFeed) :
  Forall in_bounds (samples ts n st self) ∧
  Forall in_bounds (samples ts n (FeedState_new (seed st)) MetricsFeed_new).
Proof.
  assert (Hall : ∀ n ts (st : FeedState G) self,
             Forall in_bounds (samples ts n st self)).
  { clear. intros n. induction n as [|n IH]; intros ts st self; simpl.
    - constructor.
    - pose proof (sample_in_bounds (ts O) st self) as [Hb _].
      destruct (sample (ts O) st self) as [[smp st'] self'].
      constructor; [exact Hb | apply IH]. }
  split; apply Hall.
Qed.

(** C4. A call of [step] on a well-formed feed returns; and when a call of
    [step] returns, whatever the world it started from, no incident of the
    tracker's [active] mapping has status RESOLVED. *)
Theorem C4_no_resolved_after_step {G} `{Generator G} (now : nat → Z)
    (w : World G) :
  (ready w → is_Some (step now w)) ∧
  ∀ emitted w', step now w = Some (emitted, w') →
    ∀ key l inc, (key, l) ∈ active (tracker (feed w')) →
      heap w' !! l = Some inc → status inc ≠ RESOLVED.
Proof.
  split.
  { intros Hready. destruct (step_spec now w Hready) as (em & w' & -> & _).
    by eexists. }
  unfold step. intros emitted w' Hrun.
  apply bind_Some in Hrun as (self & w1 & _ & Hrun).
  apply bind_Some in Hrun as (events & w2 & _ & Hrun).
  apply bind_Some in Hrun as (created & w3 & _ & Hrun).
  apply bind_Some in Hrun as (t & w4 & _ & Hrun).
  apply bind_Some in Hrun as (incidents & w5 & _ & Hrun).
  apply bind_Some in Hrun as (progressed & w6 & _ & Hrun).
  apply bind_Some in Hrun as (u & w7 & Hpurge & Hret).
  injection Hret as _ <-.
  apply purge_spec in Hpurge. apply Hpurge.
Qed.

(** C3. A tracked incident that is not resolved and whose deadline has passed
    when [step] is called (on a clock that does not run backwards) is in the
    list the call returns, with status RESOLVED when the call returns,
    whatever its status was.  The check comes first: the loop body, run on
    such an incident, resolves it and leaves the generator as it found it. *)
Theorem C3_autoresolve_has_priority {G} `{Generator G} (now : nat → Z)
    (w : World G) (key : string) (l : loc) (a : Incident) (d : Q) :
  ready w → monotone_clock now →
  (key, l) ∈ active (tracker (feed w)) → heap w !! l = Some a →
  status a ≠ RESOLVED → autoresolve_after a = Some d →
  deadline_passed (now (reads w)) a d = true →
  (∃ emitted w' b,
     step now w = Some (emitted, w') ∧ l ∈ emitted ∧
     heap w' !! l = Some b ∧ status b = RESOLVED) ∧
  (∀ (t : Z) (w0 : World G),
     heap w0 !! l = Some a → deadline_passed (now (reads w0)) a d = true →
     ∃ w1, progress now t l w0 = Some ([l], w1) ∧
           state w1 = state w0 ∧
           (status <$> heap w1 !! l) = Some RESOLVED).
Proof.
  intros Hready Hclock Hin Hl Hres Hd Hpass. split.
  - destruct (step_due now w key l a d) as (em & w' & t & Hstep & Hem & Hb);
      try done.
    exists em, w', (set_last_update t (set_status RESOLVED a)). done.
  - intros t w0 Hl0 Hpass0. eexists. split; [by eapply progress_due|].
    split; [done|]. simpl.
    rewrite list_lookup_insert_eq; [done | by eapply lookup_lt_Some].
Qed.

(** C10. Across a call of [step], an incident keeps its identifier,
    timestamp, category, severity, region, description, auto-resolve delay
    and location; its [acknowledged] flag changes only in a move from NEW to
    ACKNOWLEDGED, where it becomes [True]; and an incident that goes to
    RESOLVED in the call is in the returned list and differs from what it
    was in [status] and [last_update] only: auto-resolved from NEW with
    [acknowledged] false, it is emitted RESOLVED with [acknowledged] false. *)
Theorem C10_step_frame {G} `{Generator G} (now : nat → Z) (w : World G) :
  ready w →
  ∃ emitted w',
    step now w = Some (emitted, w') ∧
    ∀ l a, heap w !! l = Some a →
      ∃ b, heap w' !! l = Some b ∧ same_static a b ∧
        (acknowledged b = acknowledged a ∨
         (status a = NEW ∧ status b = ACKNOWLEDGED ∧ acknowledged b = true)) ∧
        (status a ≠ RESOLVED → status b = RESOLVED →
           l ∈ emitted ∧ ∃ t, b = set_last_update t (set_status RESOLVED a)) ∧
        (status a = NEW → acknowledged a = false → status b = RESOLVED →
           acknowledged b = false).
Proof.
  intros Hready. destruct (step_spec now w Hready) as (em & w' & Hstep & Hpost).
  exists em, w'. split; [done|]. intros l a Hl.
  destruct Hpost as (_ & _ & _ & _ & _ & _ & news & progressed & t & Hem & _ & _
                     & _ & _ & _ & _ & _ & Hobj).
  destruct (Hobj l a) as [Hkeep Hmove]; [by apply lookup_app_l_Some|].
  set (tracked := (active (tracker (feed w))).*2
                  ++ seq (length (heap w)) (length news)) in *.
  destruct (decide (l ∈ tracked)) as [Hin|Hnotin].
  - destruct (Hmove Hin) as (b & e & Hb & Hout & Hiff). exists b.
    split; [done|]. split; [by eapply outcome_static|].
    split; [by eapply outcome_acknowledged|].
    assert (Hres : status a ≠ RESOLVED → status b = RESOLVED →
              l ∈ em ∧ b = set_last_update t (set_status RESOLVED a)).
    { intros Ha Hbs.
      destruct (outcome_resolved _ _ _ _ _ _ _ Hout Ha Hbs) as [-> ->].
      split; [|done]. rewrite Hem. apply elem_of_app. right. by apply Hiff. }
    split.
    + intros Ha Hbs. destruct (Hres Ha Hbs) as [? ?]. eauto.
    + intros Ha Hack Hbs. destruct (Hres ltac:(by rewrite Ha) Hbs) as [_ ->].
      done.
  - exists a. split; [by apply Hkeep|]. split; [apply same_static_refl|].
    split; [by left|]. split; [done|]. intros Ha _ Hbs. congruence.
Qed.

(** C2, as the code has it.  The list [step] returns holds the incident
    objects themselves, not copies.  Its first entries are the incidents the
    call created, in creation order, and what follows is what the sweep
    emitted.  An incident created in the call has status NEW when the call
    returns exactly when the sweep of that call did not emit it; otherwise it
    is in the list twice and its status is ACKNOWLEDGED or RESOLVED in both
    entries. *)
Theorem C2_emitted_entries_are_live {G} `{Generator G} (now : nat → Z)
    (w : World G) :
  ready w →
  ∃ emitted w',
    step now w = Some (emitted, w') ∧
    let k := (length (heap w') - length (heap w))%nat in
    take k emitted = seq (length (heap w)) k ∧
    NoDup (drop k emitted) ∧
    ∀ l, (length (heap w) ≤ l < length (heap w'))%nat →
      ∃ b, heap w' !! l = Some b ∧
        (status b = NEW ↔ l ∉ drop k emitted) ∧
        (l ∈ drop k emitted → status b = ACKNOWLEDGED ∨ status b = RESOLVED).
Proof.
  intros Hready. destruct (step_spec now w Hready) as (em & w' & Hstep & Hpost).
  exists em, w'. split; [done|].
  destruct Hpost as (_ & _ & _ & _ & _ & _ & news & progressed & t & Hem & Hnd & _
                     & _ & Hlen & Hnew & _ & _ & Hobj).
  replace (length (heap w') - length (heap w))%nat with (length news) by lia.
  cbv zeta.
  assert (Hk : length news = length (seq (length (heap w)) (length news)))
    by by rewrite length_seq.
  rewrite Hem, (take_app_length' _ _ _ Hk), (drop_app_length' _ _ _ Hk).
  split; [done|]. split; [done|]. intros l Hl.
  destruct (lookup_lt_is_Some_2 news (l - length (heap w))) as [a Ha]; [lia|].
  destruct (Hnew _ _ Ha) as (_ & Hsa & _).
  destruct (Hobj l a) as [_ Hmove].
  { rewrite lookup_app_r; [done | lia]. }
  destruct Hmove as (b & e & Hb & Hout & Hiff).
  { apply elem_of_app. right. apply elem_of_seq. lia. }
  exists b. split; [done|].
  destruct (outcome_rank _ _ _ _ _ _ _ Hout) as (_ & Hlt & _).
  destruct e.
  - assert (Hin : l ∈ progressed) by by apply Hiff.
    specialize (Hlt eq_refl). rewrite Hsa in Hlt. simpl in Hlt. split.
    + split; [intros Hb0; rewrite Hb0 in Hlt; simpl in Hlt; lia | done].
    + intros _. inversion Hout as [d i ? ? ? ? Hbeq|i ? ? ? Hbeq|]; subst b.
      * by right.
      * left. unfold advance_status_at. by rewrite Hsa.
  - apply outcome_stay_eq in Hout as ->. split.
    + split; [intros _ Hin; by apply Hiff in Hin | done].
    + intros Hin. by apply Hiff in Hin.
Qed.

(** C6. Along any sequence of calls on a feed, every call returns, and the
    statuses an incident goes through, repetitions dropped, are a
    subsequence of NEW, ACKNOWLEDGED, IN_PROGRESS, RESOLVED.
    [advance_status] moves to the next status and stops at RESOLVED.  Across
    one call the status never goes back, and it goes forward by more than one
    step only to RESOLVED, on the auto-resolve path: the incident has a
    delay, and at one of the clock readings of that call the time since its
    last update had reached the delay, as the comparison of
    [can_autoresolve] finds it. *)
Theorem C6_status_monotone {G} `{Generator G} (now : nat → Z)
    (cs : list Call) (w : World G) (l : loc) :
  ready w →
  length (worlds now cs w) = S (length cs) ∧
  changes (history l (worlds now cs w)) `sublist_of` lifecycle ∧
  (∀ t a, rank (status (advance_status_at t a))
          = Nat.min 3 (S (rank (status a)))) ∧
  (∀ i w1 w2 a b,
     worlds now cs w !! i = Some w1 → worlds now cs w !! S i = Some w2 →
     heap w1 !! l = Some a → heap w2 !! l = Some b →
     (rank (status a) ≤ rank (status b))%nat ∧
     ((rank (status b) ≤ S (rank (status a)))%nat ∨
      (status b = RESOLVED ∧
       ∃ d j, autoresolve_after a = Some d ∧
              (reads w1 ≤ j < reads w2)%nat ∧
              deadline_reached (now j) a d))).
Proof.
  intros Hready. split; [by apply worlds_length|]. split.
  { etrans; [by apply history_sublist | apply sublist_drop]. }
  split; [apply advance_status_rank|].
  intros i w1 w2 a b H1 H2 Ha Hb.
  destruct (worlds_adjacent now cs w i w1 w2 Hready H1 H2) as (_ & c & _ & Hpost).
  destruct Hpost as (_ & _ & _ & _ & _ & _ & _ & Hobj & _).
  destruct (Hobj l a Ha) as (b' & Hb' & Htouch).
  assert (b' = b) as -> by congruence.
  destruct Htouch as [->|(t & e & Hout)]; [split; [lia | left; lia]|].
  destruct (outcome_rank _ _ _ _ _ _ _ Hout) as (Hle & _ & _).
  split; [done|]. by eapply outcome_skip.
Qed.

(** C8. On a feed built from configurations that [FeedConfig] and
    [MapConfig] accept (so both grid dimensions exceed 1), every call returns,
    every incident the feed has created has a location [(x, y)] with
    [0 <= x < width] and [0 <= y < height], and no later call changes the
    location of an incident. *)
Theorem C8_location_in_grid {G} `{Generator G} (now : nat → Z) (s : Z)
    (cfg : FeedConfig) (mc : MapConfig) (cs : list Call) :
  valid_FeedConfig cfg → valid_MapConfig mc →
  let ws := worlds now cs (IncidentsFeed_new s cfg mc) in
  length ws = S (length cs) ∧
  (∀ i w l inc, ws !! i = Some w → heap w !! l = Some inc →
     ∃ x y, location inc = Some (x, y) ∧
            0 ≤ x < (grid mc).1 ∧ 0 ≤ y < (grid mc).2) ∧
  (∀ i j w1 w2 l a, (i ≤ j)%nat → ws !! i = Some w1 → ws !! j = Some w2 →
     heap w1 !! l = Some a →
     ∃ b, heap w2 !! l = Some b ∧ location b = location a).
Proof.
  intros Hcfg Hmc ws.
  pose proof (IncidentsFeed_new_ready (G:=G) s cfg mc Hcfg Hmc) as Hready.
  split; [by apply worlds_length|]. split.
  - intros i w l inc Hw Hl.
    assert (Hloc : located w).
    { eapply worlds_located; [exact Hready | | exact Hw].
      intros l0 inc0 Hl0. simpl in Hl0. by rewrite lookup_nil in Hl0. }
    destruct (worlds_evolves now cs _ 0 i (IncidentsFeed_new s cfg mc) w Hready)
      as (_ & _ & _ & Hgw & Hgh & _); [lia | by destruct cs | done|].
    destruct (Hloc l inc Hl) as (x & y & Hxy & Hx & Hy).
    exists x, y. rewrite Hgw, Hgh in *. done.
  - intros i j w1 w2 l a Hij H1 H2 Ha.
    destruct (worlds_evolves now cs _ i j w1 w2 Hready Hij H1 H2)
      as (_ & _ & _ & _ & _ & _ & _ & _ & Hobj).
    destruct (Hobj l a Ha) as (b & Hb & (_&_&_&_&_&_&_&Hsame) & _). eauto.
Qed.

(** C5, as the code has it.  From a feed whose tracker is new (the feed was
    just built, or [reset()] was just called), along any sequence of [step]
    and [_make_incident] calls, the [N]-th incident created since then has
    the identifier made of the letter A and of [N] in decimal, padded with
    zeros to four digits: the digits read back as [N], and there are four of
    them up to 9999.  Purges do not matter. *)
Theorem C5_identifiers_count_from_tracker {G} `{Generator G} (now : nat → Z)
    (cs : list Call) (w0 : World G) :
  ready w0 → counter (tracker (feed w0)) = 0%nat → CallReset ∉ cs →
  length (worlds now cs w0) = S (length cs) ∧
  ∀ i w N inc,
    worlds now cs w0 !! i = Some w →
    heap w !! (length (heap w0) + N)%nat = Some inc →
    identifier inc = String "A" (format_04d (S N)) ∧
    parse_nat (format_04d (S N)) = Some (S N) ∧
    (4 ≤ String.length (format_04d (S N)))%nat ∧
    (Z.of_nat (S N) ≤ 9999 → String.length (format_04d (S N)) = 4%nat).
Proof.
  intros Hready Hzero Hcs. split; [by apply worlds_length|].
  intros i w N inc Hw Hinc.
  assert (Hnum : numbered (length (heap w0)) w0).
  { split; [lia|]. intros j b Hb. apply lookup_lt_Some in Hb. lia. }
  pose proof (worlds_numbered now _ cs w0 i w Hready Hnum Hcs Hw) as [_ Hids].
  split; [by eapply Hids|]. split; [apply parse_format_04d|].
  split; [apply format_04d_length | apply format_04d_four].
Qed.

(** C9. For a [FeedState] built with seed [s], in whatever state [g] its
    generator is: [reset()] puts back the state of a new [FeedState(seed=s)],
    so that what is drawn next is what a new one draws; [reset(s')] puts back
    the state of a new [FeedState(seed=s')] and stores [s'], so that a later
    [reset()] replays [s']. *)
Theorem C9_reset_replays {G} `{Generator G} (s s' : Z) (g g' : G) :
  let st := mkFeedState s g in
  FeedState_reset None st = FeedState_new s ∧
  (∀ A (draws : FeedState G → A),
     draws (FeedState_reset None st) = draws (FeedState_new s)) ∧
  (∀ ts n self, samples ts n (FeedState_reset None st) self
                = samples ts n (FeedState_new s) self) ∧
  FeedState_reset (Some s') st = FeedState_new s' ∧
  seed (FeedState_reset (Some s') st) = s' ∧
  FeedState_reset None (mkFeedState (seed (FeedState_reset (Some s') st)) g')
  = FeedState_new s'.
Proof. by repeat split. Qed.

(** C1, as the code has it.  Two feeds built with the same seed and the same
    accepted configuration, driven through the same number of [step] calls
    on clocks that differ by a constant (the same time elapses between any
    two readings), return from every call and emit the same sequences of
    identifiers, severities, categories, regions and locations. *)
Theorem C1_same_trace_on_shifted_clocks {G} `{Generator G}
    (nowA nowB : nat → Z) (delta : Z) (s : Z) (cfg : FeedConfig)
    (mc : MapConfig) (n : nat) :
  valid_FeedConfig cfg → valid_MapConfig mc →
  (∀ i, nowB i = nowA i + delta) →
  is_Some (trace nowA n (IncidentsFeed_new s cfg mc)) ∧
  trace nowA n (IncidentsFeed_new s cfg mc)
  = trace nowB n (IncidentsFeed_new s cfg mc).
Proof.
  intros Hcfg Hmc Hshift. unfold trace.
  pose proof (IncidentsFeed_new_ready (G:=G) s cfg mc Hcfg Hmc) as Hready.
  destruct (run_steps_returns nowA n _ Hready) as [[ra wa] Ha].
  pose proof (run_steps_shift nowA nowB delta Hshift n
                (IncidentsFeed_new s cfg mc)) as Hsim.
  change (shift_world delta (IncidentsFeed_new s cfg mc))
    with (IncidentsFeed_new (G:=G) s cfg mc) in Hsim.
  rewrite Ha in Hsim |- *.
  destruct (run_steps nowB n (IncidentsFeed_new s cfg mc)) as [[rb wb]|];
    [|done].
  destruct Hsim as [Hsig _]. simpl. split; [by eexists | by rewrite Hsig].
Qed.

(** ** The claims on concrete runs *)

Lemma cfg_default_valid : valid_FeedConfig cfg_default.
Proof. repeat split. by eexists. Defined.

Lemma map_default_valid : valid_MapConfig map_default.
Proof. split; [by eexists|]. by repeat split. Defined.

Lemma cfg_test_valid : valid_FeedConfig cfg_test.
Proof. repeat split. by eexists. Defined.

Lemma map_test_valid : valid_MapConfig map_test.
Proof. split; [by eexists|]. by repeat split. Defined.

Lemma clock_test_monotone : monotone_clock clock_test.
Proof.
  intros i j Hij. unfold clock_test.
  destruct (Nat.ltb_spec i 2), (Nat.ltb_spec j 2); lia.
Defined.

Lemma new_ready_default s :
  ready (IncidentsFeed_new (G:=Z) s cfg_default map_default).
Proof.
  apply IncidentsFeed_new_ready; [apply cfg_default_valid | apply map_default_valid].
Defined.

Lemma world_test_ready : ready world_test.
Proof.
  apply (worlds_ready clock_test [CallMake]
           (IncidentsFeed_new 999 cfg_test map_test) 1).
  - apply IncidentsFeed_new_ready; [apply cfg_test_valid | apply map_test_valid].
  - vm_compute. reflexivity.
Defined.

(** Same seed, same default configuration, two calls of [step].  The first
    call creates A0001, with a delay of 75 seconds.  On a clock that stands
    still the second call emits nothing; on a clock that has moved 200
    seconds between the calls it resolves A0001 and emits it. *)
Lemma C1_counterexample :
  ¬ seed_fixes_trace (G:=Z) (Script.seed_of (one_arrival ++ quiet))
      cfg_default map_default.
Proof.
  intros Hall. specialize (Hall clock_still clock_pause 2%nat).
  vm_compute in Hall. discriminate.
Qed.

Lemma C1_witness :
  valid_FeedConfig cfg_default ∧ valid_MapConfig map_default ∧
  (∀ i, (λ i, clock_pause i + 5000000) i = clock_pause i + 5000000) ∧
  trace (G:=Z) clock_pause 2
    (IncidentsFeed_new (Script.seed_of (one_arrival ++ quiet))
       cfg_default map_default)
  = trace (λ i, clock_pause i + 5000000) 2
      (IncidentsFeed_new (Script.seed_of (one_arrival ++ quiet))
         cfg_default map_default).
Proof.
  split; [apply cfg_default_valid|]. split; [apply map_default_valid|].
  split; [reflexivity|].
  apply (C1_same_trace_on_shifted_clocks clock_pause
           (λ i, clock_pause i + 5000000) 5000000 _ cfg_default map_default 2);
    [apply cfg_default_valid | apply map_default_valid | reflexivity].
Defined.

(** One call of [step] creates A0001 and its sweep, with the roll 0.10,
    acknowledges it: the list returned is that incident twice, and its
    creation entry has status ACKNOWLEDGED on return. *)
Lemma C2_counterexample :
  ¬ creation_entries_new (G:=Z) clock_still
      (IncidentsFeed_new (Script.seed_of one_acknowledged)
         cfg_default map_default).
Proof.
  intros Hall. unfold creation_entries_new in Hall.
  destruct (step clock_still
              (IncidentsFeed_new (Script.seed_of one_acknowledged)
                 cfg_default map_default))
    as [[em w']|] eqn:Hstep; [|by vm_compute in Hstep].
  specialize (Hall em w' eq_refl 0%nat 0%nat).
  vm_compute in Hstep. injection Hstep as <- <-.
  epose proof (Hall _ ltac:(vm_compute; lia) eq_refl eq_refl) as Hbad.
  vm_compute in Hbad. discriminate.
Qed.

Lemma C2_witness :
  ready (IncidentsFeed_new (G:=Z) (Script.seed_of one_acknowledged)
           cfg_default map_default) ∧
  ∃ emitted w',
    step clock_still
      (IncidentsFeed_new (Script.seed_of one_acknowledged)
         cfg_default map_default)
    = Some (emitted, w') ∧
    take 1 emitted = [0%nat] ∧ drop 1 emitted = [0%nat] ∧
    (status <$> heap w' !! 0%nat) = Some ACKNOWLEDGED.
Proof.
  split; [apply new_ready_default|].
  destruct (C2_emitted_entries_are_live clock_still _
              (new_ready_default (Script.seed_of one_acknowledged)))
    as (em & w' & Hstep & _).
  exists em, w'. split; [exact Hstep|].
  vm_compute in Hstep. injection Hstep as <- <-. by vm_compute.
Defined.

Lemma C3_witness :
  ready world_test ∧ monotone_clock clock_test ∧
  ("A0001", 0%nat) ∈ active (tracker (feed world_test)) ∧
  (status <$> heap world_test !! 0%nat) = Some NEW ∧
  (∃ a d, heap world_test !! 0%nat = Some a ∧ autoresolve_after a = Some d ∧
          deadline_passed (clock_test (reads world_test)) a d = true) ∧
  ∃ emitted w' b,
    step clock_test world_test = Some (emitted, w') ∧ 0%nat ∈ emitted ∧
    heap w' !! 0%nat = Some b ∧ status b = RESOLVED.
Proof.
  split; [apply world_test_ready|]. split; [apply clock_test_monotone|].
  split; [vm_compute; apply list_elem_of_here|].
  split; [vm_compute; reflexivity|].
  destruct (heap world_test !! 0%nat) as [a|] eqn:Ha; [|by vm_compute in Ha].
  destruct (autoresolve_after a) as [d|] eqn:Hd;
    [|vm_compute in Ha; injection Ha as <-; by vm_compute in Hd].
  assert (Hpass : deadline_passed (clock_test (reads world_test)) a d = true).
  { vm_compute in Ha. injection Ha as <-. vm_compute in Hd. injection Hd as <-.
    vm_compute. reflexivity. }
  split; [by exists a, d|].
  refine (proj1 (C3_autoresolve_has_priority clock_test world_test "A0001" 0 a d
                   world_test_ready clock_test_monotone _ Ha _ Hd Hpass)).
  - vm_compute. apply list_elem_of_here.
  - vm_compute in Ha. injection Ha as <-. done.
Defined.

Lemma C4_witness :
  ready world_test ∧
  ∃ emitted w',
    step clock_test world_test = Some (emitted, w') ∧
    ∀ key l inc, (key, l) ∈ active (tracker (feed w')) →
      heap w' !! l = Some inc → status inc ≠ RESOLVED.
Proof.
  split; [apply world_test_ready|].
  destruct (C4_no_resolved_after_step clock_test world_test) as [Hret Hpurged].
  destruct (Hret world_test_ready) as [[em w'] Hstep].
  exists em, w'. split; [exact Hstep | exact (Hpurged em w' Hstep)].
Defined.

(** A call of [step] creates A0001, [reset()] is called, and the next call
    of [step] creates the second incident of the feed: its identifier is
    A0001 again, not A0002. *)
Lemma C5_counterexample :
  ¬ identifiers_count_creations (G:=Z) clock_still
      [CallStep; CallReset; CallStep]
      (Script.seed_of (one_arrival ++ one_arrival)) cfg_default map_default.
Proof.
  intros Hall. unfold identifiers_count_creations in Hall.
  epose proof (Hall 3%nat _ 1%nat _ ltac:(vm_compute; reflexivity) eq_refl)
    as Hbad.
  vm_compute in Hbad. discriminate.
Qed.

Lemma C5_witness :
  ready (IncidentsFeed_new (G:=Z) (Script.seed_of (one_arrival ++ one_arrival))
           cfg_default map_default) ∧
  counter (tracker (feed (IncidentsFeed_new (G:=Z)
                            (Script.seed_of (one_arrival ++ one_arrival))
                            cfg_default map_default)))
  = 0%nat ∧
  (CallReset ∉ [CallStep; CallMake; CallStep]) ∧
  ∀ i w N inc,
    worlds clock_still [CallStep; CallMake; CallStep]
      (IncidentsFeed_new (Script.seed_of (one_arrival ++ one_arrival))
         cfg_default map_default) !! i = Some w →
    heap w !! N = Some inc →
    identifier inc = String "A" (format_04d (S N)).
Proof.
  assert (Hcs : CallReset ∉ [CallStep; CallMake; CallStep])
    by (intros Hin; by repeat (apply elem_of_cons in Hin as [Hin|Hin]; [done|]);
        apply elem_of_nil in Hin).
  split; [apply new_ready_default|]. split; [reflexivity|]. split; [exact Hcs|].
  intros i w N inc Hw Hinc.
  exact (proj1 (proj2 (C5_identifiers_count_from_tracker clock_still
                         [CallStep; CallMake; CallStep] _
                         (new_ready_default _) eq_refl Hcs)
                  i w N inc Hw Hinc)).
Defined.

Lemma C6_witness :
  ready world_test ∧
  changes (history 0 (worlds clock_test [CallStep; CallStep] world_test))
  `sublist_of` lifecycle ∧
  ∃ w2 a b d j,
    worlds clock_test [CallStep; CallStep] world_test !! 1%nat = Some w2 ∧
    heap world_test !! 0%nat = Some a ∧ heap w2 !! 0%nat = Some b ∧
    status a = NEW ∧ status b = RESOLVED ∧
    autoresolve_after a = Some d ∧ (reads world_test ≤ j < reads w2)%nat ∧
    deadline_reached (clock_test j) a d.
Proof.
  destruct (C6_status_monotone clock_test [CallStep; CallStep] world_test 0
              world_test_ready) as (_ & Hsub & _ & Hcall).
  split; [apply world_test_ready|]. split; [exact Hsub|].
  destruct (worlds clock_test [CallStep; CallStep] world_test !! 1%nat)
    as [w2|] eqn:H2; [|by vm_compute in H2].
  destruct (heap world_test !! 0%nat) as [a|] eqn:Ha; [|by vm_compute in Ha].
  destruct (heap w2 !! 0%nat) as [b|] eqn:Hb;
    [|vm_compute in H2; injection H2 as <-; by vm_compute in Hb].
  assert (H1 : worlds clock_test [CallStep; CallStep] world_test !! 0%nat
               = Some world_test) by (vm_compute; reflexivity).
  assert (Hsa : status a = NEW)
    by (vm_compute in Ha; injection Ha as <-; reflexivity).
  assert (Hsb : status b = RESOLVED).
  { vm_compute in H2. injection H2 as <-.
    vm_compute in Hb. injection Hb as <-. reflexivity. }
  destruct (Hcall 0%nat world_test w2 a b H1 H2 Ha Hb)
    as [_ [Hnext|(_ & d & j & Hd & Hj & Hreached)]].
  - exfalso. rewrite Hsa, Hsb in Hnext. simpl in Hnext. lia.
  - exists w2, a, b, d, j.
    exact (conj eq_refl (conj eq_refl (conj Hb (conj Hsa (conj Hsb
             (conj Hd (conj Hj Hreached))))))).
Defined.

Lemma C8_witness :
  valid_FeedConfig cfg_test ∧ valid_MapConfig map_test ∧
  ∀ i w l inc,
    worlds (G:=Z) clock_test [CallMake; CallStep; CallStep]
      (IncidentsFeed_new 999 cfg_test map_test) !! i = Some w →
    heap w !! l = Some inc →
    ∃ x y, location inc = Some (x, y) ∧ 0 ≤ x < 12 ∧ 0 ≤ y < 8.
Proof.
  split; [apply cfg_test_valid|]. split; [apply map_test_valid|].
  exact (proj1 (proj2 (C8_location_in_grid clock_test 999 cfg_test map_test
                         [CallMake; CallStep; CallStep]
                         cfg_test_valid map_test_valid))).
Defined.

Lemma C10_witness :
  ready world_test ∧
  ∃ emitted w' b,
    step clock_test world_test = Some (emitted, w') ∧
    heap w' !! 0%nat = Some b ∧ 0%nat ∈ emitted ∧
    status b = RESOLVED ∧ acknowledged b = false.
Proof.
  split; [apply world_test_ready|].
  destruct (C10_step_frame clock_test world_test world_test_ready)
    as (em & w' & Hstep & Hframe).
  destruct (heap world_test !! 0%nat) as [a|] eqn:Ha; [|by vm_compute in Ha].
  destruct (Hframe 0%nat a Ha) as (b & Hb & _ & _ & Hres & Hack).
  exists em, w', b. split; [exact Hstep|]. split; [exact Hb|].
  vm_compute in Ha. injection Ha as <-.
  assert (Hs : status b = RESOLVED).
  { vm_compute in Hstep. injection Hstep as <- <-.
    vm_compute in Hb. injection Hb as <-. reflexivity. }
  split; [by apply Hres|]. split; [exact Hs | by apply Hack].
Defined.

(** * More of the program, verified *)

Section Tracker.
Context {G : Type} `{Generator G}.

Lemma wp_conj {A} (m : @M G A) w (P Q : A → World G → Prop) :
  wp m w P → wp m w Q → wp m w (λ a w', P a w' ∧ Q a w').
Proof.
  intros (a & w1 & Hm & HP) (a' & w1' & Hm' & HQ).
  rewrite Hm in Hm'. injection Hm' as <- <-. by exists a, w1.
Qed.

Lemma wp_run {A} (m : @M G A) w (Q : A → World G → Prop) a w' :
  wp m w Q → m w = Some (a, w') → Q a w'.
Proof. intros (a' & w1 & Hm & HQ) Hrun. congruence. Qed.

(** *** [purge], exactly *)

Lemma filter_ext_in {A} (P Q : A → Prop) `{∀ x, Decision (P x)}
    `{∀ x, Decision (Q x)} (l : list A) :
  (∀ x, x ∈ l → P x ↔ Q x) → filter P l = filter Q l.
Proof.
  induction l as [|x l IH]; intros Hext; [done|].
  rewrite !filter_cons.
  rewrite IH by (intros y Hy; by apply Hext, list_elem_of_further).
  pose proof (Hext x (list_elem_of_here _ _)).
  destruct (decide (P x)), (decide (Q x)); tauto.
Qed.

Lemma foldl_dict_pop_filter keys (d : list (string * loc)) :
  foldl (λ d key, dict_pop key d) d keys = filter (λ e, e.1 ∉ keys) d.
Proof.
  revert d. induction keys as [|key keys IH]; intros d; simpl.
  - induction d as [|e d IHd]; [done|].
    rewrite filter_cons_True by apply not_elem_of_nil. by rewrite <- IHd.
  - rewrite IH. unfold dict_pop. rewrite list_filter_filter.
    apply list_filter_iff. intros e. rewrite not_elem_of_cons. tauto.
Qed.

Lemma resolved_keys_exact items (w : World G) keys w' :
  resolved_keys items w = Some (keys, w') →
  keys = (filter (is_resolved (heap w)) items).*1.
Proof.
  revert keys w'. induction items as [|[k0 l0] items IH]; intros keys w'; simpl.
  - by intros [= <- <-].
  - intros Hrun. apply bind_Some in Hrun as (inc0 & w1 & Hload & Hrun).
    unfold load in Hload. destruct (heap w !! l0) as [i0|] eqn:Hl0; [|done].
    injection Hload as <- <-.
    apply bind_Some in Hrun as (ks & w2 & Hrec & Hret).
    apply IH in Hrec as ->. injection Hret as <- <-.
    rewrite filter_cons.
    destruct (decide (status i0 = RESOLVED)) as [Hs|Hs].
    + rewrite decide_True; [done|]. by exists i0.
    + rewrite decide_False; [done|].
      intros (i & Hi & Hr). simpl in Hi. congruence.
Qed.

Lemma NoDup_fst_key (d : list (string * loc)) e e' :
  NoDup d.*1 → e ∈ d → e' ∈ d → e.1 = e'.1 → e = e'.
Proof.
  induction d as [|e0 d IH]; simpl; intros Hnd He He' Heq.
  - by apply elem_of_nil in He.
  - apply NoDup_cons in Hnd as [Hnotin Hnd].
    apply elem_of_cons in He as [->|He]; apply elem_of_cons in He' as [->|He'].
    + done.
    + destruct Hnotin. rewrite Heq. by apply list_elem_of_fmap_2.
    + destruct Hnotin. rewrite <- Heq. by apply list_elem_of_fmap_2.
    + by apply IH.
Qed.

Lemma purge_exact (w : World G) u w' :
  NoDup (active (tracker (feed w))).*1 →
  purge w = Some (u, w') →
  w' = mkWorld (heap w) (state w)
         (mkIncidentsFeed (config (feed w))
            (mkIncidentTracker
               (filter (λ e, ¬ is_resolved (heap w) e) (active (tracker (feed w))))
               (counter (tracker (feed w))))
            (_grid_width (feed w)) (_grid_height (feed w)))
         (reads w).
Proof.
  intros Hnd Hrun. unfold purge in Hrun.
  apply bind_Some in Hrun as (self & w1 & [= <- <-] & Hrun).
  apply bind_Some in Hrun as (keys & w2 & Hkeys & Hrun).
  pose proof (resolved_keys_exact _ _ _ _ Hkeys) as ->.
  apply resolved_keys_spec in Hkeys as [-> _].
  apply bind_Some in Hrun as (self & w3 & [= <- <-] & Hrun).
  injection Hrun as _ <-. do 3 f_equal.
  rewrite foldl_dict_pop_filter. apply filter_ext_in.
  intros e He. split.
  - intros Hnot Hres. apply Hnot.
    apply list_elem_of_fmap_2. apply list_elem_of_filter. done.
  - intros Hnot Hin. apply list_elem_of_fmap in Hin as (e' & Heq & Hin).
    apply list_elem_of_filter in Hin as [Hres Hin].
    assert (e = e') as -> by by eapply NoDup_fst_key. done.
Qed.

(** *** [IncidentTracker.add] as a dictionary assignment *)

Lemma dict_get_dict_set key (value : loc) d :
  dict_get key (dict_set key value d) = Some value.
Proof.
  induction d as [|[k v] d IH]; simpl.
  - by rewrite decide_True.
  - destruct (decide (k = key)) as [->|Hne]; simpl.
    + by rewrite decide_True.
    + by rewrite decide_False.
Qed.

Lemma dict_get_dict_set_ne key key' (value : loc) d :
  key' ≠ key → dict_get key' (dict_set key value d) = dict_get key' d.
Proof.
  intros Hne. induction d as [|[k v] d IH]; simpl.
  - by rewrite decide_False.
  - destruct (decide (k = key)) as [->|Hk]; simpl.
    + by rewrite !decide_False.
    + by rewrite IH.
Qed.

Lemma dict_set_keys key (value : loc) d :
  (dict_set key value d).*1 = if decide (key ∈ d.*1) then d.*1 else d.*1 ++ [key].
Proof.
  induction d as [|[k v] d IH].
  - destruct (decide (key ∈ ([] : list (string * loc)).*1)) as [Hin|_];
      [by apply elem_of_nil in Hin | done].
  - simpl dict_set. destruct (decide (k = key)) as [->|Hk].
    + rewrite decide_True; [done|]. apply list_elem_of_here.
    + rewrite fmap_cons, IH. simpl. destruct (decide (key ∈ d.*1)) as [Hin|Hnotin].
      * rewrite decide_True; [done|]. by apply list_elem_of_further.
      * rewrite decide_False; [done|].
        intros Hin. apply elem_of_cons in Hin as [->|Hin]; done.
Qed.

Lemma dict_set_same key (value : loc) d :
  NoDup d.*1 → (key, value) ∈ d → dict_set key value d = d.
Proof.
  induction d as [|[k v] d IH]; simpl; intros Hnd Hin.
  - by apply elem_of_nil in Hin.
  - apply NoDup_cons in Hnd as [Hnotin Hnd].
    destruct (decide (k = key)) as [->|Hk].
    + apply elem_of_cons in Hin as [[= ->]|Hin]; [done|].
      destruct Hnotin. by apply (list_elem_of_fmap_2 fst) in Hin.
    + apply elem_of_cons in Hin as [[= -> ->]|Hin]; [done|]. by rewrite IH.
Qed.

Section TrackerClock.
Variable now : nat → Z.

(** *** [_make_incident], field by field *)

(** [made w inc]: the incident [_make_incident] builds from the world [w]. *)
Definition made (w : World G) (inc : Incident) : Prop :=
  identifier inc = String "A" (format_04d (S (counter (tracker (feed w))))) ∧
  timestamp inc = now (reads w) ∧ last_update inc = now (S (reads w)) ∧
  status inc = NEW ∧ acknowledged inc = false ∧
  description inc = Some (title (category inc) +:+ " anomaly detected") ∧
  (∃ g, category inc = (rng_choice _INCIDENT_TYPES g).1) ∧
  (∃ g, region inc = (rng_choice _REGIONS g).1) ∧
  (∃ g, autoresolve_after inc
        = Some (rng_uniform
                  (inject_Z (incident_autoresolve_sec (config (feed w))).1)
                  (inject_Z (incident_autoresolve_sec (config (feed w))).2) g).1) ∧
  ∃ x y, location inc = Some (x, y) ∧
         0 ≤ x < _grid_width (feed w) ∧ 0 ≤ y < _grid_height (feed w).

Definition make_incident_post (w : World G) (l : loc) (w' : World G) : Prop :=
  l = length (heap w) ∧ reads w' = S (S (reads w)) ∧
  active (tracker (feed w')) = active (tracker (feed w)) ++ new_entries w 1 ∧
  ∃ inc, heap w' = heap w ++ [inc] ∧ made w inc.

Lemma make_incident_full (w : World G) :
  wf w → 0 < _grid_width (feed w) → 0 < _grid_height (feed w) →
  wp (_make_incident now) w (make_incident_post w).
Proof.
  intros Hwf Hgw Hgh. unfold _make_incident, new_identifier.
  apply wp_bind, wp_bind, wp_get_feed, wp_bind, wp_set_tracker, wp_ret.
  apply wp_bind, wp_integers; [done|]. intros i Hi. simpl in Hi.
  unfold py_index. destruct (Z.leb_spec 0 i) as [_|]; [|lia].
  destruct (lookup_lt_is_Some_2 severities (Z.to_nat i)) as [sev ->];
    [simpl; lia|].
  apply wp_bind, wp_draw, wp_bind, wp_draw, wp_bind, wp_get_feed. simpl.
  apply wp_bind, wp_draw. simpl.
  apply wp_bind, wp_integers; [done|]. intros x Hx. simpl.
  apply wp_bind, wp_integers; [done|]. intros y Hy. simpl.
  apply wp_bind, wp_datetime_now, wp_bind, wp_datetime_now. simpl.
  apply wp_bind, wp_alloc. simpl. unfold tracker_add.
  match goal with |- context [?h ++ [?i]] => set (inc := i) end.
  apply wp_bind, wp_bind, (wp_load _ _ inc); [by apply list_lookup_middle|].
  apply wp_bind, wp_get_feed, wp_set_tracker, wp_ret. simpl.
  set (key := String "A" (format_04d (S (counter (tracker (feed w)))))).
  assert (Hfresh : key ∉ (active (tracker (feed w))).*1).
  { intros Hin. apply list_elem_of_fmap in Hin as ([k l] & Hk & Hin).
    simpl in Hk. subst k.
    destruct (wf_keys w Hwf _ _ Hin) as (n & Hn & Heq).
    injection Heq as Heq. apply format_04d_inj in Heq. lia. }
  rewrite (dict_set_fresh _ _ _ Hfresh).
  split; [done|]. split; [done|]. split.
  { unfold new_entries. simpl. subst key.
    by rewrite Nat.add_1_r, Nat.add_0_r. }
  exists inc. split; [done|].
  do 6 (split; [done|]). split; [by eexists|]. split; [by eexists|].
  split; [by eexists|]. by exists x, y.
Qed.

Lemma new_entries_S (w w1 : World G) k :
  counter (tracker (feed w1)) = S (counter (tracker (feed w))) →
  length (heap w1) = S (length (heap w)) →
  new_entries w (S k) = new_entries w 1 ++ new_entries w1 k.
Proof.
  intros Hc Hl. unfold new_entries. rewrite Hc, Hl. simpl. f_equal.
  rewrite <- fmap_S_seq, <- list_fmap_compose. apply list_fmap_ext.
  intros i j _. simpl. do 2 f_equal; [f_equal|]; lia.
Qed.

Lemma arrivals_tracker n (w : World G) :
  wf w → 0 < _grid_width (feed w) → 0 < _grid_height (feed w) →
  wp (arrivals now n) w (λ _ w',
    active (tracker (feed w')) = active (tracker (feed w)) ++ new_entries w n).
Proof.
  revert w. induction n as [|n IH]; intros w Hwf Hgw Hgh; simpl.
  - apply wp_ret. unfold new_entries. simpl. by rewrite app_nil_r.
  - apply wp_bind. eapply wp_mono.
    { apply wp_conj; [by apply make_incident_spec | by apply make_incident_full]. }
    intros l w1 [(_ & Hwf1 & _ & Hgw1 & Hgh1 & _ & _ & Hc1 & _ & news & Hlen & Hheap & _)
                 (_ & _ & Hact1 & _)].
    apply wp_bind. eapply wp_mono; [apply IH; [done|lia..]|].
    intros ls w2 Hact2. apply wp_ret.
    rewrite Hact2, Hact1, <- app_assoc. f_equal. symmetry.
    apply new_entries_S; [lia|]. rewrite Hheap, length_app, Hlen. lia.
Qed.

(** *** [step], taken apart

    What a call of [step] goes through: the incidents [news] it creates, the
    clock reading [r] it takes as the time of the sweep, the list [pr] the
    sweep emits and the world [w4] the sweep leaves to [purge]. *)

Lemma step_anatomy (w : World G) em w' :
  ready w → step now w = Some (em, w') →
  ∃ news w4 pr r,
    let tracked :=
      (active (tracker (feed w))).*2 ++ seq (length (heap w)) (length news) in
    (reads w ≤ r < reads w')%nat ∧
    em = seq (length (heap w)) (length news) ++ pr ∧
    purge w4 = Some (tt, w') ∧ heap w' = heap w4 ∧
    active (tracker (feed w4))
    = active (tracker (feed w)) ++ new_entries w (length news) ∧
    length (heap w4) = (length (heap w) + length news)%nat ∧
    (∀ l, l ∈ pr → l ∈ tracked) ∧
    ∀ l a, (heap w ++ news) !! l = Some a →
      (l ∉ tracked → heap w4 !! l = Some a) ∧
      (l ∈ tracked → ∃ b e, heap w4 !! l = Some b ∧
                            outcome now (now r) (S r) (reads w') a b e ∧
                            (e = true ↔ l ∈ pr)).
Proof.
  intros Hready Hstep.
  destruct Hready as (Hwf & Hcfg & Hgrid).
  apply validate_grid_Some in Hgrid as Hdims.
  unfold step in Hstep.
  apply bind_Some in Hstep as (self & w0 & [= <- <-] & Hstep).
  apply bind_Some in Hstep as (events & w1 & Hpois & Hstep).
  assert (heap w1 = heap w ∧ feed w1 = feed w ∧ reads w1 = reads w)
    as (Hheap1 & Hfeed1 & Hreads1).
  { unfold poisson in Hpois. destruct (Qltb _ _); [done|].
    unfold draw in Hpois. destruct (rng_poisson _ _). by injection Hpois as _ <-. }
  apply bind_Some in Hstep as (created & w2 & Harr & Hstep).
  assert (Hwf1 : wf w1) by by apply (wf_frame w).
  pose proof (wp_run _ _ _ _ _
                (arrivals_tracker events w1 Hwf1 ltac:(rewrite Hfeed1; lia)
                   ltac:(rewrite Hfeed1; lia)) Harr) as Hact2.
  pose proof (wp_run _ _ _ _ _
                (arrivals_spec now events w1 Hwf1 ltac:(rewrite Hfeed1; lia)
                   ltac:(rewrite Hfeed1; lia)) Harr)
    as (Hcr & Hwf2 & _ & _ & _ & _ & Hr2 & _ & Hlocs2 & news & Hlen2 & Hheap2 & _).
  apply bind_Some in Hstep as (t' & w3 & [= <- <-] & Hstep).
  apply bind_Some in Hstep as (ls & w3' & Hiter & Hstep).
  unfold iter_active in Hiter.
  apply bind_Some in Hiter as (self & w3'' & [= <- <-] & [= <- <-]).
  apply bind_Some in Hstep as (pr & w4 & Hsweep & Hstep).
  match type of Hsweep with sweep _ _ _ ?x = _ => set (w3 := x) in * end.
  pose proof (wp_run _ _ _ _ _
                (sweep_spec now _ _ w3 (wf_locs w2 Hwf2)
                   (λ l Hl, wf_tracked_bound w2 l Hwf2 Hl)) Hsweep)
    as (Hfeed4 & _ & Hr4 & Hlen4 & _ & Hsub4 & Hobj4).
  simpl in Hfeed4, Hlen4, Hr4, Hsub4, Hobj4.
  apply bind_Some in Hstep as (u & w5 & Hpurge & [= <- <-]).
  pose proof (purge_spec _ _ _ Hpurge) as (Hheap5 & _ & Hr5 & _).
  destruct u.
  rewrite Hfeed1 in Hlocs2. rewrite Hheap1 in Hcr, Hheap2.
  subst events.
  exists news, w4, pr, (reads w2). cbv zeta.
  split; [lia|]. split; [by rewrite Hcr|]. split; [done|]. split; [done|].
  split.
  { rewrite Hfeed4, Hact2, Hfeed1. unfold new_entries.
    by rewrite Hfeed1, Hheap1. }
  split; [rewrite Hlen4, Hheap2, length_app; lia|].
  rewrite <- Hcr, <- Hlocs2, <- Hheap2, Hr5. done.
Qed.

(** *** The tracker across [step] *)

Lemma new_entries_keys (w : World G) k :
  wf w → NoDup (active (tracker (feed w))).*1 →
  NoDup (active (tracker (feed w)) ++ new_entries w k).*1.
Proof.
  intros Hwf Hnd. rewrite fmap_app. apply NoDup_app.
  split; [done|]. split.
  - intros key Hold Hnew.
    apply list_elem_of_fmap in Hold as ([k0 l] & -> & Hold).
    destruct (wf_keys w Hwf _ _ Hold) as (n & Hn & Heq). simpl in Heq.
    unfold new_entries in Hnew. rewrite <- list_fmap_compose in Hnew.
    apply list_elem_of_fmap in Hnew as (i & Hi & _). simpl in Hi.
    rewrite Heq in Hi. injection Hi as Hi. apply format_04d_inj in Hi. lia.
  - unfold new_entries. rewrite <- list_fmap_compose.
    apply NoDup_fmap_2_strong; [|apply NoDup_seq].
    intros i j _ _ Hij. simpl in Hij. injection Hij as Hij.
    apply format_04d_inj in Hij. lia.
Qed.

Lemma step_tracker (w : World G) em w' :
  ready w → NoDup (active (tracker (feed w))).*1 →
  step now w = Some (em, w') →
  let k := (length (heap w') - length (heap w))%nat in
  active (tracker (feed w'))
  = filter (λ e, ¬ is_resolved (heap w') e)
      (active (tracker (feed w)) ++ new_entries w k) ∧
  NoDup (active (tracker (feed w'))).*1.
Proof.
  intros Hready Hnd Hstep.
  destruct (step_anatomy w em w' Hready Hstep)
    as (news & w4 & pr & r & _ & _ & Hpurge & Hheap & Hact4 & Hlen4 & _).
  cbv zeta. rewrite Hheap, Hlen4.
  replace (length (heap w) + length news - length (heap w))%nat
    with (length news) by lia.
  pose proof (new_entries_keys w (length news) (proj1 Hready) Hnd) as Hnd4.
  rewrite <- Hact4 in Hnd4 |- *.
  pose proof (purge_exact _ _ _ Hnd4 Hpurge) as ->. simpl.
  split; [done|].
  eapply sublist_NoDup; [exact Hnd4|]. apply fmap_sublist, sublist_filter.
Qed.

Lemma call_tidy c (w : World G) r w' :
  tidy w → call now c w = Some (r, w') → tidy w'.
Proof.
  intros [Hready Hnd] Hcall.
  split; [exact (proj1 (wp_run _ _ _ _ _ (call_spec now c w Hready) Hcall))|].
  destruct Hready as (Hwf & Hcfg & Hgrid).
  apply validate_grid_Some in Hgrid as Hdims. destruct c; simpl in Hcall.
  - by apply (step_tracker w r w').
  - apply bind_Some in Hcall as (l & w1 & Hmake & [= <- <-]).
    pose proof (wp_run _ _ _ _ _
                  (make_incident_full w Hwf ltac:(lia) ltac:(lia)) Hmake)
      as (_ & _ & -> & _).
    by apply new_entries_keys.
  - injection Hcall as <- <-. simpl. constructor.
Qed.

End TrackerClock.

End Tracker.

(** ** The tracker and the emitted list *)

(** X1. [IncidentTracker.purge] on a tracker whose incidents exist returns,
    and leaves in [active] exactly the entries whose incident is not
    RESOLVED, in the order they had; it changes nothing else (counter,
    incident objects, generator, clock), and a second [purge] changes
    nothing. *)
Theorem purge_keeps_the_unresolved {G} `{Generator G} (w : World G) :
  NoDup (active (tracker (feed w))).*1 →
  (∀ key l, (key, l) ∈ active (tracker (feed w)) → (l < length (heap w))%nat) →
  ∃ w', purge w = Some (tt, w') ∧
    active (tracker (feed w'))
    = filter (λ e, ¬ is_resolved (heap w) e) (active (tracker (feed w))) ∧
    counter (tracker (feed w')) = counter (tracker (feed w)) ∧
    config (feed w') = config (feed w) ∧
    heap w' = heap w ∧ state w' = state w ∧ reads w' = reads w ∧
    purge w' = Some (tt, w').
Proof.
  intros Hnd Hbound. destruct (purge_returns w Hbound) as [w' Hpurge].
  exists w'. split; [done|].
  pose proof (purge_exact _ _ _ Hnd Hpurge) as Hw'.
  rewrite Hw'. simpl. do 6 (split; [done|]).
  match goal with |- purge ?x = _ => set (w1 := x) end.
  destruct (purge_returns w1) as [w2 Hpurge2].
  { intros key l Hin. simpl in Hin. apply list_elem_of_filter in Hin as [_ Hin].
    by apply (Hbound key). }
  rewrite Hpurge2. do 2 f_equal.
  assert (Hnd1 : NoDup (active (tracker (feed w1))).*1).
  { simpl. eapply sublist_NoDup; [exact Hnd|]. apply fmap_sublist, sublist_filter. }
  rewrite (purge_exact _ _ _ Hnd1 Hpurge2). unfold w1. simpl. do 3 f_equal.
  rewrite list_filter_filter. apply list_filter_iff. tauto.
Qed.

(** X2. A call of [step] on a feed whose tracker holds no key twice returns
    and leaves such a feed; and the tracker it leaves holds, in this order,
    the entries it held and the entries of the incidents the call created,
    less those whose incident is RESOLVED when the call returns: no
    unresolved incident is lost, none is tracked twice. *)
Theorem step_tracks_the_unresolved {G} `{Generator G} (now : nat → Z)
    (w : World G) :
  tidy w →
  ∃ emitted w',
    step now w = Some (emitted, w') ∧ tidy w' ∧
    let k := (length (heap w') - length (heap w))%nat in
    active (tracker (feed w'))
    = filter (λ e, ¬ is_resolved (heap w') e)
        (active (tracker (feed w)) ++ new_entries w k).
Proof.
  intros [Hready Hnd].
  destruct (step_spec now w Hready) as (em & w' & Hstep & Hpost).
  exists em, w'. split; [done|].
  destruct (step_tracker now w em w' Hready Hnd Hstep) as [Hact Hnd'].
  split; [|done]. split; [apply Hpost | done].
Qed.

(** X3. A call of [step] emits an incident that existed before the call
    exactly when the call changed its status.  Every such incident carries
    as [last_update] one and the same reading of the clock, taken during the
    call, and an incident that is not emitted is left as it was, field by
    field. *)
Theorem step_emits_the_changes {G} `{Generator G} (now : nat → Z)
    (w : World G) :
  ready w →
  ∃ emitted w' r,
    step now w = Some (emitted, w') ∧ (reads w ≤ r < reads w')%nat ∧
    ∀ l a, heap w !! l = Some a →
      ∃ b, heap w' !! l = Some b ∧
        (l ∈ emitted ↔ status b ≠ status a) ∧
        (l ∈ emitted → last_update b = now r) ∧
        (l ∉ emitted → b = a).
Proof.
  intros Hready.
  destruct (step_spec now w Hready) as (em & w' & Hstep & _).
  destruct (step_anatomy now w em w' Hready Hstep)
    as (news & w4 & pr & r & Hr & Hem & _ & Hheap & _ & _ & Hsub & Hobj).
  exists em, w', r. split; [done|]. split; [done|]. intros l a Hl.
  assert (Hold : l ∈ em ↔ l ∈ pr).
  { rewrite Hem, elem_of_app, elem_of_seq.
    apply lookup_lt_Some in Hl. split; [intros [?|?]; [lia | done] | by right]. }
  destruct (Hobj l a) as [Hkeep Hmove]; [by apply lookup_app_l_Some|].
  set (tracked := (active (tracker (feed w))).*2
                  ++ seq (length (heap w)) (length news)) in *.
  rewrite Hheap. destruct (decide (l ∈ tracked)) as [Hin|Hnotin].
  - destruct (Hmove Hin) as (b & e & Hb & Hout & Hiff). exists b.
    split; [done|]. rewrite Hold, <- Hiff.
    destruct (outcome_rank _ _ _ _ _ _ _ Hout) as (_ & Hlt & _).
    destruct e.
    + specialize (Hlt eq_refl). split; [|split].
      * split; [intros _ Heq; rewrite Heq in Hlt; lia | done].
      * intros _. by inversion Hout.
      * done.
    + apply outcome_stay_eq in Hout as ->. split; [|split]; done.
  - exists a. split; [by apply Hkeep|]. rewrite Hold.
    split; [|split]; [|intros Hpr; destruct Hnotin; by apply Hsub | done].
    split; [intros Hpr; destruct Hnotin; by apply Hsub | done].
Qed.

(** X4. On a feed with an accepted configuration, and a generator that keeps
    numpy's promises, [_make_incident] returns a new object, the last of the
    heap, whose category is one of the five incident types, whose region is
    one of the five regions and whose description is the category with a
    capital followed by " anomaly detected".  It is NEW and not
    acknowledged; its [last_update] is read from the clock after its
    [timestamp]; and its auto-resolve delay lies between the two configured
    bounds, so that its deadline does not pass before the lower bound has
    elapsed since [last_update]. *)
Theorem make_incident_fields {G} `{Generator G} `{!GeneratorLaws G}
    (now : nat → Z) (w : World G) :
  ready w → monotone_clock now →
  ∃ l w' inc,
    _make_incident now w = Some (l, w') ∧
    l = length (heap w) ∧ heap w' = heap w ++ [inc] ∧
    (category inc, description inc)
    ∈ [("network", Some "Network anomaly detected");
       ("database", Some "Database anomaly detected");
       ("compute", Some "Compute anomaly detected");
       ("storage", Some "Storage anomaly detected");
       ("security", Some "Security anomaly detected")] ∧
    region inc ∈ _REGIONS ∧
    status inc = NEW ∧ acknowledged inc = false ∧
    timestamp inc ≤ last_update inc ∧
    ∃ d, autoresolve_after inc = Some d ∧
      (inject_Z (incident_autoresolve_sec (config (feed w))).1 <= d)%Q ∧
      (d <= inject_Z (incident_autoresolve_sec (config (feed w))).2)%Q ∧
      ∀ t, deadline_passed t inc d = true →
        last_update inc
        + 1000000 * (incident_autoresolve_sec (config (feed w))).1 ≤ t.
Proof.
  intros (Hwf & Hcfg & Hgrid) Hclock.
  apply validate_grid_Some in Hgrid as Hdims.
  destruct (make_incident_full now w Hwf ltac:(lia) ltac:(lia))
    as (l & w' & Hmake & -> & _ & _ & inc & Hheap & Hmade).
  exists (length (heap w)), w', inc. do 3 (split; [done|]).
  destruct Hmade as (_ & Hts & Hlu & Hst & Hack & Hdesc & [g1 Hcat] & [g2 Hreg]
                     & [g3 Hauto] & _).
  split.
  { rewrite Hdesc.
    pose proof (rng_choice_elem _INCIDENT_TYPES g1 ltac:(done)) as Hin.
    rewrite <- Hcat in Hin. unfold _INCIDENT_TYPES in Hin.
    repeat (apply elem_of_cons in Hin as [->|Hin];
            [vm_compute; repeat first [apply list_elem_of_here
                                      | apply list_elem_of_further]|]).
    by apply elem_of_nil in Hin. }
  split. { rewrite Hreg. by apply rng_choice_elem. }
  do 2 (split; [done|]).
  split. { rewrite Hts, Hlu. apply Hclock. lia. }
  destruct Hcfg as (_ & _ & _ & [v Hv]).
  destruct (incident_autoresolve_sec (config (feed w))) as [low high] eqn:Hsec.
  simpl in *.
  assert (0 < low < high) as Hlh.
  { destruct (Z.leb_spec low 0), (Z.leb_spec high 0), (Z.leb_spec high low);
      simpl in Hv; try done; lia. }
  eexists. split; [exact Hauto|].
  destruct (rng_uniform_range (inject_Z low) (inject_Z high) g3) as [Hlo Hhi].
  { rewrite <- Zle_Qle. lia. }
  split; [done|]. split; [done|]. intros t Hpass.
  unfold deadline_passed, total_seconds in Hpass. apply Qle_bool_iff in Hpass.
  assert (Hq : (inject_Z low <= inject_Z (t - last_update inc) / inject_Z 1000000)%Q)
    by (eapply Qle_trans; [exact Hlo | exact Hpass]).
  assert (Hc : (0 <= inject_Z 1000000)%Q) by done.
  pose proof (Qmult_le_compat_r _ _ _ Hq Hc) as Hm.
  rewrite (Qmult_comm (_ / _)), Qmult_div_r in Hm by done.
  rewrite <- inject_Z_mult, <- Zle_Qle in Hm. lia.
Qed.

(** X5. [IncidentTracker.add] is the dictionary assignment
    [active[identifier] = incident]: afterwards the identifier leads to the
    incident, every other identifier leads where it did, and the keys are
    the same in the same order, with the identifier added last when it was
    not a key.  Nothing else changes; and adding an incident that is
    already tracked under its identifier changes nothing at all. *)
Theorem add_is_a_dictionary_assignment {G} `{Generator G} (w : World G)
    (l : loc) (inc : Incident) :
  heap w !! l = Some inc →
  ∃ w', tracker_add l w = Some (tt, w') ∧
    let keys := (active (tracker (feed w))).*1 in
    dict_get (identifier inc) (active (tracker (feed w'))) = Some l ∧
    (∀ key, key ≠ identifier inc →
       dict_get key (active (tracker (feed w')))
       = dict_get key (active (tracker (feed w)))) ∧
    (active (tracker (feed w'))).*1
    = (if decide (identifier inc ∈ keys) then keys
       else keys ++ [identifier inc]) ∧
    counter (tracker (feed w')) = counter (tracker (feed w)) ∧
    heap w' = heap w ∧ state w' = state w ∧ reads w' = reads w ∧
    (NoDup keys → (identifier inc, l) ∈ active (tracker (feed w)) → w' = w).
Proof.
  intros Hl. eexists. split.
  { unfold tracker_add. apply bind_Some. exists inc, w.
    split; [unfold load; by rewrite Hl|].
    apply bind_Some. exists (feed w), w. split; [done | reflexivity]. }
  simpl. split; [apply dict_get_dict_set|].
  split; [intros key Hne; by apply dict_get_dict_set_ne|].
  split; [apply dict_set_keys|]. do 4 (split; [done|]).
  intros Hnd Hin. rewrite dict_set_same by done.
  by destruct w as [hp st [cfg [act cnt] gw gh] r].
Qed.

(** ** The incidents panel *)

Lemma data_UserRole hp rows row :
  ∃ v, data hp rows (model_index rows row 0) UserRole = Some v ∧
       attr_incident v = None.
Proof.
  unfold model_index, data.
  destruct (Nat.ltb_spec row (length rows)) as [Hlt|Hge]; simpl.
  - destruct (lookup_lt_is_Some_2 rows row Hlt) as [r ->]. by eexists.
  - by eexists.
Qed.

(** X6. [IncidentsPanel._selected_incident] returns [None] when no row is
    selected and raises otherwise: what [IncidentTableModel.data] returns
    for the user role is the incident itself (or [None] for an index outside
    the table), and neither has an attribute [incident].  So whatever the
    table, the incidents and the selection, [acknowledge_selected] and
    [resolve_selected] change no incident and no row: they return with
    nothing done, or raise before their first assignment. *)
Theorem selection_never_reaches_an_incident {G} (w : World G)
    (self : IncidentsPanel) (selection : list nat) :
  let outcome : option (IncidentsPanel * World G) :=
    match selection with [] => Some (self, w) | _ :: _ => None end in
  _selected_incident (heap w) self selection
  = match selection with [] => Some None | _ :: _ => None end ∧
  acknowledge_selected selection self w = outcome ∧
  resolve_selected selection self w = outcome.
Proof.
  assert (Hsel : _selected_incident (heap w) self selection
                 = match selection with [] => Some None | _ :: _ => None end).
  { destruct selection as [|row rest]; [done|]. simpl.
    destruct (data_UserRole (heap w) (_rows self) row) as (v & -> & ->). done. }
  split; [exact Hsel|].
  unfold acknowledge_selected, resolve_selected, bind, lift. rewrite Hsel.
  by destruct selection.
Qed.

Lemma filter_rows_unfiltered hp self count row (hs : list nat) :
  filter_severity self = None → filter_status self = None →
  filter_rows hp self row count hs
  = Some (filter (λ r, ¬ (row ≤ r < row + count)%nat) hs).
Proof.
  intros Hsev Hst. revert row hs.
  induction count as [|count IH]; intros row hs; simpl.
  - f_equal. induction hs as [|h hs IHhs]; [done|].
    rewrite filter_cons_True by lia. by rewrite <- IHhs.
  - destruct (data_UserRole hp (_rows self) row) as (v & -> & _).
    rewrite Hsev, Hst. simpl. rewrite IH. f_equal.
    unfold setRowHidden. rewrite list_filter_filter.
    apply list_filter_iff. intros r. lia.
Qed.

(** X7. The filters of the incidents panel never hide a row.  With both
    boxes on All, [_apply_filters] shows every row of the table; with a
    severity or a status chosen it raises at the first row, before any row
    is hidden, because it reads [incident_row.incident] of what
    [IncidentTableModel.data] returned.  So [add_incident], which stores the
    row and then applies the filters, raises on every incident while a
    filter is chosen. *)
Theorem filters_never_hide_a_row (hp : list Incident) (self : IncidentsPanel) :
  let unfiltered := filter_severity self = None ∧ filter_status self = None in
  (unfiltered ∨ _rows self = [] →
     _apply_filters hp self
     = Some (mkIncidentsPanel (_rows self)
               (filter (λ r, (length (_rows self) ≤ r)%nat) (hidden self))
               (filter_severity self) (filter_status self))) ∧
  (¬ unfiltered → _rows self ≠ [] → _apply_filters hp self = None) ∧
  (¬ unfiltered → ∀ object, add_incident hp object self = None).
Proof.
  cbv zeta.
  assert (Hraise : ∀ p, ¬ (filter_severity p = None ∧ filter_status p = None) →
            _rows p ≠ [] → _apply_filters hp p = None).
  { intros p Hf Hrows. unfold _apply_filters.
    destruct (_rows p) as [|r rows] eqn:Hr; [done|]. simpl. rewrite Hr. simpl.
    destruct (filter_severity p), (filter_status p); try done.
    destruct Hf. done. }
  split; [|split].
  - intros [[Hsev Hst]|Hrows]; unfold _apply_filters.
    + rewrite filter_rows_unfiltered by done. do 2 f_equal.
      apply list_filter_iff. intros r. lia.
    + rewrite Hrows. simpl. do 2 f_equal.
      induction (hidden self) as [|h hs IH]; [done|].
      rewrite filter_cons_True by lia. by rewrite <- IH.
  - apply Hraise.
  - intros Hf object. unfold add_incident.
    destruct (upsert hp object (_rows self)) as [rows|] eqn:Hup; [|done].
    apply Hraise; [done|]. simpl. unfold upsert in Hup.
    destruct (hp !! object) as [inc|]; [|done].
    destruct (replace_row hp (identifier inc) (mkIncidentRow object) (_rows self))
      as [[rows'|]|] eqn:Hrep; [| |done].
    + injection Hup as <-. clear Hf. revert rows' Hrep.
      induction (_rows self) as [|r rs IH]; intros rows' Hrep; simpl in Hrep;
        [done|].
      destruct (hp !! incident r) as [i|]; [|done].
      destruct (decide (identifier i = identifier inc)); [by injection Hrep as <-|].
      destruct (replace_row hp (identifier inc) (mkIncidentRow object) rs)
        as [[rows''|]|]; [|done|done].
      by injection Hrep as <-.
    + injection Hup as <-. by destruct (_rows self).
Qed.

(** ** Region labels *)

Lemma isspace_not_region_char c : isspace c = true → region_char c = false.
Proof. destruct c as [[] [] [] [] [] [] [] []]; by vm_compute. Qed.

Lemma region_char_lower c : region_char c = true → label_char (to_lower c) = true.
Proof. destruct c as [[] [] [] [] [] [] [] []]; by vm_compute. Qed.

Lemma label_char_fixed c :
  label_char c = true → region_char c = true ∧ to_lower c = c.
Proof. destruct c as [[] [] [] [] [] [] [] []]; by vm_compute. Qed.

Lemma join_if_lstrip s : join_if region_char (lstrip s) = join_if region_char s.
Proof.
  induction s as [|c s IH]; [done|]. simpl.
  destruct (isspace c) eqn:Hc; [|done].
  by rewrite (isspace_not_region_char c Hc).
Qed.

Lemma join_if_rstrip s : join_if region_char (rstrip s) = join_if region_char s.
Proof.
  induction s as [|c s IH]; [done|]. simpl.
  destruct (rstrip s) as [|c' kept] eqn:Hr.
  - simpl in IH. rewrite <- IH. destruct (isspace c) eqn:Hc.
    + by rewrite (isspace_not_region_char c Hc).
    + done.
  - simpl. simpl in IH. by rewrite IH.
Qed.

Lemma join_if_strip s : join_if region_char (strip s) = join_if region_char s.
Proof. unfold strip. by rewrite join_if_rstrip, join_if_lstrip. Qed.

Lemma all_chars_join_if p s : all_chars p (join_if p s) = true.
Proof.
  induction s as [|c s IH]; [done|]. simpl.
  destruct (p c) eqn:Hc; [simpl; by rewrite Hc|done].
Qed.

Lemma all_chars_take p n s :
  all_chars p s = true → all_chars p (take_chars n s) = true.
Proof.
  revert s. induction n as [|n IH]; intros [|c s]; simpl; try done.
  intros [Hc Hs]%andb_true_iff. rewrite Hc. by apply IH.
Qed.

Lemma all_chars_lower s :
  all_chars region_char s = true → all_chars label_char (lower s) = true.
Proof.
  induction s as [|c s IH]; [done|]. simpl.
  intros [Hc Hs]%andb_true_iff. by rewrite region_char_lower, IH.
Qed.

Lemma length_take_chars n s : (String.length (take_chars n s) ≤ n)%nat.
Proof.
  revert s. induction n as [|n IH]; intros [|c s]; simpl; try lia.
  specialize (IH s). lia.
Qed.

Lemma length_lower s : String.length (lower s) = String.length s.
Proof. induction s as [|c s IH]; simpl; [done | by rewrite IH]. Qed.

Lemma take_chars_all n s : (String.length s ≤ n)%nat → take_chars n s = s.
Proof.
  revert s. induction n as [|n IH]; intros [|c s]; simpl; try done; try lia.
  intros Hlen. rewrite IH; [done | lia].
Qed.

Lemma label_text_fixed s :
  all_chars label_char s = true → join_if region_char s = s ∧ lower s = s.
Proof.
  induction s as [|c s IH]; [done|]. simpl.
  intros [Hc Hs]%andb_true_iff. destruct (label_char_fixed c Hc) as [-> ->].
  destruct (IH Hs) as [-> ->]. done.
Qed.

Lemma sanitize_filtered s :
  sanitize_region_name (Some s)
  = match join_if region_char s with
    | EmptyString => "unknown"
    | filtered => lower (take_chars 32 filtered)
    end.
Proof.
  destruct s as [|c s]; [done|]. unfold sanitize_region_name. cbv zeta.
  rewrite join_if_strip. by destruct (join_if region_char (String c s)).
Qed.

Lemma sanitize_label raw :
  all_chars label_char (sanitize_region_name raw) = true ∧
  (1 ≤ String.length (sanitize_region_name raw) ≤ 32)%nat.
Proof.
  destruct raw as [s|]; [|by vm_compute; split; [|lia]].
  rewrite sanitize_filtered.
  pose proof (all_chars_join_if region_char s) as Hall.
  destruct (join_if region_char s) as [|c f] eqn:Hf;
    [by vm_compute; split; [|lia]|].
  split.
  - by apply all_chars_lower, all_chars_take.
  - rewrite length_lower. split; [simpl; lia | apply length_take_chars].
Qed.

(** X8. [sanitize_region_name], on ASCII text.  The label it returns is
    never empty, has at most 32 characters, and is made of lower-case
    letters, digits, hyphens and underscores only.  It is what is left of
    the text when every other character is dropped, cut to 32 characters
    and lowered, or "unknown" when nothing is left: the call of [strip]
    changes nothing, and the characters between two kept ones are dropped,
    not the whole text.  A label is returned as it is, and so are the five
    regions of the feed. *)
Theorem sanitize_region_name_label (s : string) :
  ascii_text s →
  let label := sanitize_region_name (Some s) in
  all_chars label_char label = true ∧
  (1 ≤ String.length label ≤ 32)%nat ∧
  label = match join_if region_char s with
          | EmptyString => "unknown"
          | filtered => lower (take_chars 32 filtered)
          end ∧
  sanitize_region_name (Some label) = label ∧
  (s ∈ _REGIONS → label = s).
Proof.
  intros _. cbv zeta.
  destruct (sanitize_label (Some s)) as [Hall Hlen].
  split; [done|]. split; [done|]. split; [apply sanitize_filtered|]. split.
  - set (label := sanitize_region_name (Some s)) in *.
    rewrite sanitize_filtered.
    destruct (label_text_fixed label Hall) as [-> Hlow].
    destruct label as [|c l] eqn:Hl; [simpl in Hlen; lia|].
    rewrite <- Hl in *. rewrite take_chars_all by lia. done.
  - intros Hin. unfold _REGIONS in Hin.
    repeat (apply elem_of_cons in Hin as [->|Hin]; [by vm_compute|]).
    by apply elem_of_nil in Hin.
Qed.

(** The example of the docstring of [sanitize_region_name], for which the
    docstring and tests/test_ui_helpers.py announce "unknown". *)
Lemma sanitize_region_name_label_witness :
  ascii_text "  ../etc/passwd  " ∧
  sanitize_region_name (Some "  ../etc/passwd  ") = "etcpasswd" ∧
  sanitize_region_name (Some (sanitize_region_name (Some "  ../etc/passwd  ")))
  = sanitize_region_name (Some "  ../etc/passwd  ").
Proof.
  assert (Hascii : ascii_text "  ../etc/passwd  ")
    by (vm_compute; repeat split; lia).
  split; [exact Hascii|]. split; [reflexivity|].
  exact (proj1 (proj2 (proj2 (proj2
           (sanitize_region_name_label "  ../etc/passwd  " Hascii))))).
Defined.

(** ** Dictionaries of the panels *)

Lemma dict_get_setitem {V} key (value : V) d :
  dict_get key (dict_setitem key value d) = Some value.
Proof.
  induction d as [|[k v] d IH]; simpl.
  - by rewrite decide_True.
  - destruct (decide (k = key)) as [->|Hne]; simpl.
    + by rewrite decide_True.
    + by rewrite decide_False.
Qed.

Lemma dict_get_setitem_ne {V} key key' (value : V) d :
  key' ≠ key → dict_get key' (dict_setitem key value d) = dict_get key' d.
Proof.
  intros Hne. induction d as [|[k v] d IH]; simpl.
  - by rewrite decide_False.
  - destruct (decide (k = key)) as [->|Hk]; simpl.
    + by rewrite !decide_False.
    + by rewrite IH.
Qed.

Lemma dict_get_discard {V} key (d : list (string * V)) :
  dict_get key (dict_discard key d) = None.
Proof.
  unfold dict_discard. induction d as [|[k v] d IH]; [done|].
  rewrite filter_cons. simpl. destruct (decide (k ≠ key)) as [Hne|Heq].
  - simpl. by rewrite decide_False.
  - done.
Qed.

Lemma dict_get_discard_ne {V} key key' (d : list (string * V)) :
  key' ≠ key → dict_get key' (dict_discard key d) = dict_get key' d.
Proof.
  intros Hne. unfold dict_discard. induction d as [|[k v] d IH]; [done|].
  rewrite filter_cons. simpl. destruct (decide (k ≠ key)) as [Hk|Hk].
  - simpl. by rewrite IH.
  - apply dec_stable in Hk. subst k. by rewrite decide_False.
Qed.

Lemma dict_set_held key (value : loc) d :
  dict_get key d = Some value → dict_set key value d = d.
Proof.
  induction d as [|[k v] d IH]; simpl; [done|].
  destruct (decide (k = key)) as [->|Hne].
  - by intros [= ->].
  - intros Hget. by rewrite IH.
Qed.

Lemma dict_get_set key (value : loc) d :
  dict_get key (dict_set key value d) = Some value.
Proof.
  induction d as [|[k v] d IH]; simpl.
  - by rewrite decide_True.
  - destruct (decide (k = key)) as [->|Hne]; simpl.
    + by rewrite decide_True.
    + by rewrite decide_False.
Qed.

(** ** The overview panel *)

(** X9. [OverviewPanel.update_incident] counts an incident when it first
    sees its identifier: one more for its severity, one more for the status
    it has then, and a resolution time if it is RESOLVED then.  The panel
    keeps the incident object itself, so when the same object is delivered
    again, as the feed does after each change of status, the comparison of
    the previous status with the current one compares the object with
    itself: the call changes nothing, whatever the status has become. *)
Theorem overview_counts_the_first_delivery (hp : list Incident) (object : loc)
    (inc : Incident) (self : OverviewPanel) :
  hp !! object = Some inc →
  (dict_get (identifier inc) (_incidents self) = None →
     ∃ first,
       Overview_update_incident hp object self = Some first ∧
       dict_get (identifier inc) (_incidents first) = Some object ∧
       _severity_counts first = count_add (severity inc) 1 (_severity_counts self) ∧
       _status_counts first = count_add (status inc) 1 (_status_counts self) ∧
       length (_resolution_times first)
       = (length (_resolution_times self)
          + if decide (status inc = RESOLVED) then 1 else 0)%nat) ∧
  (dict_get (identifier inc) (_incidents self) = Some object →
     Overview_update_incident hp object self = Some self).
Proof.
  intros Hobj. split.
  - intros Hnew. eexists. split.
    { unfold Overview_update_incident. rewrite Hobj, Hnew. reflexivity. }
    simpl. split; [apply dict_get_set|].
    destruct (decide (status inc = RESOLVED)); simpl.
    + split; [done|]. split; [done|]. rewrite length_app. simpl. lia.
    + split; [done|]. split; [done | lia].
  - intros Hheld. unfold Overview_update_incident.
    rewrite Hobj, Hheld, Hobj. simpl.
    rewrite !decide_False by (intros Hne; by apply Hne).
    rewrite dict_set_held by done. by destruct self.
Qed.

Lemma overview_counts_the_first_delivery_witness :
  let a := mkIncident "A0001" 0 "network" HIGH NEW "ap-south" false None 0
             (Some 75%Q) (Some (5, 7)) in
  let b := set_status RESOLVED a in
  [a] !! 0%nat = Some a ∧
  ∃ first,
    Overview_update_incident [a] 0 OverviewPanel_new = Some first ∧
    Overview_update_incident [b] 0 first = Some first ∧
    _status_counts first NEW = 1 ∧ _status_counts first RESOLVED = 0 ∧
    _resolution_times first = [].
Proof.
  intros a b. split; [reflexivity|].
  destruct (proj1 (overview_counts_the_first_delivery [a] 0 a OverviewPanel_new
                     eq_refl) eq_refl)
    as (first & Hfirst & Hheld & _ & Hstatus & _).
  exists first. split; [exact Hfirst|]. split.
  - exact (proj2 (overview_counts_the_first_delivery [b] 0 b first eq_refl) Hheld).
  - rewrite Hstatus. vm_compute in Hfirst. injection Hfirst as <-. by vm_compute.
Defined.

(** ** Bounded lists *)

Lemma slice_from_keep_last {A} (m : Z) (l : list A) :
  0 < m → slice_from (- m) l = keep_last (Z.to_nat m) l.
Proof.
  intros Hm. unfold slice_from, keep_last.
  destruct (Z.leb_spec 0 (- m)); [lia|]. f_equal. lia.
Qed.

Lemma capped_keep_last {A} (m : Z) (l : list A) :
  0 < m →
  (if m <? Z.of_nat (length l) then slice_from (- m) l else l)
  = keep_last (Z.to_nat m) l.
Proof.
  intros Hm. destruct (Z.ltb_spec m (Z.of_nat (length l))).
  - by apply slice_from_keep_last.
  - unfold keep_last. replace (length l - Z.to_nat m)%nat with 0%nat by lia. done.
Qed.

Lemma length_keep_last {A} n (l : list A) :
  length (keep_last n l) = Nat.min n (length l).
Proof. unfold keep_last. rewrite length_drop. lia. Qed.

Lemma last_keep_last {A} n (l : list A) x :
  (0 < n)%nat → last (keep_last n (l ++ [x])) = Some x.
Proof.
  intros Hn. unfold keep_last. rewrite length_app. simpl.
  rewrite drop_app_le by lia. apply last_snoc.
Qed.

(** X10. [LogsPanel.append_log], for a positive [max_logs] (as
    [BufferConfig] requires): the panel keeps the last [max_logs] records it
    was given, in the order they came, the new one last; and when the
    widget showed the records kept before the call, it shows the records
    kept after it, whether the call appended one line or rebuilt them
    all. *)
Theorem append_log_keeps_the_last (record : LogRecord) (self : LogsPanel) :
  0 < max_logs self → view self = _records self →
  let panel := append_log record self in
  max_logs panel = max_logs self ∧
  _records panel
  = keep_last (Z.to_nat (max_logs self)) (_records self ++ [record]) ∧
  last (_records panel) = Some record ∧
  Z.of_nat (length (_records panel)) ≤ max_logs self ∧
  view panel = _records panel.
Proof.
  intros Hmax Hview. cbv zeta.
  assert (Hrec : _records (append_log record self)
                 = keep_last (Z.to_nat (max_logs self)) (_records self ++ [record])).
  { rewrite <- capped_keep_last by done. unfold append_log.
    by destruct (_ <? _). }
  split; [unfold append_log; by destruct (_ <? _)|]. split; [done|].
  rewrite Hrec. split; [apply last_keep_last; lia|].
  split; [rewrite length_keep_last; lia|].
  rewrite <- Hrec. unfold append_log.
  destruct (_ <? _); simpl; [done | by rewrite Hview].
Qed.

Lemma append_log_keeps_the_last_witness :
  let r n := mkLogRecord (inject_Z n) "INFO" "Checkpoint successful" None in
  let panel := mkLogsPanel 2 [r 1; r 2] [r 1; r 2] in
  0 < max_logs panel ∧ view panel = _records panel ∧
  _records (append_log (r 3) panel) = [r 2; r 3] ∧
  view (append_log (r 3) panel) = [r 2; r 3].
Proof.
  intros r panel. split; [reflexivity|]. split; [reflexivity|].
  destruct (append_log_keeps_the_last (r 3) panel eq_refl eq_refl)
    as (_ & Hrec & _ & _ & Hview).
  rewrite Hview, Hrec. split; reflexivity.
Defined.

(** ** The timeline *)

Lemma timeline_update_unfold hp object inc self :
  hp !! object = Some inc → 0 < _max_events self →
  Timeline_update_incident hp object self
  = Some (if decide (dict_get (identifier inc) (_last_status self)
                     = Some (status inc))
          then self
          else mkTimelinePanel
                 (keep_last (Z.to_nat (_max_events self))
                    (_events self ++ [timeline_event inc]))
                 (if decide (status inc = RESOLVED)
                  then dict_discard (identifier inc)
                         (dict_setitem (identifier inc) (status inc)
                            (_last_status self))
                  else dict_setitem (identifier inc) (status inc)
                         (_last_status self))
                 (_max_events self)).
Proof.
  intros Hobj Hmax. unfold Timeline_update_incident. rewrite Hobj.
  destruct (decide (_ = Some (status inc))); [done|].
  cbv zeta. by rewrite capped_keep_last.
Qed.

(** X11. [TimelinePanel.update_incident] on a timeline as it leaves them
    (new, cleared, or after any number of calls).  The timeline never holds
    more than [_max_events] events.  An incident that is delivered again
    with the status of its last event adds nothing, unless that status is
    RESOLVED: the identifier is forgotten once the incident is resolved, so
    every delivery of a resolved incident adds a RESOLVED event, the same
    one again when the incident is delivered twice. *)
Theorem timeline_repeats_only_resolved (hp : list Incident) (object : loc)
    (inc : Incident) (self : TimelinePanel) :
  hp !! object = Some inc → well_kept self →
  ∃ panel,
    Timeline_update_incident hp object self = Some panel ∧ well_kept panel ∧
    (status inc ≠ RESOLVED →
       Timeline_update_incident hp object panel = Some panel) ∧
    (status inc = RESOLVED →
       last (_events panel) = Some (timeline_event inc) ∧
       ∃ again,
         Timeline_update_incident hp object panel = Some again ∧
         _events again
         = keep_last (Z.to_nat (_max_events self))
             (_events panel ++ [timeline_event inc])).
Proof.
  intros Hobj (Hmax & Hlen & Hkept).
  rewrite (timeline_update_unfold hp object inc self Hobj Hmax).
  eexists. split; [reflexivity|].
  destruct (decide (dict_get (identifier inc) (_last_status self)
                    = Some (status inc))) as [Hsame|Hdiff].
  - split; [done|]. split.
    + intros _. rewrite (timeline_update_unfold hp object inc self Hobj Hmax).
      by rewrite decide_True.
    + intros Hres. rewrite Hres in Hsame. by destruct (Hkept (identifier inc)).
  - split.
    { split; [done|]. simpl. split; [rewrite length_keep_last; lia|].
      intros key. destruct (decide (key = identifier inc)) as [->|Hne].
      - destruct (decide (status inc = RESOLVED)) as [Hres|Hres].
        + by rewrite dict_get_discard.
        + rewrite dict_get_setitem. congruence.
      - destruct (decide (status inc = RESOLVED)).
        + rewrite dict_get_discard_ne, dict_get_setitem_ne by done. apply Hkept.
        + rewrite dict_get_setitem_ne by done. apply Hkept. }
    split.
    + intros Hres. rewrite timeline_update_unfold with (inc := inc) by done.
      simpl. rewrite (decide_False (P := status inc = RESOLVED)) by done.
      rewrite dict_get_setitem. by rewrite decide_True.
    + intros Hres. simpl. split; [apply last_keep_last; lia|].
      eexists. split.
      { rewrite timeline_update_unfold with (inc := inc) by done. simpl.
        rewrite (decide_True (P := status inc = RESOLVED)) by done.
        rewrite dict_get_discard. rewrite decide_False by done. reflexivity. }
      done.
Qed.

Lemma timeline_repeats_only_resolved_witness :
  let a := mkIncident "A0001" 0 "network" HIGH RESOLVED "ap-south" false
             (Some "Network anomaly detected") 11000000 (Some 75%Q)
             (Some (5, 7)) in
  [a] !! 0%nat = Some a ∧ well_kept TimelinePanel_new ∧
  ∃ panel again,
    Timeline_update_incident [a] 0 TimelinePanel_new = Some panel ∧
    Timeline_update_incident [a] 0 panel = Some again ∧
    _events again = [timeline_event a; timeline_event a].
Proof.
  intros a.
  assert (Hkept : well_kept TimelinePanel_new) by (by repeat split).
  split; [reflexivity|]. split; [exact Hkept|].
  destruct (timeline_repeats_only_resolved [a] 0 a TimelinePanel_new eq_refl Hkept)
    as (panel & Hpanel & _ & _ & Hres).
  destruct (Hres eq_refl) as (_ & again & Hagain & Hevents).
  exists panel, again. split; [exact Hpanel|]. split; [exact Hagain|].
  rewrite Hevents. vm_compute in Hpanel. injection Hpanel as <-. reflexivity.
Defined.

(** ** The metrics buffer *)

Lemma float_sub_le x y : (0 <= y)%Q → is_float x → (float_sub x y <= x)%Q.
Proof.
  intros Hy [Hx _]. unfold float_sub.
  eapply Qle_trans; [|apply Qle_lteq; right; exact Hx]. apply binary64_mono.
  apply Qle_minus_iff.
  assert (Heq : (x + - (x - y) == y)%Q) by ring. by rewrite Heq.
Qed.

Lemma float_sub_mono x x' y : (x <= x')%Q → (float_sub x y <= float_sub x' y)%Q.
Proof.
  intros Hx. unfold float_sub. apply binary64_mono. unfold Qminus.
  by apply Qplus_le_l.
Qed.

Lemma float_sub_anti x y y' : (y <= y')%Q → (float_sub x y' <= float_sub x y)%Q.
Proof.
  intros Hy. unfold float_sub. apply binary64_mono. unfold Qminus.
  apply Qplus_le_r. by apply Qopp_le_compat.
Qed.

Lemma float_sub_diag x : (float_sub x x == 0)%Q.
Proof.
  unfold float_sub. rewrite <- binary64_zero. apply binary64_proper.
  unfold Qminus. apply Qplus_opp_r.
Qed.

(** A float is not below the rounded difference when it is not below the
    exact one. *)
Lemma float_sub_cutoff x y z :
  is_float z → (x - y <= z)%Q → (float_sub x y <= z)%Q.
Proof.
  intros [Hz _] Hle. unfold float_sub.
  eapply Qle_trans; [|apply Qle_lteq; right; exact Hz]. by apply binary64_mono.
Qed.

Lemma nondecreasing_cons x l :
  nondecreasing (x :: l) → nondecreasing l ∧ Forall (λ y, (x <= y)%Q) l.
Proof.
  intros Hnd. split.
  - intros i j a b Hij Ha Hb. by apply (Hnd (S i) (S j)); [lia| |].
  - apply Forall_forall. intros y Hy. apply list_elem_of_lookup in Hy as [j Hj].
    by apply (Hnd 0%nat (S j)); [lia| |].
Qed.

Lemma nondecreasing_drop k l : nondecreasing l → nondecreasing (drop k l).
Proof.
  intros Hnd i j a b Hij Ha Hb. rewrite lookup_drop in Ha, Hb.
  by apply (Hnd (k + i)%nat (k + j)%nat); [lia| |].
Qed.

Lemma filter_window (cutoff : Q) (l : list MetricSample) :
  nondecreasing (sample_timestamp <$> l) →
  ∃ k, filter (λ s, Qle_bool cutoff (sample_timestamp s) = true) l = drop k l.
Proof.
  induction l as [|s l IH]; intros Hnd; [by exists 0%nat|].
  rewrite fmap_cons in Hnd. apply nondecreasing_cons in Hnd as [Hnd Hall].
  rewrite filter_cons. destruct (decide _) as [Hin|Hout].
  - exists 0%nat. simpl. f_equal.
    clear IH Hnd. induction l as [|s' l IHl]; [done|].
    rewrite fmap_cons in Hall. apply Forall_cons in Hall as [Hs' Hall].
    rewrite filter_cons_True; [by rewrite IHl|].
    apply Qle_bool_iff. apply Qle_bool_iff in Hin. by eapply Qle_trans.
  - destruct (IH Hnd) as [k Hk]. exists (S k). done.
Qed.

Lemma MetricsBuffer_add_window (smp : MetricSample) (self : MetricsBuffer) :
  float_buffer self → is_float (sample_timestamp smp) →
  (0 <= max_age self)%Q →
  let buffer := MetricsBuffer_add smp self in
  let cutoff := float_sub (sample_timestamp smp) (max_age self) in
  let times l := sample_timestamp <$> l in
  max_age buffer = max_age self ∧ float_buffer buffer ∧
  buffered buffer
  = filter (λ s, Qle_bool cutoff (sample_timestamp s) = true) (buffered self)
    ++ [smp] ∧
  Forall (λ s, (cutoff <= sample_timestamp s)%Q) (buffered buffer) ∧
  (∀ s, s ∈ buffered self →
     (sample_timestamp smp - max_age self <= sample_timestamp s)%Q →
     s ∈ buffered buffer) ∧
  (nondecreasing (times (buffered self ++ [smp])) →
     (∃ k, buffered buffer = drop k (buffered self ++ [smp])) ∧
     nondecreasing (times (buffered buffer)) ∧
     Forall (λ s, (sample_timestamp s <= sample_timestamp smp)%Q)
       (buffered buffer)).
Proof.
  intros [Hfage Hfloats] Hfloat Hage. cbv zeta. unfold MetricsBuffer_add. simpl.
  assert (Hnew : Qle_bool (float_sub (sample_timestamp smp) (max_age self))
                   (sample_timestamp smp) = true).
  { apply Qle_bool_iff. by apply float_sub_le. }
  split; [done|]. split.
  { split; [done|]. simpl. apply Forall_forall. intros s Hs.
    apply list_elem_of_filter in Hs as [_ Hs].
    apply elem_of_app in Hs as [Hs|Hs].
    - by eapply (proj1 (Forall_forall _ _) Hfloats).
    - by apply list_elem_of_singleton in Hs as ->. }
  split.
  { rewrite filter_app. f_equal. by rewrite filter_cons_True. }
  split.
  { apply Forall_forall. intros s Hs. apply list_elem_of_filter in Hs as [Hs _].
    by apply Qle_bool_iff. }
  split.
  { intros s Hs Hle. apply list_elem_of_filter. split.
    - apply Qle_bool_iff. apply float_sub_cutoff; [|done].
      by eapply (proj1 (Forall_forall _ _) Hfloats).
    - apply elem_of_app. by left. }
  intros Hnd.
  destruct (filter_window (float_sub (sample_timestamp smp) (max_age self))
              (buffered self ++ [smp]) Hnd) as [k Hk].
  rewrite Hk. split; [by exists k|]. split.
  - rewrite fmap_drop. by apply nondecreasing_drop.
  - apply Forall_forall. intros s Hs.
    apply list_elem_of_lookup in Hs as [i Hi]. rewrite lookup_drop in Hi.
    pose proof (lookup_lt_Some _ _ _ Hi) as Hlt.
    rewrite length_app in Hlt. simpl in Hlt.
    apply (Hnd (k + i)%nat (length (buffered self))); [lia | |].
    + by rewrite list_lookup_fmap, Hi.
    + by rewrite list_lookup_fmap, list_lookup_middle.
Qed.

(** X12. [MetricsBuffer.add] on a buffer of floats, with a window [max_age]
    that is not negative.  The cutoff is the difference of the new
    timestamp and [max_age] as Python computes it, rounded to a double.  The
    buffer then holds the new sample, last, after the samples it held whose
    timestamp is not below the cutoff, in the order they had.  Among them is
    every sample that is not older than [max_age] before the new one; a
    sample that is older by less than the rounding of the cutoff can be
    among them too.  When the samples come with timestamps that do not
    decrease, what goes is a front part of the buffer, the timestamps of the
    buffer still do not decrease, and none is later than the new one. *)
Theorem buffer_add_slides_the_window (smp : MetricSample) (self : MetricsBuffer) :
  float_buffer self → is_float (sample_timestamp smp) →
  (0 <= max_age self)%Q →
  let buffer := MetricsBuffer_add smp self in
  let cutoff := float_sub (sample_timestamp smp) (max_age self) in
  let times l := sample_timestamp <$> l in
  max_age buffer = max_age self ∧ float_buffer buffer ∧
  buffered buffer
  = filter (λ s, Qle_bool cutoff (sample_timestamp s) = true) (buffered self)
    ++ [smp] ∧
  Forall (λ s, (cutoff <= sample_timestamp s)%Q) (buffered buffer) ∧
  (∀ s, s ∈ buffered self →
     (sample_timestamp smp - max_age self <= sample_timestamp s)%Q →
     s ∈ buffered buffer) ∧
  (nondecreasing (times (buffered self ++ [smp])) →
     (∃ k, buffered buffer = drop k (buffered self ++ [smp])) ∧
     nondecreasing (times (buffered buffer)) ∧
     Forall (λ s, (sample_timestamp s <= sample_timestamp smp)%Q)
       (buffered buffer)).
Proof. apply MetricsBuffer_add_window. Qed.

Lemma buffer_test_floats :
  float_buffer buffer_test ∧ is_float (sample_timestamp sample_test) ∧
  (0 <= max_age buffer_test)%Q.
Proof.
  split; [|split; [|by vm_compute]].
  - split; [by vm_compute|]. repeat constructor; by vm_compute.
  - by vm_compute.
Defined.

Lemma samples_test_nondecreasing :
  nondecreasing (sample_timestamp <$> (buffered buffer_test ++ [sample_test])).
Proof.
  intros i j x y Hij Hx Hy.
  do 3 (destruct i as [|i];
        [(do 3 (destruct j as [|j];
                [simpl in Hx, Hy; injection Hx as <-; injection Hy as <-;
                 first [lia | by vm_compute]|])); by simpl in Hy|]).
  done.
Defined.

(** The window is 0.7 seconds, and the buffer holds samples of 1.2 and of
    0.7 seconds before the new one.  The first goes.  The second stays,
    though its timestamp, as a double, is more than the window, as a
    double, before the new one: the cutoff is rounded down to it. *)
Lemma buffer_add_slides_the_window_witness :
  float_buffer buffer_test ∧ is_float (sample_timestamp sample_test) ∧
  (0 <= max_age buffer_test)%Q ∧
  (∃ s, buffered buffer_test !! 1%nat = Some s ∧
        (sample_timestamp s
         < sample_timestamp sample_test - max_age buffer_test)%Q) ∧
  buffered (MetricsBuffer_add sample_test buffer_test)
  = drop 1 (buffered buffer_test) ++ [sample_test].
Proof.
  destruct buffer_test_floats as (Hbuf & Hfloat & Hage).
  split; [exact Hbuf|]. split; [exact Hfloat|]. split; [exact Hage|].
  split; [eexists; split; [reflexivity | by vm_compute]|].
  destruct (buffer_add_slides_the_window sample_test buffer_test Hbuf Hfloat Hage)
    as (_ & _ & -> & _).
  vm_compute. reflexivity.
Defined.

(** X13. [MetricsPanel.update_metrics] on a buffer of floats, for samples
    whose timestamps do not decrease and a window that is not negative: it
    draws, and hands to both curves the same times, one for each sample of
    the buffer, with the cpu values and the memory values of these samples.
    The times are the differences, as Python computes them, of the
    timestamps and the first of them: they start at zero, do not decrease
    and end with that of the new sample, and none exceeds the difference, in
    doubles, of the new timestamp and the cutoff of the buffer.  That
    difference can exceed [max_age]. *)
Theorem update_metrics_draws_the_window (smp : MetricSample)
    (self : MetricsBuffer) :
  float_buffer self → is_float (sample_timestamp smp) →
  (0 <= max_age self)%Q →
  nondecreasing (sample_timestamp <$> (buffered self ++ [smp])) →
  let buffer := MetricsBuffer_add smp self in
  let cutoff := float_sub (sample_timestamp smp) (max_age self) in
  ∃ t0 times,
    update_metrics smp self
    = (buffer, Some (times, cpu_percent <$> buffered buffer,
                     memory_percent <$> buffered buffer)) ∧
    head (sample_timestamp <$> buffered buffer) = Some t0 ∧
    times = (λ t, float_sub t t0) <$> (sample_timestamp <$> buffered buffer) ∧
    (∃ t, head times = Some t ∧ (t == 0)%Q) ∧
    last times = Some (float_sub (sample_timestamp smp) t0) ∧
    nondecreasing times ∧
    Forall (λ t, (0 <= t)%Q ∧
                 (t <= float_sub (sample_timestamp smp) cutoff)%Q) times.
Proof.
  intros Hbuffer Hfloat Hage Hnd. cbv zeta.
  destruct (MetricsBuffer_add_window smp self Hbuffer Hfloat Hage)
    as (_ & _ & Hbuf & Hlow & _ & Hsorted).
  destruct (Hsorted Hnd) as (_ & Hnd' & Hhigh). clear Hsorted.
  unfold update_metrics, as_series.
  assert (Hlast : last (buffered (MetricsBuffer_add smp self)) = Some smp).
  { rewrite Hbuf. apply last_snoc. }
  destruct (buffered (MetricsBuffer_add smp self)) as [|s0 rest] eqn:Hb; [done|].
  exists (sample_timestamp s0),
    ((λ t, float_sub t (sample_timestamp s0))
       <$> (sample_timestamp <$> (s0 :: rest))).
  split; [reflexivity|]. split; [done|]. split; [done|].
  split. { eexists. split; [done|]. apply float_sub_diag. }
  split. { rewrite !fmap_last. by rewrite Hlast. }
  assert (Hmono : nondecreasing
            ((λ t, float_sub t (sample_timestamp s0))
               <$> (sample_timestamp <$> (s0 :: rest)))).
  { intros i j x y Hij Hx Hy.
    rewrite !list_lookup_fmap in Hx, Hy.
    destruct ((s0 :: rest) !! i) as [a|] eqn:Ha; [|done].
    destruct ((s0 :: rest) !! j) as [b|] eqn:Hb'; [|done].
    simpl in Hx, Hy. injection Hx as <-. injection Hy as <-.
    apply float_sub_mono.
    apply (Hnd' i j); [done | by rewrite list_lookup_fmap, Ha
                      | by rewrite list_lookup_fmap, Hb']. }
  split; [exact Hmono|].
  apply Forall_forall. intros t Ht. split.
  - apply list_elem_of_lookup in Ht as [i Hi].
    rewrite <- (float_sub_diag (sample_timestamp s0)).
    by apply (Hmono 0%nat i); [lia| |].
  - apply list_elem_of_fmap in Ht as (ts & -> & Hts).
    apply list_elem_of_fmap in Hts as (s & -> & Hs).
    apply Qle_trans
      with (float_sub (sample_timestamp smp) (sample_timestamp s0)).
    + apply float_sub_mono. by eapply (proj1 (Forall_forall _ _) Hhigh).
    + apply float_sub_anti. by apply Forall_cons in Hlow as [Hlow _].
Qed.

(** On the same buffer the curves get the times 0 and 0.7000000476837158,
    the second above the window of 0.7 seconds. *)
Lemma update_metrics_draws_the_window_witness :
  float_buffer buffer_test ∧ is_float (sample_timestamp sample_test) ∧
  (0 <= max_age buffer_test)%Q ∧
  nondecreasing (sample_timestamp <$> (buffered buffer_test ++ [sample_test])) ∧
  ∃ drawn,
    (update_metrics sample_test buffer_test).2 = Some drawn ∧
    Forall2 Qeq drawn.1.1 [0; 2936013 # 4194304]%Q ∧
    (max_age buffer_test < 2936013 # 4194304)%Q.
Proof.
  destruct buffer_test_floats as (Hbuf & Hfloat & Hage).
  pose proof samples_test_nondecreasing as Hnd.
  split; [exact Hbuf|]. split; [exact Hfloat|]. split; [exact Hage|].
  split; [exact Hnd|].
  destruct (update_metrics_draws_the_window sample_test buffer_test
              Hbuf Hfloat Hage Hnd) as (t0 & times & Hrun & Hhead & Htimes & _).
  eexists. rewrite Hrun. split; [reflexivity|].
  split; [|by vm_compute].
  simpl. rewrite Htimes. vm_compute in Hhead. injection Hhead as <-.
  vm_compute. repeat constructor.
Defined.

(** ** The event bus *)

Lemma subscribers_setitem topic topic' callbacks (self : EventBus) :
  subscribers topic' (mkEventBus (dict_setitem topic callbacks (_subscribers self)))
  = if decide (topic' = topic) then callbacks else subscribers topic' self.
Proof.
  unfold subscribers. simpl. destruct (decide (topic' = topic)) as [->|Hne].
  - by rewrite dict_get_setitem.
  - by rewrite dict_get_setitem_ne.
Qed.

Lemma list_remove_first_absent x l : x ∉ l → list_remove_first x l = l.
Proof.
  induction l as [|y l IH]; [done|]. simpl.
  intros [Hne Hnotin]%not_elem_of_cons.
  rewrite decide_False by done. by rewrite IH.
Qed.

Lemma list_remove_first_snoc x l :
  list_remove_first x (l ++ [x])
  = if decide (x ∈ l) then list_remove_first x l ++ [x] else l.
Proof.
  induction l as [|y l IH].
  - simpl. rewrite decide_True by done.
    destruct (decide (x ∈ [])) as [Hin|_]; [by apply elem_of_nil in Hin | done].
  - simpl. destruct (decide (y = x)) as [->|Hne].
    + by rewrite decide_True by apply list_elem_of_here.
    + rewrite IH. destruct (decide (x ∈ l)) as [Hin|Hnotin].
      * by rewrite decide_True by by apply list_elem_of_further.
      * rewrite decide_False; [done|].
        intros [->|Hin]%elem_of_cons; done.
Qed.

Lemma count_occ_remove_first x y l :
  count_occ Nat.eq_dec (list_remove_first x l) y
  = (count_occ Nat.eq_dec l y
     - if decide (y = x ∧ x ∈ l) then 1 else 0)%nat.
Proof.
  induction l as [|z l IH].
  - simpl. destruct (decide (y = x ∧ x ∈ [])); lia.
  - simpl. destruct (decide (z = x)) as [->|Hzx].
    + destruct (Nat.eq_dec x y) as [->|Hxy].
      * rewrite decide_True by (split; [done | apply list_elem_of_here]). lia.
      * rewrite decide_False by (intros [-> _]; done). lia.
    + simpl. rewrite IH. destruct (Nat.eq_dec z y) as [->|Hzy].
      * rewrite !decide_False by (intros [-> _]; done). lia.
      * destruct (decide (y = x ∧ x ∈ l)) as [[-> Hin]|Hno].
        -- by rewrite decide_True by (split; [done | by apply list_elem_of_further]).
        -- rewrite decide_False; [done|].
           intros [-> [->|Hin]%elem_of_cons]; [done | by destruct Hno].
Qed.

Lemma unsubscribe_subscribers topic topic' callback (self : EventBus) :
  subscribers topic' (unsubscribe topic callback self)
  = if decide (topic' = topic)
    then list_remove_first callback (subscribers topic self)
    else subscribers topic' self.
Proof.
  unfold unsubscribe.
  destruct (dict_get topic (_subscribers self)) as [[|cb cbs]|] eqn:Hget.
  - destruct (decide (topic' = topic)) as [->|]; [|done].
    unfold subscribers. by rewrite Hget.
  - destruct (decide (callback ∈ cb :: cbs)) as [Hin|Hnotin].
    + rewrite subscribers_setitem. destruct (decide (topic' = topic)); [|done].
      unfold subscribers. by rewrite Hget.
    + destruct (decide (topic' = topic)) as [->|]; [|done].
      unfold subscribers. rewrite Hget. simpl default.
      by rewrite list_remove_first_absent.
  - destruct (decide (topic' = topic)) as [->|]; [|done].
    unfold subscribers. by rewrite Hget.
Qed.

(** X14. [EventBus.subscribe] adds one registration of the callback at the
    end of the list of its topic, also when the callback is registered
    already; [EventBus.unsubscribe] removes one registration, the earliest,
    and does nothing when there is none.  Neither touches another topic.  So
    a callback registered [n] times needs [n] calls of [unsubscribe]; and
    subscribing a registered callback and unsubscribing it again moves it to
    the end of the list. *)
Theorem unsubscribe_removes_one_registration (topic : string) (callback : nat)
    (self : EventBus) :
  let registrations callback' bus :=
    count_occ Nat.eq_dec (subscribers topic bus) callback' in
  (∀ topic',
     subscribers topic' (subscribe topic callback self)
     = if decide (topic' = topic) then subscribers topic self ++ [callback]
       else subscribers topic' self) ∧
  (∀ topic',
     subscribers topic' (unsubscribe topic callback self)
     = if decide (topic' = topic)
       then list_remove_first callback (subscribers topic self)
       else subscribers topic' self) ∧
  (∀ callback',
     registrations callback' (subscribe topic callback self)
     = (registrations callback' self
        + if decide (callback' = callback) then 1 else 0)%nat ∧
     registrations callback' (unsubscribe topic callback self)
     = (registrations callback' self
        - if decide (callback' = callback) then 1 else 0)%nat) ∧
  (callback ∉ subscribers topic self → unsubscribe topic callback self = self) ∧
  subscribers topic (unsubscribe topic callback (subscribe topic callback self))
  = if decide (callback ∈ subscribers topic self)
    then list_remove_first callback (subscribers topic self) ++ [callback]
    else subscribers topic self.
Proof.
  cbv zeta.
  assert (Hsub : ∀ topic',
     subscribers topic' (subscribe topic callback self)
     = if decide (topic' = topic) then subscribers topic self ++ [callback]
       else subscribers topic' self).
  { intros topic'. unfold subscribe. apply subscribers_setitem. }
  split; [exact Hsub|]. split; [intros topic'; apply unsubscribe_subscribers|]. split.
  { intros callback'. split.
    - rewrite Hsub, decide_True by done. rewrite count_occ_app. simpl.
      destruct (Nat.eq_dec callback callback') as [->|Hne].
      + by rewrite decide_True.
      + by rewrite decide_False by congruence.
    - rewrite unsubscribe_subscribers, decide_True by done.
      rewrite count_occ_remove_first.
      destruct (decide (callback' = callback)) as [->|Hne].
      + destruct (decide (callback ∈ subscribers topic self)) as [Hin|Hnotin].
        * by rewrite decide_True.
        * rewrite decide_False by (intros [_ ?]; done).
          assert (count_occ Nat.eq_dec (subscribers topic self) callback = 0%nat)
            as ->; [|done].
          apply count_occ_not_In. intros Hin. apply Hnotin.
          by apply list_elem_of_In.
      + by rewrite decide_False by (intros [? _]; done). }
  split.
  { intros Hnotin. unfold unsubscribe. unfold subscribers in Hnotin.
    destruct (dict_get topic (_subscribers self)) as [[|cb cbs]|]; try done.
    by rewrite decide_False. }
  rewrite unsubscribe_subscribers, decide_True by done.
  rewrite Hsub, decide_True by done. apply list_remove_first_snoc.
Qed.

Lemma deliver_noting {P} (reaction : nat → EventBus → EventBus)
    (callbacks : list nat) (payload : P) (bus : EventBus) (noted : list (nat * P)) :
  deliver (noting reaction) callbacks payload (bus, noted)
  = Some (foldl (λ bus callback, reaction callback bus) bus callbacks,
          noted ++ ((λ callback, (callback, payload)) <$> callbacks)).
Proof.
  revert bus noted. induction callbacks as [|cb cbs IH]; intros bus noted; simpl.
  - by rewrite app_nil_r.
  - unfold noting at 1. simpl. rewrite IH. by rewrite <- app_assoc.
Qed.

(** X15. [EventBus.publish] calls the callbacks that were registered for the
    topic when it was called, each once for each of its registrations, in
    the order of registration, whatever the callbacks do to the
    subscriptions meanwhile: a callback that unsubscribes another one does
    not keep it from being called this time, and one that subscribes a new
    callback does not get it called before the next [publish].  When a
    callback raises, [publish] raises and the callbacks after it are not
    called. *)
Theorem publish_calls_the_registered {P} (reaction : nat → EventBus → EventBus)
    (topic : string) (payload : P) (bus : EventBus) (noted : list (nat * P)) :
  (∃ bus',
     publish (noting reaction) topic payload (bus, noted)
     = Some (bus', noted ++ ((λ callback, (callback, payload))
                             <$> subscribers topic bus))) ∧
  (∀ before failing after (call : nat → P → EventBus * list (nat * P)
                                  → option (EventBus * list (nat * P))),
     subscribers topic bus = before ++ failing :: after →
     (∀ cb σ, cb ∈ before → call cb payload σ = noting reaction cb payload σ) →
     (∀ σ, call failing payload σ = None) →
     publish call topic payload (bus, noted) = None).
Proof.
  split.
  - eexists. unfold publish. simpl. apply deliver_noting.
  - intros before failing after call Hsubs Hbefore Hfail. unfold publish.
    simpl. rewrite Hsubs. clear Hsubs.
    generalize (bus, noted). intros σ. revert σ.
    induction before as [|cb cbs IH]; intros σ; simpl.
    + by rewrite Hfail.
    + rewrite Hbefore by apply list_elem_of_here. simpl. apply IH.
      intros cb' σ' Hin. by apply Hbefore, list_elem_of_further.
Qed.

(** ** Log records *)

Lemma str_of_Z_three n : 100 ≤ n < 999 → String.length (str_of_Z n) = 3%nat.
Proof.
  intros Hn.
  assert (Hall : forallb (λ k, String.length (str_of_Z (100 + Z.of_nat k)) =? 3)%nat
                   (seq 0 (Z.to_nat 899)) = true) by (vm_compute; reflexivity).
  rewrite forallb_forall in Hall.
  specialize (Hall (Z.to_nat (n - 100))).
  replace (100 + Z.of_nat (Z.to_nat (n - 100))) with n in Hall by lia.
  apply Nat.eqb_eq, Hall, in_seq. lia.
Qed.

(** X16. A record of [LogsFeed.sample], for a generator that keeps numpy's
    promises: its level is INFO, WARN or ERROR, its message is one of the
    nine of [_LOG_MESSAGES], and its timestamp is the time of the call.  A
    record of level INFO names no incident.  The incident a record names is
    the letter I followed by the three digits of a number from 100 to 998:
    999 is never drawn.  The seed of the feed state is left as it was. *)
Theorem log_record_shape {G} `{Generator G} `{WeightedChoice G}
    `{!GeneratorLaws G} (ts : Q) (st : FeedState G) :
  let record := (LogsFeed_sample ts st).1 in
  level record ∈ ["INFO"; "WARN"; "ERROR"] ∧
  message record ∈ _LOG_MESSAGES ∧
  log_timestamp record = ts ∧
  seed (LogsFeed_sample ts st).2 = seed st ∧
  (level record = "INFO" → incident_id record = None) ∧
  (∀ id, incident_id record = Some id →
     ∃ n, 100 ≤ n < 999 ∧ id = "I" +:+ str_of_Z n ∧ String.length id = 4%nat).
Proof.
  cbv zeta. unfold LogsFeed_sample.
  pose proof (rng_choice_p_elem ["INFO"; "WARN"; "ERROR"] _levels (rng st)
                ltac:(done)) as Hlevel.
  destruct (rng_choice_p _ _ (rng st)) as [lvl g1]. simpl in Hlevel.
  pose proof (rng_choice_elem _LOG_MESSAGES g1 ltac:(done)) as Hmsg.
  destruct (rng_choice _LOG_MESSAGES g1) as [msg g2]. simpl in Hmsg.
  destruct (decide (lvl ≠ "INFO")) as [Hne|Heq].
  - destruct (rng_random g2) as [roll g3]. destruct (Qltb roll (1 # 2)).
    + pose proof (rng_integers_range 100 999 g3 ltac:(lia)) as Hn.
      destruct (rng_integers 100 999 g3) as [n g4]. simpl in *.
      do 4 (split; [done|]). split; [done|].
      intros id [= <-]. exists n. split; [done|]. split; [done|].
      change (S (String.length (str_of_Z n)) = 4%nat).
      by rewrite str_of_Z_three.
    + simpl. do 4 (split; [done|]). split; [done|]. by intros id.
  - simpl. do 4 (split; [done|]). split; [done|]. by intros id.
Qed.

Lemma log_record_shape_witness :
  GeneratorLaws Z ∧
  let record :=
    (LogsFeed_sample (G:=Z) 0 (FeedState_new (Script.seed_of [1; 4; 20; 23]))).1 in
  record = mkLogRecord 0 "WARN" "Connection timeout" (Some "I123") ∧
  ∃ n, 100 ≤ n < 999 ∧ "I123" = "I" +:+ str_of_Z n ∧
       String.length "I123" = 4%nat.
Proof.
  split; [exact Script_laws|]. cbv zeta. split; [vm_compute; reflexivity|].
  apply (log_record_shape (G:=Z) 0
           (FeedState_new (Script.seed_of [1; 4; 20; 23]))).
  vm_compute. reflexivity.
Defined.

(** ** The properties on concrete runs *)

Lemma world_test_tidy : tidy world_test.
Proof. split; [apply world_test_ready|]. vm_compute. apply NoDup_singleton. Defined.

Lemma purge_keeps_the_unresolved_witness :
  NoDup (active (tracker (feed world_swept))).*1 ∧
  (∀ key l, (key, l) ∈ active (tracker (feed world_swept)) →
     (l < length (heap world_swept))%nat) ∧
  (status <$> heap world_swept !! 0%nat) = Some RESOLVED ∧
  active (tracker (feed world_swept)) = [("A0001", 0%nat)] ∧
  ∃ w', purge world_swept = Some (tt, w') ∧ active (tracker (feed w')) = [].
Proof.
  assert (Hnd : NoDup (active (tracker (feed world_swept))).*1)
    by (vm_compute; apply NoDup_singleton).
  assert (Hbound : ∀ key l, (key, l) ∈ active (tracker (feed world_swept)) →
                     (l < length (heap world_swept))%nat).
  { intros key l Hin. vm_compute in Hin.
    apply list_elem_of_singleton in Hin. injection Hin as -> ->.
    vm_compute. lia. }
  split; [exact Hnd|]. split; [exact Hbound|].
  split; [vm_compute; reflexivity|]. split; [vm_compute; reflexivity|].
  destruct (purge_keeps_the_unresolved world_swept Hnd Hbound)
    as (w' & Hpurge & Hactive & _).
  exists w'. split; [exact Hpurge|]. rewrite Hactive. vm_compute. reflexivity.
Defined.

Lemma step_tracks_the_unresolved_witness :
  tidy world_test ∧
  ∃ emitted w',
    step clock_test world_test = Some (emitted, w') ∧ tidy w' ∧
    active (tracker (feed w')) = [].
Proof.
  split; [apply world_test_tidy|].
  destruct (step_tracks_the_unresolved clock_test world_test world_test_tidy)
    as (em & w' & Hstep & Htidy & Hactive).
  exists em, w'. split; [exact Hstep|]. split; [exact Htidy|].
  rewrite Hactive. vm_compute in Hstep. injection Hstep as <- <-.
  vm_compute. reflexivity.
Defined.

Lemma step_emits_the_changes_witness :
  ready world_test ∧
  ∃ emitted w' r b,
    step clock_test world_test = Some (emitted, w') ∧
    heap w' !! 0%nat = Some b ∧ 0%nat ∈ emitted ∧
    last_update b = clock_test r ∧ last_update b = 11000000.
Proof.
  split; [apply world_test_ready|].
  destruct (step_emits_the_changes clock_test world_test world_test_ready)
    as (em & w' & r & Hstep & Hr & Hobj).
  destruct (heap world_test !! 0%nat) as [a|] eqn:Ha; [|by vm_compute in Ha].
  destruct (Hobj 0%nat a Ha) as (b & Hb & Hiff & Htime & _).
  exists em, w', r, b. split; [exact Hstep|]. split; [exact Hb|].
  assert (Hin : 0%nat ∈ em).
  { vm_compute in Hstep. injection Hstep as <- <-. apply list_elem_of_here. }
  split; [exact Hin|]. split; [by apply Htime|].
  vm_compute in Hstep. injection Hstep as <- <-.
  vm_compute in Hb. injection Hb as <-. reflexivity.
Defined.

Lemma make_incident_fields_witness :
  GeneratorLaws Z ∧
  ready (IncidentsFeed_new (G:=Z) 999 cfg_test map_test) ∧
  monotone_clock clock_test ∧
  ∃ l w' inc,
    _make_incident clock_test (IncidentsFeed_new 999 cfg_test map_test)
    = Some (l, w') ∧
    heap w' = [inc] ∧ region inc ∈ _REGIONS ∧
    ∃ d, autoresolve_after inc = Some d ∧ (5 <= d)%Q ∧ (d <= 10)%Q.
Proof.
  assert (Hready : ready (IncidentsFeed_new (G:=Z) 999 cfg_test map_test))
    by (apply IncidentsFeed_new_ready; [apply cfg_test_valid | apply map_test_valid]).
  split; [exact Script_laws|]. split; [exact Hready|].
  split; [apply clock_test_monotone|].
  destruct (make_incident_fields clock_test _ Hready clock_test_monotone)
    as (l & w' & inc & Hmake & _ & Hheap & _ & Hregion & _ & _ & _ & d & Hd
        & Hlow & Hhigh & _).
  exists l, w', inc. split; [exact Hmake|]. split; [exact Hheap|].
  split; [exact Hregion|]. exists d. split; [exact Hd|]. split; [exact Hlow|].
  exact Hhigh.
Defined.

Lemma add_is_a_dictionary_assignment_witness :
  ∃ inc,
    heap world_test !! 0%nat = Some inc ∧
    identifier inc = "A0001" ∧
    tracker_add 0 world_test = Some (tt, world_test).
Proof.
  destruct (heap world_test !! 0%nat) as [inc|] eqn:Hinc;
    [|by vm_compute in Hinc].
  exists inc. split; [reflexivity|].
  destruct (add_is_a_dictionary_assignment world_test 0 inc Hinc)
    as (w' & Hadd & _ & _ & _ & _ & _ & _ & _ & Hsame).
  assert (Hid : identifier inc = "A0001")
    by (vm_compute in Hinc; by injection Hinc as <-).
  split; [exact Hid|]. rewrite Hadd. do 2 f_equal. apply Hsame.
  - vm_compute. apply NoDup_singleton.
  - rewrite Hid. vm_compute. apply list_elem_of_here.
Defined.

Lemma filters_never_hide_a_row_witness :
  let a := mkIncident "A0001" 0 "network" HIGH NEW "ap-south" false None 0
             (Some 75%Q) (Some (5, 7)) in
  let panel := mkIncidentsPanel [mkIncidentRow 0] [] (Some HIGH) None in
  ¬ (filter_severity panel = None ∧ filter_status panel = None) ∧
  _rows panel ≠ [] ∧
  _apply_filters [a] panel = None ∧ add_incident [a] 0 panel = None.
Proof.
  intros a panel.
  assert (Hf : ¬ (filter_severity panel = None ∧ filter_status panel = None))
    by (by intros [? _]).
  assert (Hrows : _rows panel ≠ []) by done.
  split; [exact Hf|]. split; [exact Hrows|].
  destruct (filters_never_hide_a_row [a] panel) as (_ & Hraise & Hadd).
  split; [by apply Hraise | by apply Hadd].
Defined.

Lemma unsubscribe_removes_one_registration_witness :
  7%nat ∈ subscribers "incident" bus_test ∧
  subscribers "incident" bus_test = [7; 8; 7]%nat ∧
  subscribers "incident" (unsubscribe "incident" 7 bus_test) = [8; 7]%nat ∧
  (9%nat ∉ subscribers "incident" bus_test) ∧
  unsubscribe "incident" 9 bus_test = bus_test.
Proof.
  assert (Hnotin : 9%nat ∉ subscribers "incident" bus_test).
  { vm_compute. intros Hin.
    repeat (apply elem_of_cons in Hin as [Hin|Hin]; [done|]).
    by apply elem_of_nil in Hin. }
  split; [vm_compute; apply list_elem_of_here|].
  split; [reflexivity|]. split; [reflexivity|]. split; [exact Hnotin|].
  by apply (unsubscribe_removes_one_registration "incident" 9 bus_test).
Defined.

Lemma publish_calls_the_registered_witness :
  let failing := λ (cb : nat) (payload : string) σ,
    if decide (cb = 8%nat) then None
    else noting (λ _ bus, bus) cb payload σ in
  subscribers "incident" bus_test = [7%nat] ++ 8%nat :: [7%nat] ∧
  (∀ cb σ, cb ∈ [7%nat] →
     failing cb "A0001" σ = noting (λ _ bus, bus) cb "A0001" σ) ∧
  (∀ σ, failing 8%nat "A0001" σ = None) ∧
  publish failing "incident" "A0001" (bus_test, []) = None ∧
  ∃ bus',
    publish (noting (unsubscribe "incident")) "incident" "A0001" (bus_test, [])
    = Some (bus', [(7%nat, "A0001"); (8%nat, "A0001"); (7%nat, "A0001")]).
Proof.
  intros failing.
  assert (Hbefore : ∀ cb σ, cb ∈ [7%nat] →
            failing cb "A0001" σ = noting (λ _ bus, bus) cb "A0001" σ).
  { intros cb σ Hin. apply list_elem_of_singleton in Hin. by subst cb. }
  assert (Hfail : ∀ σ, failing 8%nat "A0001" σ = None) by done.
  split; [reflexivity|]. split; [exact Hbefore|]. split; [exact Hfail|].
  split.
  - exact (proj2 (publish_calls_the_registered (λ _ bus, bus) "incident" "A0001"
                    bus_test []) [7%nat] 8%nat [7%nat] failing eq_refl
             Hbefore Hfail).
  - exact (proj1 (publish_calls_the_registered (unsubscribe "incident")
                    "incident" "A0001" bus_test [])).
Defined.

(** ** A feed that was reset

    A feed whose tracker is new does what a feed just built does, whatever
    incident objects [junk] and clock reads [r] lie behind it: the same
    calls return the same values, with every address moved by the number of
    the old objects. *)

Section Replay.
Context {G : Type} `{Generator G}.
Variables (nowF nowR : nat → Z) (junk : list Incident) (r : nat).
Hypothesis Hclock : ∀ i, nowR (r + i)%nat = nowF i.

Definition move (l : loc) : loc := (length junk + l)%nat.

Definition move_entries (d : list (string * loc)) : list (string * loc) :=
  prod_map id move <$> d.

Definition move_tracker (t : IncidentTracker) : IncidentTracker :=
  mkIncidentTracker (move_entries (active t)) (counter t).

Definition move_feed (f : IncidentsFeed) : IncidentsFeed :=
  mkIncidentsFeed (config f) (move_tracker (tracker f)) (_grid_width f)
    (_grid_height f).

Definition move_world (w : World G) : World G :=
  mkWorld (junk ++ heap w) (state w) (move_feed (feed w)) (r + reads w).

(** [replays R mF mR]: run from a world and from the world that has the old
    objects behind it, [mF] and [mR] both raise, or return results related
    by [R] and worlds that are again such a pair. *)
Definition replays {A B} (R : A → B → Prop) (mF : @M G A) (mR : @M G B) : Prop :=
  ∀ w, match mF w, mR (move_world w) with
       | Some (a, wa), Some (b, wb) => R a b ∧ wb = move_world wa
       | None, None => True
       | _, _ => False
       end.

Definition moved (l l' : loc) : Prop := l' = move l.
Definition all_moved (ls ls' : list loc) : Prop := ls' = move <$> ls.
Definition feed_moved (f f' : IncidentsFeed) : Prop := f' = move_feed f.

Lemma replays_ret {A B} (R : A → B → Prop) a b : R a b → replays R (ret a) (ret b).
Proof. intros HR w. done. Qed.

Lemma replays_raise {A B} (R : A → B → Prop) : replays R raise raise.
Proof. intros w. done. Qed.

Lemma replays_bind {A A' B B'} (R : A → A' → Prop) (R' : B → B' → Prop)
    mF mR kF kR :
  replays R mF mR → (∀ a b, R a b → replays R' (kF a) (kR b)) →
  replays R' (bind mF kF) (bind mR kR).
Proof.
  intros Hm Hk w. specialize (Hm w). unfold bind.
  destruct (mF w) as [[a wa]|], (mR (move_world w)) as [[b wb]|]; try done.
  destruct Hm as [HR ->]. apply (Hk a b HR wa).
Qed.

Lemma replays_get_feed : replays feed_moved get_feed get_feed.
Proof. intros w. done. Qed.

Lemma replays_set_tracker t :
  replays eq (set_tracker t) (set_tracker (move_tracker t)).
Proof. intros w. done. Qed.

Lemma replays_draw {A} (f : G → A * G) : replays eq (draw f) (draw f).
Proof. intros w. unfold draw. simpl. by destruct (f (rng (state w))). Qed.

Lemma replays_load l : replays eq (load l) (load (move l)).
Proof.
  intros w. unfold load, move. simpl.
  rewrite lookup_app_r by lia.
  replace (length junk + l - length junk)%nat with l by lia.
  by destruct (heap w !! l).
Qed.

Lemma replays_store l a : replays eq (store l a) (store (move l) a).
Proof.
  intros w. unfold store, move, move_world. simpl. by rewrite insert_app_r.
Qed.

Lemma replays_alloc a : replays moved (alloc a) (alloc a).
Proof.
  intros w. unfold alloc, move_world, moved, move. simpl.
  rewrite length_app. split; [done|]. by rewrite app_assoc.
Qed.

Lemma replays_datetime_now : replays eq (datetime_now nowF) (datetime_now nowR).
Proof.
  intros w. unfold datetime_now. simpl. split; [symmetry; apply Hclock|].
  unfold move_world. simpl. f_equal. lia.
Qed.

Ltac replays_bind R :=
  apply (replays_bind R); [|intros ? ? ?].

Lemma replays_advance_status l :
  replays eq (advance_status nowF l) (advance_status nowR (move l)).
Proof.
  unfold advance_status.
  replays_bind (@eq Incident); [apply replays_load|]. subst.
  replays_bind (@eq Z); [apply replays_datetime_now|]. subst.
  apply replays_store.
Qed.

Lemma replays_can_autoresolve l :
  replays eq (can_autoresolve nowF l) (can_autoresolve nowR (move l)).
Proof.
  unfold can_autoresolve.
  replays_bind (@eq Incident); [apply replays_load|]. subst.
  destruct (autoresolve_after b) as [d|]; [|by apply replays_ret].
  replays_bind (@eq Z); [apply replays_datetime_now|]. subst.
  by apply replays_ret.
Qed.

Lemma replays_new_identifier : replays eq new_identifier new_identifier.
Proof.
  unfold new_identifier.
  replays_bind feed_moved; [apply replays_get_feed|]. unfold feed_moved in *. subst.
  replays_bind (@eq unit); [apply (replays_set_tracker (mkIncidentTracker _ _))|].
  by apply replays_ret.
Qed.

Lemma move_dict_set key l d :
  move_entries (dict_set key l d) = dict_set key (move l) (move_entries d).
Proof.
  induction d as [|[k0 v] d IH]; [done|]. simpl.
  destruct (decide (k0 = key)); [done|]. simpl. by rewrite IH.
Qed.

Lemma move_dict_pop key d :
  move_entries (dict_pop key d) = dict_pop key (move_entries d).
Proof.
  unfold dict_pop, move_entries. induction d as [|[k0 v] d IH]; [done|].
  rewrite fmap_cons, !filter_cons.
  change ((prod_map id move (k0, v)).1) with k0.
  change ((k0, v).1) with k0.
  destruct (decide (k0 ≠ key)); [rewrite fmap_cons|]; by rewrite IH.
Qed.

Lemma move_foldl_dict_pop keys d :
  move_entries (foldl (λ d key, dict_pop key d) d keys)
  = foldl (λ d key, dict_pop key d) (move_entries d) keys.
Proof.
  revert d. induction keys as [|key keys IH]; intros d; simpl; [done|].
  by rewrite IH, move_dict_pop.
Qed.

Lemma replays_tracker_add l :
  replays eq (tracker_add l) (tracker_add (move l)).
Proof.
  unfold tracker_add.
  replays_bind (@eq Incident); [apply replays_load|]. subst.
  replays_bind feed_moved; [apply replays_get_feed|]. unfold feed_moved in *. subst.
  simpl. rewrite <- move_dict_set.
  apply (replays_set_tracker (mkIncidentTracker _ _)).
Qed.

Lemma replays_resolved_keys items :
  replays eq (resolved_keys items) (resolved_keys (move_entries items)).
Proof.
  induction items as [|[key l] items IH]; simpl; [by apply replays_ret|].
  replays_bind (@eq Incident); [apply replays_load|]. subst.
  replays_bind (@eq (list string)); [apply IH|]. subst. by apply replays_ret.
Qed.

Lemma replays_purge : replays eq purge purge.
Proof.
  unfold purge.
  replays_bind feed_moved; [apply replays_get_feed|]. unfold feed_moved in *. subst.
  replays_bind (@eq (list string)); [apply replays_resolved_keys|]. subst.
  replays_bind feed_moved; [apply replays_get_feed|]. unfold feed_moved in *. subst.
  simpl. rewrite <- move_foldl_dict_pop.
  apply (replays_set_tracker (mkIncidentTracker _ _)).
Qed.

Lemma replays_integers low high : replays eq (integers low high) (integers low high).
Proof.
  unfold integers. destruct (low <? high); [apply replays_draw | apply replays_raise].
Qed.

Lemma replays_poisson lam : replays eq (poisson lam) (poisson lam).
Proof.
  unfold poisson. destruct (Qltb lam 0); [apply replays_raise | apply replays_draw].
Qed.

Lemma replays_make_incident :
  replays moved (_make_incident nowF) (_make_incident nowR).
Proof.
  unfold _make_incident.
  replays_bind (@eq string); [apply replays_new_identifier|]. subst.
  replays_bind (@eq Z); [apply replays_integers|]. subst.
  destruct (py_index severities b0); [|apply replays_raise].
  replays_bind (@eq string); [apply replays_draw|]. subst.
  replays_bind (@eq string); [apply replays_draw|]. subst.
  replays_bind feed_moved; [apply replays_get_feed|]. unfold feed_moved in *. subst.
  simpl.
  replays_bind (@eq Q); [apply replays_draw|]. subst.
  replays_bind (@eq Z); [apply replays_integers|]. subst.
  replays_bind (@eq Z); [apply replays_integers|]. subst.
  replays_bind (@eq Z); [apply replays_datetime_now|]. subst.
  replays_bind (@eq Z); [apply replays_datetime_now|]. subst.
  replays_bind moved; [apply replays_alloc|]. unfold moved in *. subst.
  replays_bind (@eq unit); [apply replays_tracker_add|]. by apply replays_ret.
Qed.

Lemma replays_arrivals n : replays all_moved (arrivals nowF n) (arrivals nowR n).
Proof.
  induction n as [|n IH]; simpl; [by apply replays_ret|].
  replays_bind moved; [apply replays_make_incident|]. unfold moved in *. subst.
  replays_bind all_moved; [apply IH|]. unfold all_moved in *. subst.
  by apply replays_ret.
Qed.

Lemma replays_progress t l :
  replays all_moved (progress nowF t l) (progress nowR t (move l)).
Proof.
  assert (Hadv :
    replays all_moved
      (bind (advance_status nowF l)
         (λ _, bind (load l)
            (λ inc, bind (store l (set_last_update t inc)) (λ _, ret [l]))))
      (bind (advance_status nowR (move l))
         (λ _, bind (load (move l))
            (λ inc, bind (store (move l) (set_last_update t inc))
               (λ _, ret [move l]))))).
  { replays_bind (@eq unit); [apply replays_advance_status|].
    replays_bind (@eq Incident); [apply replays_load|]. subst.
    replays_bind (@eq unit); [apply replays_store|]. by apply replays_ret. }
  unfold progress.
  replays_bind (@eq Incident); [apply replays_load|]. subst.
  destruct (decide (status b = RESOLVED)); [by apply replays_ret|].
  replays_bind (@eq bool); [apply replays_can_autoresolve|]. subst.
  destruct b0.
  - replays_bind (@eq Incident); [apply replays_load|]. subst.
    replays_bind (@eq unit); [apply replays_store|]. by apply replays_ret.
  - replays_bind (@eq Q); [apply replays_draw|]. subst.
    replays_bind (@eq Incident); [apply replays_load|]. subst.
    destruct ((bool_decide (status b1 = NEW)
               || bool_decide (status b1 = ACKNOWLEDGED)) && Qltb b0 (3 # 10));
      [apply Hadv|].
    destruct (bool_decide (status b1 = IN_PROGRESS) && Qltb b0 (15 # 100));
      [apply Hadv | by apply replays_ret].
Qed.

Lemma replays_sweep t ls :
  replays all_moved (sweep nowF t ls) (sweep nowR t (move <$> ls)).
Proof.
  induction ls as [|l ls IH]; simpl; [by apply replays_ret|].
  replays_bind all_moved; [apply replays_progress|]. unfold all_moved in *. subst.
  replays_bind all_moved; [apply IH|]. unfold all_moved in *. subst.
  apply replays_ret. by rewrite fmap_app.
Qed.

Lemma replays_step : replays all_moved (step nowF) (step nowR).
Proof.
  unfold step.
  replays_bind feed_moved; [apply replays_get_feed|]. unfold feed_moved in *. subst.
  simpl.
  replays_bind (@eq nat); [apply replays_poisson|]. subst.
  replays_bind all_moved; [apply replays_arrivals|].
  replays_bind (@eq Z); [apply replays_datetime_now|]. subst.
  replays_bind all_moved.
  { unfold iter_active. replays_bind feed_moved; [apply replays_get_feed|].
    unfold feed_moved in *. subst. apply replays_ret.
    unfold all_moved. simpl. unfold move_entries.
    rewrite <- !list_fmap_compose. apply list_fmap_ext. by intros i [k0 v] _. }
  unfold all_moved in *. subst.
  replays_bind all_moved; [apply replays_sweep|].
  replays_bind (@eq unit); [apply replays_purge|].
  apply replays_ret. unfold all_moved in *. subst. by rewrite fmap_app.
Qed.

Lemma snapshot_move (w : World G) em :
  snapshot (move_world w) (move <$> em) = snapshot w em.
Proof.
  unfold snapshot. apply list_omap_ext. apply Forall2_fmap_l, Forall_Forall2_diag.
  apply Forall_forall. intros l _. unfold move_world, move. simpl.
  rewrite lookup_app_r by lia.
  by replace (length junk + l - length junk)%nat with l by lia.
Qed.

Lemma run_steps_move n (w : World G) :
  match run_steps nowF n w, run_steps nowR n (move_world w) with
  | Some (ra, wa), Some (rb, wb) => rb = ra ∧ wb = move_world wa
  | None, None => True
  | _, _ => False
  end.
Proof.
  revert w. induction n as [|n IH]; intros w; simpl; [done|].
  pose proof (replays_step w) as Hstep.
  destruct (step nowF w) as [[ea wa]|], (step nowR (move_world w)) as [[eb wb]|];
    try done.
  destruct Hstep as [-> ->]. specialize (IH wa).
  destruct (run_steps nowF n wa) as [[ra wa']|],
    (run_steps nowR n (move_world wa)) as [[rb wb']|]; try done.
  destruct IH as [-> ->]. by rewrite snapshot_move.
Qed.

End Replay.

(** ** The controller *)

Lemma controller_reset_world {G} `{Generator G} (c : FeedsController G)
    (seed' : option Z) (cfg : FeedConfig) (mc : MapConfig) :
  config (feed (incidents c)) = cfg →
  _grid_width (feed (incidents c)) = (grid mc).1 →
  _grid_height (feed (incidents c)) = (grid mc).2 →
  FeedsController_reset seed' c
  = mkFeedsController MetricsFeed_new
      (move_world (heap (incidents c)) (reads (incidents c))
         (IncidentsFeed_new (default (seed (state (incidents c))) seed') cfg mc)).
Proof.
  intros <- Hgw Hgh. unfold FeedsController_reset, move_world, move_feed,
    move_tracker. simpl. rewrite app_nil_r, Nat.add_0_r, <- Hgw, <- Hgh.
  f_equal. f_equal. by destruct seed'.
Qed.

Lemma reset_replays_trace {G} `{Generator G} (nowF nowR : nat → Z) (delta : Z)
    (junk : list Incident) (r : nat) (s : Z) (cfg : FeedConfig) (mc : MapConfig)
    (n : nat) :
  valid_FeedConfig cfg → valid_MapConfig mc →
  (∀ i, nowR (r + i)%nat = nowF i + delta) →
  is_Some (trace nowF n (IncidentsFeed_new s cfg mc)) ∧
  trace nowR n (move_world junk r (IncidentsFeed_new s cfg mc))
  = trace nowF n (IncidentsFeed_new s cfg mc).
Proof.
  intros Hcfg Hmc Hclock. unfold trace.
  pose proof (IncidentsFeed_new_ready (G:=G) s cfg mc Hcfg Hmc) as Hready.
  destruct (run_steps_returns nowF n _ Hready) as [[ra wa] Ha].
  pose proof (run_steps_shift nowF (λ i, nowF i + delta) delta (λ i, eq_refl) n
                (IncidentsFeed_new s cfg mc)) as Hshift.
  change (shift_world delta (IncidentsFeed_new s cfg mc))
    with (IncidentsFeed_new (G:=G) s cfg mc) in Hshift.
  pose proof (run_steps_move (λ i, nowF i + delta) nowR junk r Hclock n
                (IncidentsFeed_new s cfg mc)) as Hmove.
  rewrite Ha in Hshift |- *.
  destruct (run_steps (λ i, nowF i + delta) n (IncidentsFeed_new s cfg mc))
    as [[rb wb]|]; [|done].
  destruct (run_steps nowR n (move_world junk r (IncidentsFeed_new s cfg mc)))
    as [[rc wc]|]; [|done].
  destruct Hshift as [Hsig _]. destruct Hmove as [-> _]. simpl.
  split; [by eexists | by rewrite Hsig].
Qed.

(** X17. [FeedsController.reset] makes the three feeds start again.  For a
    controller whose incidents feed has an accepted configuration, whatever
    it has done before: after [reset(seed)], as after the construction of a
    new controller with that seed (the seed of the controller when [seed] is
    [None]), [n] calls of [IncidentsFeed.step] return and emit the same
    sequences of identifiers, severities, categories, regions and locations,
    when the same time elapses between the readings of the clock; and the
    metrics feed and the logs feed produce the same samples and the same
    records at the same times.  The identifiers start again at A0001, and
    the incidents that were tracked before the reset are not emitted any
    more. *)
Theorem controller_reset_replays {G} `{Generator G} `{WeightedChoice G}
    (nowF nowR : nat → Z) (delta : Z) (cfg : FeedConfig) (mc : MapConfig)
    (c : FeedsController G) (seed' : option Z) (n : nat) :
  valid_FeedConfig cfg → valid_MapConfig mc →
  config (feed (incidents c)) = cfg →
  _grid_width (feed (incidents c)) = (grid mc).1 →
  _grid_height (feed (incidents c)) = (grid mc).2 →
  (∀ i, nowR (reads (incidents c) + i)%nat = nowF i + delta) →
  let again := FeedsController_reset seed' c in
  let fresh :=
    FeedsController_new cfg mc (default (seed (state (incidents c))) seed') in
  is_Some (trace nowR n (incidents again)) ∧
  trace nowR n (incidents again) = trace nowF n (incidents fresh) ∧
  (∀ ts k, samples ts k (state (incidents again)) (metrics again)
           = samples ts k (state (incidents fresh)) (metrics fresh)) ∧
  (∀ ts, LogsFeed_sample ts (state (incidents again))
         = LogsFeed_sample ts (state (incidents fresh))).
Proof.
  intros Hcfg Hmc Hc Hgw Hgh Hclock. cbv zeta.
  rewrite (controller_reset_world c seed' cfg mc Hc Hgw Hgh).
  unfold FeedsController_new. simpl incidents. simpl metrics.
  destruct (reset_replays_trace nowF nowR delta (heap (incidents c))
              (reads (incidents c))
              (default (seed (state (incidents c))) seed') cfg mc n
              Hcfg Hmc Hclock) as [Hsome Heq].
  split; [by rewrite Heq|]. split; [exact Heq|]. done.
Qed.

(** ** The table of incidents *)

Lemma replace_row_spec hp key new rows :
  Forall (λ row, is_Some (hp !! incident row)) rows →
  match replace_row hp key new rows with
  | Some (Some rows') =>
      ∃ before old after,
        rows = before ++ old :: after ∧ rows' = before ++ new :: after ∧
        row_identifier hp old = Some key ∧
        Forall (λ row, row_identifier hp row ≠ Some key) before
  | Some None => Forall (λ row, row_identifier hp row ≠ Some key) rows
  | None => False
  end.
Proof.
  induction rows as [|row rows IH]; intros Hvalid; simpl; [done|].
  apply Forall_cons in Hvalid as [[inc Hinc] Hvalid]. rewrite Hinc.
  destruct (decide (identifier inc = key)) as [Hid|Hid].
  - exists [], row, rows. split; [done|]. split; [done|].
    split; [|done]. unfold row_identifier. by rewrite Hinc, <- Hid.
  - assert (Hrow : row_identifier hp row ≠ Some key).
    { unfold row_identifier. rewrite Hinc. simpl. congruence. }
    specialize (IH Hvalid).
    destruct (replace_row hp key new rows) as [[rows'|]|]; simpl; [| |done].
    + destruct IH as (before & old & after & -> & -> & Hold & Hbefore).
      exists (row :: before), old, after. do 3 (split; [done|]). by constructor.
    + by constructor.
Qed.

(** X18. [IncidentTableModel.upsert], on a table whose rows hold existing
    incidents, returns and keeps one row for an identifier: when no row
    shows the identifier of the incident, a row for it is added at the end;
    otherwise the first row that shows it now holds the incident, in the
    same place.  Every other row is left as it is, and a table that showed
    no identifier twice still shows none twice. *)
Theorem upsert_keeps_one_row_per_identifier (hp : list Incident) (object : loc)
    (inc : Incident) (rows : list IncidentRow) :
  hp !! object = Some inc →
  Forall (λ row, is_Some (hp !! incident row)) rows →
  let shown rows := omap (row_identifier hp) rows in
  ∃ rows',
    upsert hp object rows = Some rows' ∧
    ((Forall (λ row, row_identifier hp row ≠ Some (identifier inc)) rows ∧
      rows' = rows ++ [mkIncidentRow object]) ∨
     (∃ before old after,
        rows = before ++ old :: after ∧
        rows' = before ++ mkIncidentRow object :: after ∧
        row_identifier hp old = Some (identifier inc) ∧
        Forall (λ row, row_identifier hp row ≠ Some (identifier inc)) before)) ∧
    shown rows'
    = (if decide (identifier inc ∈ shown rows) then shown rows
       else shown rows ++ [identifier inc]) ∧
    (NoDup (shown rows) → NoDup (shown rows')).
Proof.
  intros Hobj Hvalid. cbv zeta.
  assert (Hnew : row_identifier hp (mkIncidentRow object) = Some (identifier inc))
    by (unfold row_identifier; simpl; by rewrite Hobj).
  assert (Habsent : ∀ l,
            Forall (λ row, row_identifier hp row ≠ Some (identifier inc)) l →
            identifier inc ∉ omap (row_identifier hp) l).
  { intros l Hall Hin. apply list_elem_of_omap in Hin as (row & Hrow & Hid).
    by apply (proj1 (Forall_forall _ _) Hall row). }
  pose proof (replace_row_spec hp (identifier inc) (mkIncidentRow object) rows
                Hvalid) as Hspec.
  unfold upsert. rewrite Hobj.
  destruct (replace_row hp (identifier inc) (mkIncidentRow object) rows)
    as [[rows'|]|]; [| |done].
  - destruct Hspec as (before & old & after & -> & -> & Hold & Hbefore).
    exists (before ++ mkIncidentRow object :: after). split; [done|].
    split; [right; by exists before, old, after|].
    assert (Hshown : omap (row_identifier hp) (before ++ mkIncidentRow object :: after)
                     = omap (row_identifier hp) (before ++ old :: after)).
    { rewrite !omap_app. simpl. by rewrite Hnew, Hold. }
    rewrite Hshown. split; [|done].
    rewrite decide_True; [done|]. rewrite omap_app. simpl. rewrite Hold.
    apply elem_of_app. right. apply list_elem_of_here.
  - exists (rows ++ [mkIncidentRow object]). split; [done|].
    split; [by left|]. rewrite omap_app. simpl. rewrite Hnew.
    rewrite decide_False by by apply Habsent. split; [done|].
    intros Hnd. apply NoDup_app. split; [done|].
    split; [|apply NoDup_singleton].
    intros id Hin Hid. apply list_elem_of_singleton in Hid. subst id.
    by apply (Habsent rows).
Qed.

Lemma upsert_keeps_one_row_per_identifier_witness :
  let a := mkIncident "A0001" 0 "network" HIGH NEW "ap-south" false None 0
             (Some 75%Q) (Some (5, 7)) in
  let b := mkIncident "A0002" 0 "storage" LOW NEW "us-east" false None 0
             (Some 40%Q) (Some (1, 2)) in
  let rows := [mkIncidentRow 0; mkIncidentRow 1] in
  [a; b] !! 1%nat = Some b ∧
  Forall (λ row, is_Some ([a; b] !! incident row)) rows ∧
  upsert [a; b] 1 rows = Some rows.
Proof.
  intros a b rows.
  assert (Hvalid : Forall (λ row, is_Some ([a; b] !! incident row)) rows)
    by (repeat constructor; by eexists).
  split; [reflexivity|]. split; [exact Hvalid|].
  destruct (upsert_keeps_one_row_per_identifier [a; b] 1 b rows eq_refl Hvalid)
    as (rows' & Hup & _).
  rewrite Hup. vm_compute in Hup. by injection Hup as <-.
Defined.

Lemma controller_reset_replays_witness :
  valid_FeedConfig cfg_default ∧ valid_MapConfig map_default ∧
  config (feed (incidents controller_test)) = cfg_default ∧
  (∀ i, clock_still (reads (incidents controller_test) + i)%nat
        = clock_still i + 0) ∧
  length (heap (incidents controller_test)) = 1%nat ∧
  trace clock_still 1 (incidents (FeedsController_reset None controller_test))
  = Some [[("A0001", HIGH, "network", "ap-south", Some (5, 7))]].
Proof.
  split; [apply cfg_default_valid|]. split; [apply map_default_valid|].
  split; [reflexivity|]. split; [reflexivity|]. split; [reflexivity|].
  destruct (controller_reset_replays (G:=Z) clock_still clock_still 0 cfg_default
              map_default controller_test None 1 cfg_default_valid
              map_default_valid eq_refl eq_refl eq_refl (λ i, eq_refl))
    as (_ & -> & _).
  vm_compute. reflexivity.
Defined.

(** ** Markers on the map *)

Lemma fraction_bounds (v n : Z) :
  0 < n → 0 ≤ v ≤ n →
  (0 <= inject_Z v / inject_Z n)%Q ∧ (inject_Z v / inject_Z n <= 1)%Q.
Proof.
  intros Hn Hv.
  assert (Hpos : (0 < inject_Z n)%Q) by (rewrite <- (Zlt_Qlt 0); lia).
  split.
  - apply Qle_shift_div_l; [done|]. rewrite Qmult_0_l.
    rewrite <- (Zle_Qle 0). lia.
  - apply Qle_shift_div_r; [done|]. rewrite Qmult_1_l.
    rewrite <- Zle_Qle. lia.
Qed.

Lemma fraction_mono (v v' n : Z) :
  0 < n → v ≤ v' → (inject_Z v / inject_Z n <= inject_Z v' / inject_Z n)%Q.
Proof.
  intros Hn Hv. unfold Qdiv. apply Qmult_le_compat_r.
  - rewrite <- Zle_Qle. lia.
  - apply Qinv_le_0_compat. rewrite <- (Zle_Qle 0). lia.
Qed.

Lemma scaled_bounds (q span : Q) :
  (0 <= span)%Q → (0 <= q)%Q → (q <= 1)%Q →
  (0 <= q * span)%Q ∧ (q * span <= span)%Q.
Proof.
  intros Hspan H0 H1. split.
  - by apply Qmult_le_0_compat.
  - rewrite <- (Qmult_1_l span) at 2. by apply Qmult_le_compat_r.
Qed.

(** X19. [MapPanel._location_to_latlon], for a panel built with a grid that
    [_validated_grid_size] accepts: whatever the location, the marker lies
    within the bounds of the map, between the south and the north and
    between the west and the east.  A location of the grid, as the feed
    gives to every incident, is taken as it is, without clamping; and going
    right on the grid never moves a marker to the west, going down never
    moves it to the north. *)
Theorem markers_stay_on_the_map (grid_size : Z * Z) (location : option (Z * Z)) :
  is_Some (_validated_grid_size grid_size) →
  let place := _location_to_latlon grid_size location in
  (south _MOSCOW_BOUNDS <= place.1)%Q ∧ (place.1 <= north _MOSCOW_BOUNDS)%Q ∧
  (west _MOSCOW_BOUNDS <= place.2)%Q ∧ (place.2 <= east _MOSCOW_BOUNDS)%Q ∧
  (∀ x y, location = Some (x, y) →
     0 ≤ x < grid_size.1 → 0 ≤ y < grid_size.2 →
     place
     = ((north _MOSCOW_BOUNDS
         - inject_Z y / inject_Z (Z.max 1 (grid_size.2 - 1))
           * (north _MOSCOW_BOUNDS - south _MOSCOW_BOUNDS))%Q,
        (west _MOSCOW_BOUNDS
         + inject_Z x / inject_Z (Z.max 1 (grid_size.1 - 1))
           * (east _MOSCOW_BOUNDS - west _MOSCOW_BOUNDS))%Q)) ∧
  (∀ x y x' y', location = Some (x, y) → x ≤ x' → y ≤ y' →
     let place' := _location_to_latlon grid_size (Some (x', y')) in
     (place.2 <= place'.2)%Q ∧ (place'.1 <= place.1)%Q).
Proof.
  destruct grid_size as [width height]. intros [v Hv]. cbv zeta.
  assert (0 < width ∧ 0 < height) as [Hw Hh].
  { unfold _validated_grid_size in Hv.
    destruct (Z.leb_spec width 0), (Z.leb_spec height 0); simpl in Hv;
      try done; lia. }
  assert (Hlat_span : (0 <= north _MOSCOW_BOUNDS - south _MOSCOW_BOUNDS)%Q) by done.
  assert (Hlon_span : (0 <= east _MOSCOW_BOUNDS - west _MOSCOW_BOUNDS)%Q) by done.
  assert (Hlat : ∀ q, (0 <= q)%Q → (q <= 1)%Q →
            (south _MOSCOW_BOUNDS
             <= north _MOSCOW_BOUNDS
                - q * (north _MOSCOW_BOUNDS - south _MOSCOW_BOUNDS))%Q ∧
            (north _MOSCOW_BOUNDS
             - q * (north _MOSCOW_BOUNDS - south _MOSCOW_BOUNDS)
             <= north _MOSCOW_BOUNDS)%Q).
  { intros q H0 H1. destruct (scaled_bounds q _ Hlat_span H0 H1) as [Ha Hb].
    set (d := (q * (north _MOSCOW_BOUNDS - south _MOSCOW_BOUNDS))%Q) in *.
    split.
    - apply Qle_minus_iff. apply Qle_minus_iff in Hb.
      assert (Heq : (north _MOSCOW_BOUNDS - d + - south _MOSCOW_BOUNDS
                     == north _MOSCOW_BOUNDS - south _MOSCOW_BOUNDS + - d)%Q) by ring.
      by rewrite Heq.
    - apply Qle_minus_iff.
      assert (Heq : (north _MOSCOW_BOUNDS + - (north _MOSCOW_BOUNDS - d) == d)%Q)
        by ring.
      by rewrite Heq. }
  assert (Hlon : ∀ q, (0 <= q)%Q → (q <= 1)%Q →
            (west _MOSCOW_BOUNDS
             <= west _MOSCOW_BOUNDS
                + q * (east _MOSCOW_BOUNDS - west _MOSCOW_BOUNDS))%Q ∧
            (west _MOSCOW_BOUNDS
             + q * (east _MOSCOW_BOUNDS - west _MOSCOW_BOUNDS)
             <= east _MOSCOW_BOUNDS)%Q).
  { intros q H0 H1. destruct (scaled_bounds q _ Hlon_span H0 H1) as [Ha Hb].
    set (d := (q * (east _MOSCOW_BOUNDS - west _MOSCOW_BOUNDS))%Q) in *.
    split.
    - rewrite <- (Qplus_0_r (west _MOSCOW_BOUNDS)) at 1. by apply Qplus_le_r.
    - apply Qle_minus_iff. apply Qle_minus_iff in Hb.
      assert (Heq : (east _MOSCOW_BOUNDS + - (west _MOSCOW_BOUNDS + d)
                     == east _MOSCOW_BOUNDS - west _MOSCOW_BOUNDS + - d)%Q) by ring.
      by rewrite Heq. }
  assert (Hfrac : ∀ n v, 0 < n →
            (0 <= inject_Z (Z.max 0 (Z.min (n - 1) v)) / inject_Z (Z.max 1 (n - 1)))%Q ∧
            (inject_Z (Z.max 0 (Z.min (n - 1) v)) / inject_Z (Z.max 1 (n - 1)) <= 1)%Q).
  { intros n v0 Hn. apply fraction_bounds; lia. }
  split; [|split; [|split; [|split; [|split]]]].
  - destruct location as [[x y]|]; [|done]. simpl. by apply Hlat; apply Hfrac.
  - destruct location as [[x y]|]; [|done]. simpl. by apply Hlat; apply Hfrac.
  - destruct location as [[x y]|]; [|done]. simpl. by apply Hlon; apply Hfrac.
  - destruct location as [[x y]|]; [|done]. simpl. by apply Hlon; apply Hfrac.
  - intros x y -> Hx Hy. simpl in Hx, Hy. unfold _location_to_latlon.
    replace (Z.max 0 (Z.min (width - 1) x)) with x by lia.
    replace (Z.max 0 (Z.min (height - 1) y)) with y by lia. done.
  - intros x y x' y' -> Hx Hy. simpl. split.
    + apply Qplus_le_r. apply Qmult_le_compat_r; [|done].
      apply fraction_mono; lia.
    + unfold Qminus. apply Qplus_le_r. apply Qopp_le_compat.
      apply Qmult_le_compat_r; [|done]. apply fraction_mono; lia.
Qed.

Lemma markers_stay_on_the_map_witness :
  is_Some (_validated_grid_size (grid map_default)) ∧
  _location_to_latlon (grid map_default) (Some (19, 11))
  = (((5595 # 100) - 11 / 11 * ((5595 # 100) - (5555 # 100)))%Q,
     ((3735 # 100) + 19 / 19 * ((3785 # 100) - (3735 # 100)))%Q) ∧
  Qeq (_location_to_latlon (grid map_default) (Some (19, 11))).1 (5555 # 100) ∧
  Qeq (_location_to_latlon (grid map_default) (Some (19, 11))).2 (3785 # 100).
Proof.
  assert (Hgrid : is_Some (_validated_grid_size (grid map_default)))
    by (by eexists).
  split; [exact Hgrid|].
  destruct (markers_stay_on_the_map (grid map_default) (Some (19, 11)) Hgrid)
    as (_ & _ & _ & _ & Hplace & _).
  split; [apply (Hplace 19 11 eq_refl); simpl; lia|].
  split; reflexivity.
Defined.
